(** * Loop-nesting analysis of a control-flow graph (cfg.ts, havlak.ts)

    A shallow embedding of the basic-block graph container of [cfg.ts] and
    of the Havlak loop finder of [havlak.ts], followed by the properties
    established about them.

    Conventions of the embedding.
    - JavaScript objects live in stores; an object reference is the index
      of the object in its store.  Basic blocks and loop records are kept
      in lists (index = allocation order), union-find nodes are the
      entries of the [nodes] array and are named by their index there.
    - A JavaScript [number] is an integer of [Z]; the embedding is exact
      as long as every value stays below 2^53, where floating-point
      integers are exact.
    - A JavaScript array that is indexed by computed numbers is a finite
      map over [Z]: reading an absent index gives [None] ([undefined]) and
      writing one defines it, as in JavaScript.  Arrays that are only
      pushed to and traversed are lists.
    - A call that would throw a [TypeError] (a property of [undefined])
      returns [TypeError]; a loop that the bounded recursion of the
      embedding cannot finish returns [OutOfFuel].
    - [havlak.ts] reads [BasicBlock.name] wherever it needs the integer
      key of a block: as an index of [numbers] and as the [value : number]
      argument of [mix].  The embedding therefore carries [name] as the
      number the loop finder computes with, next to the separate numeric
      field [id] that [cfg.ts] declares and that keys [basicBlockMap]. *)

From stdpp Require Import gmap list.
From Stdlib Require Import ZArith Lia.

Local Open Scope Z_scope.

(** ** Outcomes of fallible code *)

Inductive outcome (A : Type) : Type :=
| Ok (a : A)
| TypeError
| OutOfFuel.
Arguments Ok {A} a.
Arguments TypeError {A}.
Arguments OutOfFuel {A}.

Global Instance outcome_ret : MRet outcome := fun A a => Ok a.
Global Instance outcome_bind : MBind outcome := fun A B k r =>
  match r with
  | Ok a => k a
  | TypeError => TypeError
  | OutOfFuel => OutOfFuel
  end.

(** Dereferencing a value that may be [undefined]. *)
Definition deref {A : Type} (o : option A) : outcome A :=
  match o with
  | Some a => Ok a
  | None => TypeError
  end.

(** ** cfg.ts *)

Module BasicBlock.

Record t : Type := mk {
name : Z;
id : Z;
inEdges : list nat;
outEdges : list nat
}.

Definition getNumPred (b : t) : Z := Z.of_nat (length (inEdges b)).
Definition getNumSucc (b : t) : Z := Z.of_nat (length (outEdges b)).

Definition addInEdge (bb : nat) (b : t) : t :=
mk (name b) (id b) (inEdges b ++ [bb]) (outEdges b).

Definition addOutEdge (bb : nat) (b : t) : t :=
mk (name b) (id b) (inEdges b) (outEdges b ++ [bb]).

End BasicBlock.

(** The block store together with the static counter
    [BasicBlock.numBasicBlocks]. *)
Record World : Type := mkWorld {
  blocks : list BasicBlock.t;
  numBasicBlocks : Z
}.

(** [new BasicBlock(name, id)] *)
Definition BasicBlock_new (wd : World) (name id : Z) : nat * World :=
  (length (blocks wd),
   mkWorld (blocks wd ++ [BasicBlock.mk name id [] []]) (numBasicBlocks wd + 1)).

Record BasicBlockEdge : Type := mkEdge {
  from : nat;
  to : nat
}.

Module CFG.

(** [basicBlockMap] is a JavaScript [Map]: keys are unique and kept in
  insertion order. *)
Record t : Type := mk {
basicBlockMap : list (Z * nat);
edgeList : list BasicBlockEdge;
startNode : option nat
}.

Definition new : t := mk [] [] None.

Fixpoint map_get (m : list (Z * nat)) (k : Z) : option nat :=
match m with
| [] => None
| (k', v) :: m' => if decide (k' = k) then Some v else map_get m' k
end.

Fixpoint map_set (m : list (Z * nat)) (k : Z) (v : nat) : list (Z * nat) :=
match m with
| [] => [(k, v)]
| (k', v') :: m' =>
    if decide (k' = k) then (k', v) :: m' else (k', v') :: map_set m' k v
end.

Definition getNumNodes (cfg : t) : Z := Z.of_nat (length (basicBlockMap cfg)).

Definition createNode (wd : World) (cfg : t) (name id : Z) : nat * World * t :=
let '(node, wd, cfg) :=
  match map_get (basicBlockMap cfg) id with
  | Some node => (node, wd, cfg)
  | None =>
      let '(node, wd) := BasicBlock_new wd name id in
      (node, wd, mk (map_set (basicBlockMap cfg) id node) (edgeList cfg) (startNode cfg))
  end in
let cfg :=
  if decide (getNumNodes cfg = 1)
  then mk (basicBlockMap cfg) (edgeList cfg) (Some node)
  else cfg in
(node, wd, cfg).

Definition addEdge (cfg : t) (edge : BasicBlockEdge) : t :=
mk (basicBlockMap cfg) (edgeList cfg ++ [edge]) (startNode cfg).

Definition getDst (edge : BasicBlockEdge) : nat := to edge.
Definition getSrc (edge : BasicBlockEdge) : nat := from edge.

End CFG.

(** Calling a method of the block referenced by [r]. *)
Definition update_block (wd : World) (r : nat) (f : BasicBlock.t -> BasicBlock.t)
  : outcome World :=
  b ← deref (blocks wd !! r);
  Ok (mkWorld (<[r := f b]> (blocks wd)) (numBasicBlocks wd)).

(** [new BasicBlockEdge(cfg, from, to)] *)
Definition BasicBlockEdge_new (wd : World) (cfg : CFG.t) (from to : nat)
  : outcome (BasicBlockEdge * World * CFG.t) :=
  let this := mkEdge from to in
  wd ← update_block wd from (BasicBlock.addOutEdge to);
  wd ← update_block wd to (BasicBlock.addInEdge from);
  Ok (this, wd, CFG.addEdge cfg this).

(** ** havlak.ts: loop records and the loop structure graph *)

Definition mix (existing value : Z) : Z :=
  Z.shiftl (Z.land existing 0x0fffffff) 1 + value.

Definition bool_to_Z (b : bool) : Z := if b then 1 else 0.

Module SimpleLoop.

(** [basicBlocks] holds what [addNode] and [setHeader] were given, which
  for [addNode(node.bb)] may be [undefined]. *)
Record t : Type := mk {
basicBlocks : list (option nat);
children : list nat;
counter : Z;
parent : option nat;
header : option nat;
isRoot : bool;
isReducible : bool;
nestingLevel : Z;
depthLevel : Z
}.

Definition new (counter : Z) : t :=
mk [] [] counter None None false true 0 0.

Definition addNode (bb : option nat) (l : t) : t :=
mk (basicBlocks l ++ [bb]) (children l) (counter l) (parent l) (header l)
   (isRoot l) (isReducible l) (nestingLevel l) (depthLevel l).

Definition addChildLoop (loop : nat) (l : t) : t :=
mk (basicBlocks l) (children l ++ [loop]) (counter l) (parent l) (header l)
   (isRoot l) (isReducible l) (nestingLevel l) (depthLevel l).

Definition set_parent (p : nat) (l : t) : t :=
mk (basicBlocks l) (children l) (counter l) (Some p) (header l)
   (isRoot l) (isReducible l) (nestingLevel l) (depthLevel l).

Definition setHeader (bb : nat) (l : t) : t :=
mk (basicBlocks l ++ [Some bb]) (children l) (counter l) (parent l) (Some bb)
   (isRoot l) (isReducible l) (nestingLevel l) (depthLevel l).

Definition set_isReducible (b : bool) (l : t) : t :=
mk (basicBlocks l) (children l) (counter l) (parent l) (header l)
   (isRoot l) b (nestingLevel l) (depthLevel l).

Definition setNestingLevel (level : Z) (l : t) : t :=
mk (basicBlocks l) (children l) (counter l) (parent l) (header l)
   (if decide (level = 0) then true else isRoot l) (isReducible l)
   level (depthLevel l).

(** [this.setParent(p)] on the store of loop records: the parent link of
  [this] is written first, then [this] is pushed onto the children
  of [p]. *)
Definition setParent (this p : nat) (ls : list t) : list t :=
alter (addChildLoop this) p (alter (set_parent p) this ls).

(** Mixing the names of the member blocks, in list order. *)
Fixpoint mix_blocks (bs : list BasicBlock.t) (es : list (option nat)) (result : Z)
: outcome Z :=
match es with
| [] => Ok result
| e :: es' =>
    r ← deref e;
    b ← deref (bs !! r);
    mix_blocks bs es' (mix result (BasicBlock.name b))
end.

(** Mixing the checksums of the child loops, in list order; [sum]
  computes the checksum of one child. *)
Fixpoint mix_children (sum : nat -> outcome Z) (es : list nat) (result : Z)
: outcome Z :=
match es with
| [] => Ok result
| e :: es' =>
    c ← sum e;
    mix_children sum es' (mix result c)
end.

(** [this.checksum()]; the recursion through the child loops is bounded
  by [fuel]. *)
Fixpoint checksum (fuel : nat) (bs : list BasicBlock.t) (ls : list t) (this : nat)
: outcome Z :=
match fuel with
| O => OutOfFuel
| S fuel' =>
    l ← deref (ls !! this);
    let result := counter l in
    let result := mix result (bool_to_Z (isRoot l)) in
    let result := mix result (bool_to_Z (isReducible l)) in
    let result := mix result (nestingLevel l) in
    let result := mix result (depthLevel l) in
    result ← match header l with
             | Some h =>
                 b ← deref (bs !! h);
                 Ok (mix result (BasicBlock.name b))
             | None => Ok result
             end;
    result ← mix_blocks bs (basicBlocks l) result;
    mix_children (checksum fuel' bs ls) (children l) result
end.

End SimpleLoop.

Module LSG.

(** [objs] is the store of the loop records reachable from this graph;
  [loops] and [root] hold references into it. *)
Record t : Type := mk {
objs : list SimpleLoop.t;
loopCounter : Z;
loops : list nat;
root : nat
}.

(** [new LSG()] *)
Definition new : t :=
mk [SimpleLoop.setNestingLevel 0 (SimpleLoop.new 0)] 1 [0%nat] 0%nat.

Definition createNewLoop (g : t) : nat * t :=
(length (objs g),
 mk (objs g ++ [SimpleLoop.new (loopCounter g)]) (loopCounter g + 1)
    (loops g) (root g)).

Definition addLoop (loop : nat) (g : t) : t :=
mk (objs g) (loopCounter g) (loops g ++ [loop]) (root g).

Definition set_objs (ls : list SimpleLoop.t) (g : t) : t :=
mk ls (loopCounter g) (loops g) (root g).

Definition getNumLoops (g : t) : Z := Z.of_nat (length (loops g)).

Definition checksum (fuel : nat) (bs : list BasicBlock.t) (g : t) : outcome Z :=
let result := Z.of_nat (length (loops g)) in
result ← SimpleLoop.mix_children (SimpleLoop.checksum fuel bs (objs g))
           (loops g) result;
c ← SimpleLoop.checksum fuel bs (objs g) (root g);
Ok (mix result c).

End LSG.

(** ** havlak.ts: union-find nodes *)

Module UnionFindNode.

(** A node is named by its index in the [nodes] array of [findLoops];
  [parent] holds such an index, and is [None] until [initNode]. *)
Record t : Type := mk {
dfsNumber : Z;
parent : option Z;
bb : option nat;
loop : option nat
}.

(** [new UnionFindNode()] *)
Definition new : t := mk 0 None None None.

(** [this.initNode(bb, dfsNumber)], for the node stored at index [this]. *)
Definition initNode (this : Z) (bb : nat) (dfsNumber : Z) (n : t) : t :=
mk dfsNumber (Some this) (Some bb) (loop n).

Definition set_parent (p : Z) (n : t) : t :=
mk (dfsNumber n) (Some p) (bb n) (loop n).

Definition set_loop (l : nat) (n : t) : t :=
mk (dfsNumber n) (parent n) (bb n) (Some l).

(** The [while] loop of [findSet]: walks the parent chain from [node],
  collecting in [nodeList] the nodes whose parent is not its own
  parent. *)
Fixpoint findSet_walk (fuel : nat) (nodes : gmap Z t) (node : Z) (nodeList : list Z)
: outcome (Z * list Z) :=
match fuel with
| O => OutOfFuel
| S fuel' =>
    n ← deref (nodes !! node);
    if decide (parent n = Some node) then Ok (node, nodeList)
    else
      p ← deref (parent n);
      pn ← deref (nodes !! p);
      let nodeList :=
        if decide (parent pn = Some p) then nodeList else nodeList ++ [node] in
      findSet_walk fuel' nodes p nodeList
end.

(** The path-compression loop: [nodeList[iter].parent = node.parent]. *)
Fixpoint findSet_compress (nodeList : list Z) (p : option Z) (nodes : gmap Z t)
: gmap Z t :=
match nodeList with
| [] => nodes
| n :: rest =>
    findSet_compress rest p
      (alter (fun nd => mk (dfsNumber nd) p (bb nd) (loop nd)) n nodes)
end.

(** [this.findSet()]: the representative and the array after compression. *)
Definition findSet (fuel : nat) (nodes : gmap Z t) (this : Z)
: outcome (Z * gmap Z t) :=
'(node, nodeList) ← findSet_walk fuel nodes this [];
n ← deref (nodes !! node);
Ok (node, findSet_compress nodeList (parent n) nodes).

(** [this.union(unionFindNode)] *)
Definition union (this unionFindNode : Z) (nodes : gmap Z t) : gmap Z t :=
alter (set_parent unionFindNode) this nodes.

(** [this.setLoop(l)] *)
Definition setLoop (this : Z) (l : nat) (nodes : gmap Z t) : gmap Z t :=
alter (set_loop l) this nodes.

End UnionFindNode.

(** ** havlak.ts: the loop finder *)

Module HavlakLoopFinder.

Definition BB_TOP : Z := 0.
Definition BB_NONHEADER : Z := 1.
Definition BB_REDUCIBLE : Z := 2.
Definition BB_SELF : Z := 3.
Definition BB_IRREDUCIBLE : Z := 4.
Definition BB_DEAD : Z := 5.
Definition BB_LAST : Z := 6.

Definition UNVISITED : Z := -1.

Definition MAXNONBACKPREDS : Z := 32 * 1024.

(** The local arrays of [findLoops].  An entry of [nonBackPreds] is what
  [numbers[nodeV.name]] evaluated to, which is [undefined] ([None])
  when the name is not an index of [numbers]. *)
Record state : Type := mkState {
nonBackPreds : gmap Z (list (option Z));
backPreds : gmap Z (list Z);
numbers : gmap Z Z;
header : gmap Z Z;
types : gmap Z Z;
last : gmap Z Z;
nodes : gmap Z UnionFindNode.t
}.

Definition set_nonBackPreds (v : gmap Z (list (option Z))) (st : state) : state :=
mkState v (backPreds st) (numbers st) (header st) (types st) (last st) (nodes st).
Definition set_backPreds (v : gmap Z (list Z)) (st : state) : state :=
mkState (nonBackPreds st) v (numbers st) (header st) (types st) (last st) (nodes st).
Definition set_numbers (v : gmap Z Z) (st : state) : state :=
mkState (nonBackPreds st) (backPreds st) v (header st) (types st) (last st) (nodes st).
Definition set_header (v : gmap Z Z) (st : state) : state :=
mkState (nonBackPreds st) (backPreds st) (numbers st) v (types st) (last st) (nodes st).
Definition set_types (v : gmap Z Z) (st : state) : state :=
mkState (nonBackPreds st) (backPreds st) (numbers st) (header st) v (last st) (nodes st).
Definition set_last (v : gmap Z Z) (st : state) : state :=
mkState (nonBackPreds st) (backPreds st) (numbers st) (header st) (types st) v (nodes st).
Definition set_nodes (v : gmap Z UnionFindNode.t) (st : state) : state :=
mkState (nonBackPreds st) (backPreds st) (numbers st) (header st) (types st) (last st) v.

(** [isAncestor(w, v, last)]; a comparison with [undefined] is false. *)
Definition isAncestor (w : Z) (v : option Z) (last : gmap Z Z) : bool :=
match v with
| None => false
| Some v =>
    (w <=? v) &&
    match last !! w with
    | Some l => v <=? l
    | None => false
    end
end.

(** The [for] loop of [DFS] over the out-edges of the current block;
  [visit] is the recursive call. *)
Fixpoint DFS_targets (visit : nat -> state -> Z -> outcome (Z * state))
  (bs : list BasicBlock.t) (es : list nat) (lastid : Z) (st : state)
: outcome (Z * state) :=
match es with
| [] => Ok (lastid, st)
| e :: es' =>
    tb ← deref (bs !! e);
    if decide (numbers st !! BasicBlock.name tb = Some UNVISITED)
    then
      '(lastid, st) ← visit e st (lastid + 1);
      DFS_targets visit bs es' lastid st
    else DFS_targets visit bs es' lastid st
end.

(** [DFS(currentNode, nodes, numbers, last, current)]; [fuel] bounds the
  depth of the recursion. *)
Fixpoint DFS (fuel : nat) (bs : list BasicBlock.t) (currentNode : nat)
  (st : state) (current : Z) : outcome (Z * state) :=
match fuel with
| O => OutOfFuel
| S fuel' =>
    nd ← deref (nodes st !! current);
    let st :=
      set_nodes (<[current := UnionFindNode.initNode current currentNode current nd]>
                   (nodes st)) st in
    b ← deref (bs !! currentNode);
    let st := set_numbers (<[BasicBlock.name b := current]> (numbers st)) st in
    '(lastid, st) ←
      DFS_targets (DFS fuel' bs) bs (BasicBlock.outEdges b) current st;
    let st :=
      match numbers st !! BasicBlock.name b with
      | Some i => set_last (<[i := lastid]> (last st)) st
      | None => st
      end in
    Ok (lastid, st)
end.

(** The initialisation loop over [0 <= i < size]. *)
Definition init_state (size : Z) : state :=
let idx := seqZ 0 size in
mkState
  (list_to_map ((fun i => (i, [])) <$> idx))
  (list_to_map ((fun i => (i, [])) <$> idx))
  (list_to_map ((fun i => (i, UNVISITED)) <$> idx))
  (list_to_map ((fun i => (i, 0)) <$> idx))
  (list_to_map ((fun i => (i, BB_NONHEADER)) <$> idx))
  (list_to_map ((fun i => (i, 0)) <$> idx))
  (list_to_map ((fun i => (i, UnionFindNode.new)) <$> idx)).

(** [arr[i].push(x)] *)
Definition push_at {A : Type} (arr : gmap Z (list A)) (i : Z) (x : A)
: outcome (gmap Z (list A)) :=
l ← deref (arr !! i);
Ok (<[i := l ++ [x]]> arr).

(** Step b, the loop over the incoming edges of [nodeW]. *)
Fixpoint classify_preds (bs : list BasicBlock.t) (w : Z) (es : list nat) (st : state)
: outcome state :=
match es with
| [] => Ok st
| nodeV :: es' =>
    vb ← deref (bs !! nodeV);
    let v := numbers st !! BasicBlock.name vb in
    if decide (v = Some UNVISITED) then classify_preds bs w es' st
    else if isAncestor w v (last st) then
      match v with
      | Some z =>
          bp ← push_at (backPreds st) w z;
          classify_preds bs w es' (set_backPreds bp st)
      | None => classify_preds bs w es' st
      end
    else
      nbp ← push_at (nonBackPreds st) w v;
      classify_preds bs w es' (set_nonBackPreds nbp st)
end.

(** Step b, one iteration of the loop over [w]. *)
Definition classify_node (bs : list BasicBlock.t) (w : Z) (st : state)
: outcome state :=
nd ← deref (nodes st !! w);
match UnionFindNode.bb nd with
| None => Ok (set_types (<[w := BB_DEAD]> (types st)) st)
| Some nodeW =>
    b ← deref (bs !! nodeW);
    if decide (BasicBlock.getNumPred b > 0)
    then classify_preds bs w (BasicBlock.inEdges b) st
    else Ok st
end.

(** Step b: [for (w = 0; w < size; ++w)]. *)
Fixpoint classify (bs : list BasicBlock.t) (ws : list Z) (st : state)
: outcome state :=
match ws with
| [] => Ok st
| w :: ws' =>
    st ← classify_node bs w st;
    classify bs ws' st
end.

(** Step d: the loop over [backPreds[w]]; [ffuel] bounds each [findSet]. *)
Fixpoint collect_backPreds (ffuel : nat) (w : Z) (vs : list Z) (nodePool : list Z)
  (st : state) : outcome (list Z * state) :=
match vs with
| [] => Ok (nodePool, st)
| v :: vs' =>
    if decide (v ≠ w) then
      '(r, nds) ← UnionFindNode.findSet ffuel (nodes st) v;
      collect_backPreds ffuel w vs' (nodePool ++ [r]) (set_nodes nds st)
    else
      collect_backPreds ffuel w vs' nodePool
        (set_types (<[w := BB_SELF]> (types st)) st)
end.

(** Step e: [for (iter = 0; iter < nonBackPreds[x.dfsNumber].length; ++iter)],
  for the popped node [x] with [x.dfsNumber = xd].  The list is read
  again at every iteration, since the body may push to it. *)
Fixpoint scan_nonBackPreds (fuel ffuel : nat) (w xd : Z) (iter : nat)
  (workList nodePool : list Z) (st : state)
: outcome (list Z * list Z * state) :=
match fuel with
| O => OutOfFuel
| S fuel' =>
    l ← deref (nonBackPreds st !! xd);
    match l !! iter with
    | None => Ok (workList, nodePool, st)
    | Some yi =>
        yi ← deref yi;
        '(ydash, nds) ← UnionFindNode.findSet ffuel (nodes st) yi;
        let st := set_nodes nds st in
        yn ← deref (nodes st !! ydash);
        let yd := UnionFindNode.dfsNumber yn in
        if negb (isAncestor w (Some yd) (last st)) then
          let st := set_types (<[w := BB_IRREDUCIBLE]> (types st)) st in
          nbp ← push_at (nonBackPreds st) w (Some yd);
          scan_nonBackPreds fuel' ffuel w xd (S iter) workList nodePool
            (set_nonBackPreds nbp st)
        else if decide (yd ≠ w) then
          if decide (ydash ∈ nodePool)
          then scan_nonBackPreds fuel' ffuel w xd (S iter) workList nodePool st
          else scan_nonBackPreds fuel' ffuel w xd (S iter)
                 (workList ++ [ydash]) (nodePool ++ [ydash]) st
        else scan_nonBackPreds fuel' ffuel w xd (S iter) workList nodePool st
    end
end.

(** What a loop body hands to the code after it: the next state, or the
  value of a [return] statement. *)
Inductive flow (A : Type) : Type :=
| Next (a : A)
| Return (v : Z).
Arguments Next {A} a.
Arguments Return {A} v.

(** [while (workList.length > 0)] *)
Fixpoint work (fuel ffuel : nat) (w : Z) (workList nodePool : list Z) (st : state)
: outcome (flow (list Z * state)) :=
match workList with
| [] => Ok (Next (nodePool, st))
| x :: workList =>
    match fuel with
    | O => OutOfFuel
    | S fuel' =>
        xn ← deref (nodes st !! x);
        let xd := UnionFindNode.dfsNumber xn in
        l ← deref (nonBackPreds st !! xd);
        let nonBackSize := Z.of_nat (length l) in
        if decide (nonBackSize > MAXNONBACKPREDS) then Ok (Return 0)
        else
          '(workList, nodePool, st) ←
            scan_nonBackPreds (S (length l)) ffuel w xd 0 workList nodePool st;
          work fuel' ffuel w workList nodePool st
    end
end.

(** The loop over [nodePool] that fills the new loop record [loop]. *)
Fixpoint link_pool (w : Z) (loop : nat) (nodePool : list Z) (st : state) (g : LSG.t)
: outcome (state * LSG.t) :=
match nodePool with
| [] => Ok (st, g)
| node :: nodePool' =>
    nd ← deref (nodes st !! node);
    let st := set_header (<[UnionFindNode.dfsNumber nd := w]> (header st)) st in
    let st := set_nodes (UnionFindNode.union node w (nodes st)) st in
    nd ← deref (nodes st !! node);
    let g :=
      match UnionFindNode.loop nd with
      | Some l => LSG.set_objs (SimpleLoop.setParent l loop (LSG.objs g)) g
      | None =>
          LSG.set_objs
            (alter (SimpleLoop.addNode (UnionFindNode.bb nd)) loop (LSG.objs g)) g
      end in
    link_pool w loop nodePool' st g
end.

(** Step c, one iteration of the loop over [w]; [size] is the number of
  union-find nodes. *)
Definition find_loop (size : nat) (w : Z) (st : state) (g : LSG.t)
: outcome (flow state * LSG.t) :=
nd ← deref (nodes st !! w);
match UnionFindNode.bb nd with
| None => Ok (Next st, g)
| Some nodeW =>
    vs ← deref (backPreds st !! w);
    '(nodePool, st) ← collect_backPreds (S size) w vs [] st;
    let workList := nodePool in
    let st :=
      if decide (nodePool ≠ [])
      then set_types (<[w := BB_REDUCIBLE]> (types st)) st
      else st in
    r ← work (length workList + size + 1) (S size) w workList nodePool st;
    match r with
    | Return v => Ok (Return v, g)
    | Next (nodePool, st) =>
        if decide (nodePool ≠ [] ∨ types st !! w = Some BB_SELF) then
          let '(loop, g) := LSG.createNewLoop g in
          let g :=
            LSG.set_objs (alter (SimpleLoop.setHeader nodeW) loop (LSG.objs g)) g in
          let g :=
            if decide (types st !! w = Some BB_IRREDUCIBLE)
            then LSG.set_objs
                   (alter (SimpleLoop.set_isReducible true) loop (LSG.objs g)) g
            else LSG.set_objs
                   (alter (SimpleLoop.set_isReducible false) loop (LSG.objs g)) g in
          let st := set_nodes (UnionFindNode.setLoop w loop (nodes st)) st in
          '(st, g) ← link_pool w loop nodePool st g;
          Ok (Next st, LSG.addLoop loop g)
        else Ok (Next st, g)
    end
end.

(** Step c: [for (w = size - 1; w >= 0; --w)], entered with [n = size]. *)
Fixpoint find_all (size : nat) (n : nat) (st : state) (g : LSG.t)
: outcome (flow state * LSG.t) :=
match n with
| O => Ok (Next st, g)
| S w =>
    '(r, g) ← find_loop size (Z.of_nat w) st g;
    match r with
    | Return v => Ok (Return v, g)
    | Next st => find_all size w st g
    end
end.

(** [findLoops()], for the finder constructed over [cfg] and [lsg]:
  the returned number and the loop structure graph it leaves. *)
Definition findLoops (bs : list BasicBlock.t) (cfg : CFG.t) (lsg : LSG.t)
: outcome (Z * LSG.t) :=
match CFG.startNode cfg with
| None => Ok (0, lsg)
| Some startNode =>
    let size := CFG.getNumNodes cfg in
    let st := init_state size in
    '(_, st) ← DFS (S (Z.to_nat size)) bs startNode st 0;
    st ← classify bs (seqZ 0 size) st;
    '(r, lsg) ← find_all (Z.to_nat size) (Z.to_nat size) st lsg;
    match r with
    | Return v => Ok (v, lsg)
    | Next _ => Ok (LSG.getNumLoops lsg, lsg)
    end
end.

End HavlakLoopFinder.

(** ** A driver: graphs built by a sequence of calls *)

(** One call of a client that builds a graph.  [NewEdge from to] stands
    for [new BasicBlockEdge(cfg, x, y)] where [x] and [y] are the blocks
    returned by the [from]-th and the [to]-th earlier [createNode] call. *)
Inductive call : Type :=
| CreateNode (name id : Z)
| NewEdge (from to : nat).

(** Runs the calls in order; [vars] collects the blocks returned by the
    [createNode] calls so far. *)
Fixpoint build (cs : list call) (vars : list nat) (wd : World) (cfg : CFG.t)
  : outcome (World * CFG.t) :=
  match cs with
  | [] => Ok (wd, cfg)
  | CreateNode name id :: cs' =>
      let '(node, wd, cfg) := CFG.createNode wd cfg name id in
      build cs' (vars ++ [node]) wd cfg
  | NewEdge from to :: cs' =>
      x ← deref (vars !! from);
      y ← deref (vars !! to);
      '(_, wd, cfg) ← BasicBlockEdge_new wd cfg x y;
      build cs' vars wd cfg
  end.

(** A client run: build the graph in the world [wd], run the finder over
    it with a fresh loop structure graph, and take the checksum.  The
    fuel of the checksum is the number of loop records, which bounds the
    depth of any acyclic nesting. *)
Definition analyse (wd : World) (cs : list call) : outcome (Z * Z) :=
  '(wd, cfg) ← build cs [] wd CFG.new;
  '(n, lsg) ← HavlakLoopFinder.findLoops (blocks wd) cfg LSG.new;
  c ← LSG.checksum (length (LSG.objs lsg)) (blocks wd) lsg;
  Ok (n, c).

(** The empty world: no block allocated yet. *)
Definition world0 : World := mkWorld [] 0.

(** A block is registered in a graph when some key of [basicBlockMap]
    maps to it. *)
Definition registered (cfg : CFG.t) (r : nat) : bool :=
  bool_decide (r ∈ (CFG.basicBlockMap cfg).*2).

(** * Predicates, invariants and worked graphs

    What the properties below are stated with. *)

(** ** Union-find nodes *)

(** The node [x] has a parent other than itself: what holds of every
    node that the walk of [findSet] collects. *)
Definition linked (nodes : gmap Z UnionFindNode.t) (x : Z) : Prop :=
  exists n p, nodes !! x = Some n /\ UnionFindNode.parent n = Some p /\ p ≠ x.

(** Three nodes chained 2 -> 1 -> 0, and the same after [findSet] on node
    2 has pointed it at the representative 0. *)
Definition uf_chain : gmap Z UnionFindNode.t :=
  list_to_map
    [(0, UnionFindNode.mk 0 (Some 0) (Some 0%nat) None);
     (1, UnionFindNode.mk 1 (Some 0) (Some 1%nat) None);
     (2, UnionFindNode.mk 2 (Some 1) (Some 2%nat) None)].


(** The parent chain of [x] ends, after [k] links, in the node [r],
    which is its own parent. *)
Inductive uf_path (nodes : gmap Z UnionFindNode.t) : Z -> Z -> nat -> Prop :=
| uf_path_root r n :
    nodes !! r = Some n -> UnionFindNode.parent n = Some r ->
    uf_path nodes r r 0
| uf_path_link x n p r k :
    nodes !! x = Some n -> UnionFindNode.parent n = Some p -> p ≠ x ->
    uf_path nodes p r k ->
    uf_path nodes x r (S k).

(** ** The bound on non-backedge predecessors *)


(** Two blocks, 0 and 1, with the edge 1 -> 0 and [n] parallel edges
    0 -> 1: block 1 enters the worklist of header 0 with [n] non-backedge
    predecessors. *)
Definition fan_blocks (n : nat) : list BasicBlock.t :=
  [BasicBlock.mk 0 0 [1%nat] (repeat 1%nat n);
   BasicBlock.mk 1 1 (repeat 0%nat n) [0%nat]].

Definition fan_cfg : CFG.t := CFG.mk [(0, 0%nat); (1, 1%nat)] [] (Some 0%nat).

(** The arrays after the numbering of that graph, and after step b; [l]
    is what step b leaves in [nonBackPreds[1]]. *)
Definition fan_numbered : HavlakLoopFinder.state :=
  HavlakLoopFinder.mkState
    (list_to_map [(0, []); (1, [])]) (list_to_map [(0, []); (1, [])])
    (list_to_map [(0, 0); (1, 1)]) (list_to_map [(0, 0); (1, 0)])
    (list_to_map [(0, HavlakLoopFinder.BB_NONHEADER); (1, HavlakLoopFinder.BB_NONHEADER)])
    (list_to_map [(0, 1); (1, 1)])
    (list_to_map [(0, UnionFindNode.mk 0 (Some 0) (Some 0%nat) None);
                  (1, UnionFindNode.mk 1 (Some 1) (Some 1%nat) None)]).

Definition fan_classified (l : list (option Z)) : HavlakLoopFinder.state :=
  HavlakLoopFinder.set_backPreds (list_to_map [(0, [1]); (1, [])])
    (HavlakLoopFinder.set_nonBackPreds (list_to_map [(0, []); (1, l)]) fan_numbered).

(** ** The invariant of step c *)

(** [findSet] and [union] rewrite parent links only, and only of nodes
    that already have one: a node is [reparented] when everything else
    about it stayed the same. *)
Definition reparented (a b : UnionFindNode.t) : Prop :=
  UnionFindNode.dfsNumber b = UnionFindNode.dfsNumber a /\
  UnionFindNode.bb b = UnionFindNode.bb a /\
  UnionFindNode.loop b = UnionFindNode.loop a /\
  (is_Some (UnionFindNode.parent a) <-> is_Some (UnionFindNode.parent b)).

Definition nodes_reparented (m m' : gmap Z UnionFindNode.t) : Prop :=
  forall n, option_Forall2 reparented (m !! n) (m' !! n).

(** The node at index [x] exists and has a parent link. *)
Definition has_parent (m : gmap Z UnionFindNode.t) (x : Z) : Prop :=
  exists n, m !! x = Some n /\ is_Some (UnionFindNode.parent n).

(** Parent links either stay at the node itself or lead to a node of
    index at least [b]: while step c works on header [w], no link leads
    to [w] or below, since only headers above [w] have been united
    into. *)
Definition links_above (b : Z) (m : gmap Z UnionFindNode.t) : Prop :=
  forall n nd p, m !! n = Some nd -> UnionFindNode.parent nd = Some p -> p = n \/ b <= p.

Section invariants.
Import HavlakLoopFinder.
Context (bs : list BasicBlock.t).

(** What holds of every union-find node once the numbering is done; [k]
    is the number of loop records allocated so far. *)
Definition shape_ok (k : nat) (m : gmap Z UnionFindNode.t) : Prop :=
  forall n nd, m !! n = Some nd ->
    (forall r, UnionFindNode.bb nd = Some r -> (r < length bs)%nat) /\
    (is_Some (UnionFindNode.parent nd) ->
       is_Some (UnionFindNode.bb nd) /\ UnionFindNode.dfsNumber nd = n) /\
    (forall l, UnionFindNode.loop nd = Some l -> (1 <= l < k)%nat).

(** The nodes of a pool: none is the header [w], each has a parent link. *)
Definition pool_ok (w : Z) (m : gmap Z UnionFindNode.t) (pool : list Z) : Prop :=
  Forall (fun x => x ≠ w /\ has_parent m x) pool.

(** The record that [new LSG()] makes for the root. *)
Definition root_record : SimpleLoop.t :=
  SimpleLoop.setNestingLevel 0 (SimpleLoop.new 0).

(** The loop record [l] at index [i] of a store of [k] records. *)
Definition loop_ok (k i : nat) (l : SimpleLoop.t) : Prop :=
  (forall p, SimpleLoop.parent l = Some p -> (i < p < k)%nat) /\
  Forall (fun c => (1 <= c < i)%nat) (SimpleLoop.children l) /\
  Forall (fun e => exists r, e = Some r /\ (r < length bs)%nat)
    (SimpleLoop.basicBlocks l) /\
  SimpleLoop.counter l = Z.of_nat i /\
  ((1 <= i)%nat ->
     exists h rest,
       SimpleLoop.header l = Some h /\ SimpleLoop.basicBlocks l = Some h :: rest).

Definition objs_ok (ls : list SimpleLoop.t) : Prop :=
  (forall i l, ls !! i = Some l -> loop_ok (length ls) i l) /\
  (forall i l p, ls !! i = Some l -> SimpleLoop.parent l = Some p ->
     exists lp, ls !! p = Some lp /\ i ∈ SimpleLoop.children lp) /\
  ls !! 0%nat = Some root_record.

(** What holds between the iterations of step c: [b] is the lowest
    header index worked on so far. *)
Definition stepc_inv (b : Z) (st : state) (g : LSG.t) : Prop :=
  objs_ok (LSG.objs g) /\
  shape_ok (length (LSG.objs g)) (nodes st) /\
  links_above b (nodes st) /\
  LSG.loops g = seq 0 (length (LSG.objs g)) /\
  LSG.root g = 0%nat /\
  LSG.loopCounter g = Z.of_nat (length (LSG.objs g)).

(** The union-find nodes between the numbering and step c. *)
Definition fresh_ok (m : gmap Z UnionFindNode.t) : Prop :=
  forall n nd, m !! n = Some nd ->
    (forall r, UnionFindNode.bb nd = Some r -> (r < length bs)%nat) /\
    (is_Some (UnionFindNode.parent nd) ->
       is_Some (UnionFindNode.bb nd) /\ UnionFindNode.dfsNumber nd = n) /\
    UnionFindNode.loop nd = None /\
    (forall p, UnionFindNode.parent nd = Some p -> p = n).

End invariants.

(** ** Checksums *)

(** The per-loop checksum in the words of the specification: the serial
    id, then the two flags, the two levels, the key of the header if
    there is one, the keys of the member blocks, and the checksums of
    the child loops. *)
Definition spec_loop_checksum (serial : Z) (isRoot isReducible : bool)
    (nestingLevel depthLevel : Z) (header : option Z) (members children : list Z) : Z :=
  let acc := serial in
  let acc := mix acc (if isRoot then 1 else 0) in
  let acc := mix acc (if isReducible then 1 else 0) in
  let acc := mix acc nestingLevel in
  let acc := mix acc depthLevel in
  let acc := match header with Some h => mix acc h | None => acc end in
  let acc := fold_left mix members acc in
  fold_left mix children acc.

(** The forest checksum in the words of the specification, over the
    per-loop checksums [sums] in storage order. *)
Definition spec_forest_checksum (sums : list Z) (root_sum : Z) : Z :=
  mix (fold_left mix sums (Z.of_nat (length sums))) root_sum.

(** The block stored as [e] exists, and [havlak.ts] reads the key [k]
    from its [name]. *)
Definition block_key (bs : list BasicBlock.t) (e : option nat) (k : Z) : Prop :=
  exists r b, e = Some r /\ bs !! r = Some b /\ BasicBlock.name b = k.

(** ** Worked graphs *)

(** The graph with the single block A, registered as [createNode(0, 0)],
    and the single edge A -> A. *)
Definition self_loop_calls : list call := [CreateNode 0 0; NewEdge 0 0].

Definition self_loop_world : World :=
  mkWorld [BasicBlock.mk 0 0 [0%nat] [0%nat]] 1.

Definition self_loop_cfg : CFG.t :=
  CFG.mk [(0, 0%nat)] [mkEdge 0 0] (Some 0%nat).

(** The loop record that [findLoops] creates for it. *)
Definition self_loop_record : SimpleLoop.t :=
  SimpleLoop.mk [Some 0%nat] [] 1 None (Some 0%nat) false false 0 0.

Definition self_loop_lsg : LSG.t :=
  LSG.mk [root_record; self_loop_record] 2 [0%nat; 1%nat] 0%nat.

(** A loop record whose header block has [name = 7] and [id = 0]. *)
Definition named_blocks : list BasicBlock.t := [BasicBlock.mk 7 0 [] []].

Definition named_loop : SimpleLoop.t :=
  SimpleLoop.mk [Some 0%nat] [] 1 None (Some 0%nat) false true 0 0.

(** ** The loop forest *)

(** Following the parent links from the loop [i], for at most [fuel]
    links: the loop without parent that they end in. *)
Fixpoint top_loop (fuel : nat) (ls : list SimpleLoop.t) (i : nat) : option nat :=
  match fuel with
  | O => None
  | S fuel' =>
      match ls !! i with
      | None => None
      | Some l =>
          match SimpleLoop.parent l with
          | None => Some i
          | Some p => top_loop fuel' ls p
          end
      end
  end.

(** [d] is a child of [a], or a child of a child, and so on. *)
Inductive descendant (ls : list SimpleLoop.t) : nat -> nat -> Prop :=
| descendant_child a l c :
    ls !! a = Some l -> c ∈ SimpleLoop.children l -> descendant ls a c
| descendant_deeper a l c d :
    ls !! a = Some l -> c ∈ SimpleLoop.children l -> descendant ls c d ->
    descendant ls a d.

(** ** The numbering pass *)

(** [x] can be reached from [r] along out-edges. *)
Inductive reachable (bs : list BasicBlock.t) (r : nat) : nat -> Prop :=
| reachable_here : reachable bs r r
| reachable_edge x b e :
    reachable bs r x -> bs !! x = Some b -> e ∈ BasicBlock.outEdges b ->
    reachable bs r e.

(** The numbering pass in the words of the specification.  A traversal
    is logged as the list of the blocks it visits, in the order of their
    first visit, each with the number of blocks of its subtree.
    [dfs_visit bs V r log] is the depth-first traversal from [r] when
    the blocks [V] have been visited before; [dfs_targets bs V es log]
    goes through the out-edges [es] in their stored order and skips the
    targets visited by then. *)
Inductive dfs_visit (bs : list BasicBlock.t)
  : list nat -> nat -> list (nat * nat) -> Prop :=
| dfs_visit_block V r b kids :
    bs !! r = Some b ->
    dfs_targets bs (V ++ [r]) (BasicBlock.outEdges b) kids ->
    dfs_visit bs V r ((r, S (length kids)) :: kids)
with dfs_targets (bs : list BasicBlock.t)
  : list nat -> list nat -> list (nat * nat) -> Prop :=
| dfs_targets_done V :
    dfs_targets bs V [] []
| dfs_targets_seen V e es log :
    e ∈ V ->
    dfs_targets bs V es log ->
    dfs_targets bs V (e :: es) log
| dfs_targets_new V e es log1 log2 :
    e ∉ V ->
    dfs_visit bs V e log1 ->
    dfs_targets bs (V ++ log1.*1) es log2 ->
    dfs_targets bs V (e :: es) (log1 ++ log2).

Scheme dfs_visit_mut := Minimality for dfs_visit Sort Prop
  with dfs_targets_mut := Minimality for dfs_targets Sort Prop.
Combined Scheme dfs_mutind from dfs_visit_mut, dfs_targets_mut.

(** The keys that the numbering needs: every block that can be reached
    from the start block exists, carries a name in [0, size), and shares
    it with no other such block. *)
Definition keys_ok (bs : list BasicBlock.t) (size : Z) (s : nat) : Prop :=
  forall x, reachable bs s x ->
    exists b, bs !! x = Some b /\
      0 <= BasicBlock.name b < size /\
      forall y b', reachable bs s y -> bs !! y = Some b' ->
        BasicBlock.name b' = BasicBlock.name b -> y = x.

Section numbering.
Import HavlakLoopFinder.
Context (bs : list BasicBlock.t) (size : Z) (s : nat).

(** The arrays of [findLoops] when the blocks [V] have been visited, in
    this order, and numbered from 0. *)
Definition numbered (V : list nat) (st : state) : Prop :=
  (forall x, x ∈ V -> reachable bs s x) /\
  NoDup V /\
  (forall i x, V !! i = Some x ->
     exists b, bs !! x = Some b /\
       numbers st !! BasicBlock.name b = Some (Z.of_nat i) /\
       nodes st !! Z.of_nat i
         = Some (UnionFindNode.mk (Z.of_nat i) (Some (Z.of_nat i)) (Some x) None)) /\
  (forall k v, numbers st !! k = Some v ->
     v = UNVISITED \/
     exists i x b, v = Z.of_nat i /\ V !! i = Some x /\ bs !! x = Some b /\
       BasicBlock.name b = k) /\
  (forall k, 0 <= k < size -> is_Some (numbers st !! k)) /\
  (forall i, 0 <= i < size ->
     exists nd, nodes st !! i = Some nd /\ UnionFindNode.loop nd = None).

(** The [last] array over the part [log] of a traversal whose first
    block has the number [c]. *)
Definition spans_ok (c : nat) (log : list (nat * nat)) (st : state) : Prop :=
  forall i x m, log !! i = Some (x, m) ->
    last st !! Z.of_nat (c + i) = Some (Z.of_nat (c + i + m) - 1).

(** [last] is left alone outside the numbers [c, c + n). *)
Definition last_frame (c n : nat) (st st' : state) : Prop :=
  forall j, j < Z.of_nat c \/ Z.of_nat (c + n) <= j -> last st' !! j = last st !! j.

(** What a call returns that starts when [V] has been visited and logs
    [log]: the number of the last block logged, and the arrays for
    [V ++ log]. *)
Definition visit_post (V : list nat) (st : state) (log : list (nat * nat))
    (res : outcome (Z * state)) : Prop :=
  exists st',
    res = Ok (Z.of_nat (length V + length log) - 1, st') /\
    numbered (V ++ log.*1) st' /\
    spans_ok (length V) log st' /\
    last_frame (length V) (length log) st st'.

End numbering.

(** A store in which the block at index [r] is named [r] and every
    out-edge leads to a block of the store. *)
Definition dense (bs : list BasicBlock.t) : bool :=
  forallb (fun '(r, b) =>
             (BasicBlock.name b =? Z.of_nat r) &&
             forallb (fun e => e <? length bs)%nat (BasicBlock.outEdges b))
    (imap pair bs).

(** Four blocks 0 -> 1 -> 2 -> 3 with the back edges 2 -> 1 and 3 -> 0:
    a loop nested in a loop. *)
Definition nested_blocks : list BasicBlock.t :=
  [BasicBlock.mk 0 0 [3%nat] [1%nat];
   BasicBlock.mk 1 1 [0%nat; 2%nat] [2%nat];
   BasicBlock.mk 2 2 [1%nat] [3%nat; 1%nat];
   BasicBlock.mk 3 3 [2%nat] [0%nat]].

Definition nested_cfg : CFG.t :=
  CFG.mk [(0, 0%nat); (1, 1%nat); (2, 2%nat); (3, 3%nat)]
    [mkEdge 0 1; mkEdge 1 2; mkEdge 2 3; mkEdge 2 1; mkEdge 3 0] (Some 0%nat).

(** Two blocks registered as [createNode(0, 0)] and [createNode(5, 5)],
    with the edge from the first to the second. *)
Definition sparse_calls : list call := [CreateNode 0 0; CreateNode 5 5; NewEdge 0 1].

Definition sparse_world : World :=
  mkWorld [BasicBlock.mk 0 0 [] [1%nat]; BasicBlock.mk 5 5 [0%nat] []] 2.

Definition sparse_cfg : CFG.t :=
  CFG.mk [(0, 0%nat); (5, 1%nat)] [mkEdge 0 1] (Some 0%nat).

(** ** Moving a graph within the block store *)

Global Instance outcome_fmap : FMap outcome := fun A B f r =>
  match r with
  | Ok a => Ok (f a)
  | TypeError => TypeError
  | OutOfFuel => OutOfFuel
  end.

(** The same graph with every block reference moved up by [k], as when
    it is built after [k] other blocks have been allocated. *)
Definition move_block (k : nat) (b : BasicBlock.t) : BasicBlock.t :=
  BasicBlock.mk (BasicBlock.name b) (BasicBlock.id b)
    (Nat.add k <$> BasicBlock.inEdges b) (Nat.add k <$> BasicBlock.outEdges b).

Definition move_node (k : nat) (nd : UnionFindNode.t) : UnionFindNode.t :=
  UnionFindNode.mk (UnionFindNode.dfsNumber nd) (UnionFindNode.parent nd)
    (Nat.add k <$> UnionFindNode.bb nd) (UnionFindNode.loop nd).

Definition move_nodes (k : nat) (m : gmap Z UnionFindNode.t) : gmap Z UnionFindNode.t :=
  move_node k <$> m.

Definition move_state (k : nat) (st : HavlakLoopFinder.state) : HavlakLoopFinder.state :=
  HavlakLoopFinder.set_nodes (move_nodes k (HavlakLoopFinder.nodes st)) st.

Definition move_loop (k : nat) (l : SimpleLoop.t) : SimpleLoop.t :=
  SimpleLoop.mk (fmap (M := option) (Nat.add k) <$> SimpleLoop.basicBlocks l)
    (SimpleLoop.children l)
    (SimpleLoop.counter l) (SimpleLoop.parent l) (Nat.add k <$> SimpleLoop.header l)
    (SimpleLoop.isRoot l) (SimpleLoop.isReducible l) (SimpleLoop.nestingLevel l)
    (SimpleLoop.depthLevel l).

Definition move_lsg (k : nat) (g : LSG.t) : LSG.t :=
  LSG.set_objs (move_loop k <$> LSG.objs g) g.

Definition move_edge (k : nat) (e : BasicBlockEdge) : BasicBlockEdge :=
  mkEdge (k + from e) (k + to e).

Definition move_cfg (k : nat) (cfg : CFG.t) : CFG.t :=
  CFG.mk (prod_map id (Nat.add k) <$> CFG.basicBlockMap cfg)
    (move_edge k <$> CFG.edgeList cfg) (Nat.add k <$> CFG.startNode cfg).

(** The store [bs] holds, [k] places up, the moved blocks of [bs0]. *)
Definition moved (k : nat) (bs0 bs : list BasicBlock.t) : Prop :=
  forall r, bs !! (k + r)%nat = move_block k <$> bs0 !! r.

Definition flow_map {A B : Type} (f : A -> B) (r : HavlakLoopFinder.flow A)
  : HavlakLoopFinder.flow B :=
  match r with
  | HavlakLoopFinder.Next a => HavlakLoopFinder.Next (f a)
  | HavlakLoopFinder.Return v => HavlakLoopFinder.Return v
  end.

(** The world that already holds the blocks [pre] (and whose static
    counter is [d] ahead) when the blocks of [wd] are allocated. *)
Definition move_world (pre : list BasicBlock.t) (d : Z) (wd : World) : World :=
  mkWorld (pre ++ (move_block (length pre) <$> blocks wd)) (d + numBasicBlocks wd).
(** ** Graphs built by a sequence of calls *)

(** [BasicBlock.getNumBasicBlocks()] *)
Definition BasicBlock_getNumBasicBlocks (wd : World) : Z := numBasicBlocks wd.

(** The [(name, id)] arguments of the [createNode] calls, in call order. *)
Definition created (cs : list call) : list (Z * Z) :=
  omap (fun c => match c with CreateNode name id => Some (name, id) | _ => None end) cs.

(** The name given by the first [createNode] call for [id]. *)
Fixpoint first_name (cs : list call) (id : Z) : option Z :=
  match cs with
  | [] => None
  | CreateNode name i :: cs' => if decide (i = id) then Some name else first_name cs' id
  | NewEdge _ _ :: cs' => first_name cs' id
  end.

(** The edges asked for by the [NewEdge] calls, in call order, between
    the blocks that [vars] holds. *)
Definition edge_calls (vars : list nat) (cs : list call) : list BasicBlockEdge :=
  omap (fun c =>
          match c with
          | NewEdge x y => x' ← vars !! x; y' ← vars !! y; Some (mkEdge x' y')
          | _ => None
          end) cs.

Definition is_NewEdge (c : call) : bool :=
  match c with NewEdge _ _ => true | CreateNode _ _ => false end.

(** The targets of the edges of [es] that leave [r], and the sources of
    those that enter [r], in the order of [es]. *)
Definition edges_from (es : list BasicBlockEdge) (r : nat) : list nat :=
  to <$> filter (fun e => from e = r) es.

Definition edges_to (es : list BasicBlockEdge) (r : nat) : list nat :=
  from <$> filter (fun e => to e = r) es.

(** What holds of the world [wd] and the graph [cfg] when the calls
    [done] have been run from an empty graph in the world [wd0], [vars]
    being the blocks that the [createNode] calls returned. *)
Record built (wd0 : World) (done : list call) (vars : list nat)
    (wd : World) (cfg : CFG.t) : Prop := {
  built_keys : NoDup (CFG.basicBlockMap cfg).*1;
  built_refs :
    (CFG.basicBlockMap cfg).*2
    = seq (length (blocks wd0)) (length (CFG.basicBlockMap cfg));
  built_length :
    length (blocks wd) = (length (blocks wd0) + length (CFG.basicBlockMap cfg))%nat;
  built_old : take (length (blocks wd0)) (blocks wd) = blocks wd0;
  built_counter :
    numBasicBlocks wd = numBasicBlocks wd0 + Z.of_nat (length (CFG.basicBlockMap cfg));
  built_start : CFG.startNode cfg = head (CFG.basicBlockMap cfg).*2;
  built_block :
    forall id r, (id, r) ∈ CFG.basicBlockMap cfg ->
      exists b, blocks wd !! r = Some b /\ BasicBlock.id b = id /\
        first_name done id = Some (BasicBlock.name b);
  built_ids :
    forall id, id ∈ (CFG.basicBlockMap cfg).*1 <-> id ∈ (created done).*2;
  built_first : head (CFG.basicBlockMap cfg).*1 = head (created done).*2;
  built_vars :
    Forall2 (fun r c => CFG.map_get (CFG.basicBlockMap cfg) c.2 = Some r)
      vars (created done);
  built_edgeList : CFG.edgeList cfg = edge_calls vars done;
  built_defined :
    forall x y, NewEdge x y ∈ done -> (x < length vars)%nat /\ (y < length vars)%nat;
  built_adjacent :
    forall r b, (length (blocks wd0) <= r)%nat -> blocks wd !! r = Some b ->
      BasicBlock.outEdges b = edges_from (CFG.edgeList cfg) r /\
      BasicBlock.inEdges b = edges_to (CFG.edgeList cfg) r
}.

(** Every [NewEdge] call names two earlier [createNode] calls; [n] is the
    number of [createNode] calls made so far. *)
Fixpoint well_scoped (n : nat) (cs : list call) : bool :=
  match cs with
  | [] => true
  | CreateNode _ _ :: cs' => well_scoped (S n) cs'
  | NewEdge x y :: cs' => (x <? n)%nat && (y <? n)%nat && well_scoped n cs'
  end.

(** Two nodes, the second asked for twice under different names, and
    three edges, two of them parallel. *)
Definition sample_calls : list call :=
  [CreateNode 10 0; CreateNode 11 1; CreateNode 12 1;
   NewEdge 0 1; NewEdge 2 0; NewEdge 0 1].

Definition sample_world : World :=
  mkWorld [BasicBlock.mk 10 0 [1%nat] [1%nat; 1%nat];
           BasicBlock.mk 11 1 [0%nat; 0%nat] [0%nat]] 2.

Definition sample_cfg : CFG.t :=
  CFG.mk [(0, 0%nat); (1, 1%nat)] [mkEdge 0 1; mkEdge 1 0; mkEdge 0 1] (Some 0%nat).

(** The chain 2 -> 1 -> 0 next to a fourth node that is its own root. *)
Definition uf_forest : gmap Z UnionFindNode.t :=
  <[3 := UnionFindNode.mk 3 (Some 3) (Some 3%nat) None]> uf_chain.

(** ** Graphs without cycles *)

(** The in-edge lists mirror the out-edge lists: a block listed among
    the in-edges of [r] exists and lists [r] among its out-edges, as is
    the case for graphs made by edge construction. *)
Definition in_edges_mirrored (bs : list BasicBlock.t) : Prop :=
  forall r b e, bs !! r = Some b -> e ∈ BasicBlock.inEdges b ->
    exists be, bs !! e = Some be /\ r ∈ BasicBlock.outEdges be.

(** [rank] is a topological order of the graph: it grows along every
    edge. *)
Definition ranked (rank : nat -> nat) (bs : list BasicBlock.t) : Prop :=
  forall r b e, bs !! r = Some b -> e ∈ BasicBlock.outEdges b -> (rank r < rank e)%nat.

(** A diamond: 0 -> 1, 0 -> 2, 1 -> 3, 2 -> 3. *)
Definition diamond_blocks : list BasicBlock.t :=
  [BasicBlock.mk 0 0 [] [1%nat; 2%nat];
   BasicBlock.mk 1 1 [0%nat] [3%nat];
   BasicBlock.mk 2 2 [0%nat] [3%nat];
   BasicBlock.mk 3 3 [1%nat; 2%nat] []].

Definition diamond_cfg : CFG.t :=
  CFG.mk [(0, 0%nat); (1, 1%nat); (2, 2%nat); (3, 3%nat)]
    [mkEdge 0 1; mkEdge 0 2; mkEdge 1 3; mkEdge 2 3] (Some 0%nat).

(** ** The run of the loop finder *)

(** The in-edge lists name existing blocks. *)
Definition in_edges_valid (bs : list BasicBlock.t) : Prop :=
  forall r b e, bs !! r = Some b -> e ∈ BasicBlock.inEdges b -> (e < length bs)%nat.

(** The union-find nodes below [N] are initialised: the node [i] holds
    the block [B i], carries its index as [dfsNumber], and has its
    parent link at or below itself, at a node whose span in [L], the
    [last] array, contains [i]; if it has a loop, the header of that
    loop, as listed in [hds], is its block. *)
Definition linked_down (B : Z -> option nat) (L : gmap Z Z)
    (hds : list (option nat)) (N : Z) (m : gmap Z UnionFindNode.t) : Prop :=
  forall i, 0 <= i < N ->
    exists nd p, m !! i = Some nd /\ UnionFindNode.dfsNumber nd = i /\
      UnionFindNode.parent nd = Some p /\ 0 <= p <= i /\
      UnionFindNode.bb nd = B i /\ is_Some (B i) /\
      HavlakLoopFinder.isAncestor p (Some i) L = true /\
      forall l, UnionFindNode.loop nd = Some l -> hds !! l = Some (B i).

(** The node [x] joins the loop of the header [w]: it lies in the span
    of [w] and is related to [w] by [R], which stands for "the block of
    the one can reach the block of the other". *)
Definition joins (L : gmap Z Z) (R : Z -> Z -> Prop) (w x : Z) : Prop :=
  HavlakLoopFinder.isAncestor w (Some x) L = true /\ R x w.

(** The predecessor lists hold what they should: a back predecessor of
    [w] joins the loop of [w], and a non-back predecessor of [x] is
    related to [x]. *)
Definition preds_sound (L : gmap Z Z) (R : Z -> Z -> Prop)
    (st : HavlakLoopFinder.state) : Prop :=
  HavlakLoopFinder.last st = L /\
  (forall w l, HavlakLoopFinder.backPreds st !! w = Some l -> Forall (joins L R w) l) /\
  (forall x l, HavlakLoopFinder.nonBackPreds st !! x = Some l ->
     Forall (fun v => forall y, v = Some y -> R y x) l).

(** The predecessor lists exist for every index below [size]; a back
    predecessor of [w] is a number from [w] up, below [N], and a
    non-back predecessor is a number below [N]. *)
Definition preds_ok (N size : Z) (st : HavlakLoopFinder.state) : Prop :=
  (forall w, 0 <= w < size ->
     exists l, HavlakLoopFinder.backPreds st !! w = Some l /\
       Forall (fun v => w <= v < N) l) /\
  (forall w, 0 <= w < size ->
     exists l, HavlakLoopFinder.nonBackPreds st !! w = Some l /\
       Forall (fun v => exists z, v = Some z /\ 0 <= z < N) l).

(** What the union-find nodes must be for step c to run, [N] of them
    being numbered. *)
Definition nodes_ok (B : Z -> option nat) (L : gmap Z Z)
    (hds : list (option nat)) (N size : Z) (m : gmap Z UnionFindNode.t) : Prop :=
  linked_down B L hds N m /\ forall i, 0 <= i < size -> is_Some (m !! i).

(** The members of a pool of header [w]. *)
Definition in_pool (L : gmap Z Z) (R : Z -> Z -> Prop) (w N : Z) (pool : list Z)
  : Prop :=
  Forall (fun x => w < x < N /\ joins L R w x) pool.

(** What the loop records hold of blocks: the header and the members. *)
Definition loop_blocks (l : SimpleLoop.t) : option nat * list (option nat) :=
  (SimpleLoop.header l, SimpleLoop.basicBlocks l).

(** The loop records [ls'] are the records [ls] with members added to
    the record [loop], each of them satisfying [P], and with [loop] made
    the parent of records whose header satisfies [P]. *)
Definition grown (P : option nat -> Prop) (loop : nat)
    (ls ls' : list SimpleLoop.t) : Prop :=
  length ls' = length ls /\
  forall i l, ls !! i = Some l ->
    exists l' extra, ls' !! i = Some l' /\
      SimpleLoop.header l' = SimpleLoop.header l /\
      SimpleLoop.basicBlocks l' = SimpleLoop.basicBlocks l ++ extra /\
      (i ≠ loop -> extra = []) /\ Forall P extra /\
      (SimpleLoop.parent l' = SimpleLoop.parent l \/
       SimpleLoop.parent l' = Some loop /\ P (SimpleLoop.header l)).

(** The loop made for the header [w]: its header block is [B w], which
    is also its first member, and the members after it are blocks of
    nodes that join the loop of [w]. *)
Definition loop_of (B : Z -> option nat) (L : gmap Z Z) (R : Z -> Z -> Prop)
    (w : Z) (hb : option nat * list (option nat)) : Prop :=
  exists ms, hb = (B w, B w :: ms) /\
    Forall (fun e => exists x, e = B x /\ joins L R w x) ms.

(** Between the loop records [ls] and [ls'], a record has the parent
    it had, or as its parent a loop made for some header [w], which its
    own header joins. *)
Definition adopted (B : Z -> option nat) (L : gmap Z Z) (R : Z -> Z -> Prop)
    (N : Z) (ls ls' : list SimpleLoop.t) : Prop :=
  forall c rec' p, ls' !! c = Some rec' -> SimpleLoop.parent rec' = Some p ->
    (exists rec, ls !! c = Some rec /\ SimpleLoop.parent rec = Some p) \/
    (exists w x hb, 0 <= w < N /\ (loop_blocks <$> ls') !! p = Some hb /\
       loop_of B L R w hb /\ SimpleLoop.header rec' = B x /\ joins L R w x).

(** The number of indices below [size] that are not in [pool]. *)
Definition room (size : Z) (pool : list Z) : nat :=
  length (filter (fun z => z ∉ pool) (seqZ 0 size)).

(** ** Graphs with a cycle *)

(** The out-edge lists are mirrored by the in-edge lists: the target of
    an out-edge of [x] lists [x] among its in-edges, as is the case for
    graphs made by edge construction. *)
Definition out_edges_mirrored (bs : list BasicBlock.t) : Prop :=
  forall x b e be, bs !! x = Some b -> e ∈ BasicBlock.outEdges b ->
    bs !! e = Some be -> x ∈ BasicBlock.inEdges be.

(** [x] lies on a cycle: one of its out-edges leads to a block from
    which [x] can be reached. *)
Definition on_cycle (bs : list BasicBlock.t) (x : nat) : Prop :=
  exists b e, bs !! x = Some b /\ e ∈ BasicBlock.outEdges b /\ reachable bs e x.

(** The number [z] is filed among the back predecessors of [w]. *)
Definition filed (st : HavlakLoopFinder.state) (w z : Z) : Prop :=
  exists l, HavlakLoopFinder.backPreds st !! w = Some l /\ z ∈ l.

(** Step b has reason to file [z] under [w]: an in-edge of the block
    numbered [w] comes from a block numbered [z], and [z] lies within
    the subtree of [w]. *)
Definition back_edge (bs : list BasicBlock.t) (st : HavlakLoopFinder.state)
    (w z : Z) : Prop :=
  exists nd r b e vb,
    HavlakLoopFinder.nodes st !! w = Some nd /\ UnionFindNode.bb nd = Some r /\
    bs !! r = Some b /\ e ∈ BasicBlock.inEdges b /\ bs !! e = Some vb /\
    HavlakLoopFinder.numbers st !! BasicBlock.name vb = Some z /\
    z ≠ HavlakLoopFinder.UNVISITED /\
    HavlakLoopFinder.isAncestor w (Some z) (HavlakLoopFinder.last st) = true.

(** The entry [v] is filed among the non-back predecessors of [w]. *)
Definition filed_non (st : HavlakLoopFinder.state) (w : Z) (v : option Z) : Prop :=
  exists l, HavlakLoopFinder.nonBackPreds st !! w = Some l /\ v ∈ l.

(** Step b has reason to file [v] under [w], one way or the other: an
    in-edge of the block numbered [w] comes from a block whose entry in
    [numbers] is [v], and [v] is not [UNVISITED]. *)
Definition pred_edge (bs : list BasicBlock.t) (st : HavlakLoopFinder.state)
    (w : Z) (v : option Z) : Prop :=
  exists nd r b e vb,
    HavlakLoopFinder.nodes st !! w = Some nd /\ UnionFindNode.bb nd = Some r /\
    bs !! r = Some b /\ e ∈ BasicBlock.inEdges b /\ bs !! e = Some vb /\
    v = HavlakLoopFinder.numbers st !! BasicBlock.name vb /\
    v ≠ Some HavlakLoopFinder.UNVISITED.

(** The block numbered [a] can reach the block numbered [b]; [V] lists
    the blocks in the order of their numbers. *)
Definition reaches (bs : list BasicBlock.t) (V : list nat) (a b : Z) : Prop :=
  exists ta tb, V !! Z.to_nat a = Some ta /\ V !! Z.to_nat b = Some tb /\
    reachable bs ta tb.

(** The loops of the nested graph: the inner loop of the blocks 1 and
    2, and the outer loop of the blocks 0 and 3 around it. *)
Definition nested_inner : SimpleLoop.t :=
  SimpleLoop.mk [Some 1%nat; Some 2%nat] [] 1 (Some 2%nat) (Some 1%nat) false false 0 0.

Definition nested_outer : SimpleLoop.t :=
  SimpleLoop.mk [Some 0%nat; Some 3%nat] [1%nat] 2 None (Some 0%nat) false false 0 0.

Definition nested_lsg : LSG.t :=
  LSG.mk [root_record; nested_inner; nested_outer] 3 [0%nat; 1%nat; 2%nat] 0%nat.

(** ** Client runs *)

(** The calls of a client that numbers its blocks as it makes them:
    the [createNode] call number [n], counted from 0, is
    [createNode(n, n)], and every edge joins two blocks made before
    it. *)
Fixpoint in_order (n : nat) (cs : list call) : bool :=
  match cs with
  | [] => true
  | CreateNode name id :: cs' =>
      (name =? Z.of_nat n) && (id =? Z.of_nat n) && in_order (S n) cs'
  | NewEdge x y :: cs' => (x <? n)%nat && (y <? n)%nat && in_order n cs'
  end.

(** What such a client has built after [j] blocks, starting in the
    empty world: the block [i] is stored at index [i] and named [i],
    and its edge lists name blocks of the store. *)
Definition tidy (j : nat) (vars : list nat) (wd : World) (cfg : CFG.t) : Prop :=
  vars = seq 0 j /\
  CFG.basicBlockMap cfg = (fun i => (Z.of_nat i, i)) <$> seq 0 j /\
  length (blocks wd) = j /\
  CFG.startNode cfg = match j with O => None | S _ => Some 0%nat end /\
  forall r b, blocks wd !! r = Some b ->
    BasicBlock.name b = Z.of_nat r /\
    Forall (fun e => (e < j)%nat) (BasicBlock.outEdges b) /\
    Forall (fun e => (e < j)%nat) (BasicBlock.inEdges b).

(** * Properties *)

(** ** Edge construction (cfg.ts) *)

Lemma update_block_ok wd r f :
  (r < length (blocks wd))%nat ->
  exists b, blocks wd !! r = Some b /\
    update_block wd r f = Ok (mkWorld (<[r := f b]> (blocks wd)) (numBasicBlocks wd)).
Proof.
  intros Hr. destruct (lookup_lt_is_Some_2 _ _ Hr) as [b Hb].
  exists b. split; [done|]. unfold update_block. by rewrite Hb.
Qed.

(** C8 (as the code has it): the constructor of [BasicBlockEdge] checks
    nothing.  For any two existing blocks, registered in the graph or
    not, it returns the edge, having pushed [to] onto the out-edges of
    [from], then [from] onto the in-edges of [to], then the edge onto the
    edge list; the block map and the start node are left alone. *)
Theorem edge_construction_unchecked (wd : World) (cfg : CFG.t) (from to : nat) :
  (from < length (blocks wd))%nat ->
  (to < length (blocks wd))%nat ->
  exists wd',
    BasicBlockEdge_new wd cfg from to
      = Ok (mkEdge from to, wd', CFG.addEdge cfg (mkEdge from to)) /\
    blocks wd' =
      alter (BasicBlock.addInEdge from) to
        (alter (BasicBlock.addOutEdge to) from (blocks wd)) /\
    numBasicBlocks wd' = numBasicBlocks wd.
Proof.
  intros Hf Ht. unfold BasicBlockEdge_new.
  destruct (update_block_ok wd from (BasicBlock.addOutEdge to) Hf) as (b & Hb & ->).
  cbn [mbind outcome_bind].
  set (wd1 := mkWorld _ _).
  assert (Ht1 : (to < length (blocks wd1))%nat) by (subst wd1; cbn; by rewrite length_insert).
  destruct (update_block_ok wd1 to (BasicBlock.addInEdge from) Ht1) as (b' & Hb' & ->).
  cbn [mbind outcome_bind]. eexists. split; [reflexivity|]. cbn. split; [|done].
  subst wd1. cbn in *.
  apply list_eq. intros i. rewrite list_lookup_insert in Hb'.
  rewrite !list_lookup_alter, !list_lookup_insert, length_insert.
  repeat case_decide; simplify_eq/=; rewrite ?Hb, ?Hb'; cbn; try done; try lia;
    destruct_and?; simplify_eq; try done; try lia.
Qed.

(** C8 (as stated) fails: a block made by [new BasicBlock] and never
    registered in the graph is accepted as the source of an edge. *)
Lemma edge_from_unregistered_block_accepted :
  let '(x, wd) := BasicBlock_new world0 7 7 in
  let '(y, wd, cfg) := CFG.createNode wd CFG.new 0 0 in
  registered cfg x = false /\
  BasicBlockEdge_new wd cfg x y
    = Ok (mkEdge 0 1,
          mkWorld [BasicBlock.mk 7 7 [] [1%nat]; BasicBlock.mk 0 0 [0%nat] []] 2,
          CFG.mk [(0, 1%nat)] [mkEdge 0 1] (Some 1%nat)).
Proof. split; reflexivity. Qed.

Lemma edge_construction_unchecked_witness :
  exists wd',
    BasicBlockEdge_new
      (mkWorld [BasicBlock.mk 7 7 [] []; BasicBlock.mk 0 0 [] []] 2)
      (CFG.mk [(0, 1%nat)] [] (Some 1%nat)) 0 1
      = Ok (mkEdge 0 1, wd', CFG.addEdge (CFG.mk [(0, 1%nat)] [] (Some 1%nat)) (mkEdge 0 1)) /\
    blocks wd' =
      alter (BasicBlock.addInEdge 0) 1%nat
        (alter (BasicBlock.addOutEdge 1) 0%nat
           [BasicBlock.mk 7 7 [] []; BasicBlock.mk 0 0 [] []]) /\
    numBasicBlocks wd' = 2.
Proof.
  apply (edge_construction_unchecked
           (mkWorld [BasicBlock.mk 7 7 [] []; BasicBlock.mk 0 0 [] []] 2)
           (CFG.mk [(0, 1%nat)] [] (Some 1%nat)) 0 1); cbn; lia.
Defined.

(** ** Outcomes *)

Lemma bind_Ok {A B : Type} (r : outcome A) (k : A -> outcome B) (b : B) :
  r ≫= k = Ok b -> exists a, r = Ok a /\ k a = Ok b.
Proof. destruct r; cbn; [eauto | done | done]. Qed.

Lemma deref_Ok {A : Type} (o : option A) (a : A) : deref o = Ok a <-> o = Some a.
Proof. destruct o; cbn; split; congruence. Qed.

(** Splits a hypothesis [... = Ok _] along the binds of its left side. *)
Ltac ok_inv :=
  repeat match goal with
  | H : _ ≫= _ = Ok _ |- _ =>
      let a := fresh "a" in let E := fresh "E" in
      apply bind_Ok in H as (a & E & H)
  | H : deref _ = Ok _ |- _ => apply deref_Ok in H
  | H : Ok _ = Ok _ |- _ => injection H as H
  | H : TypeError = Ok _ |- _ => discriminate H
  | H : OutOfFuel = Ok _ |- _ => discriminate H
  | H : (let '(_, _) := ?p in _) = Ok _ |- _ => destruct p
  | x : (_ * _)%type |- _ => destruct x
  end.

(** ** Union-find nodes *)

Section find_set.
Import UnionFindNode.

Lemma findSet_walk_root fuel (nodes : gmap Z t) node nodeList r nodeList' :
  findSet_walk fuel nodes node nodeList = Ok (r, nodeList') ->
  Forall (linked nodes) nodeList ->
  (exists n, nodes !! r = Some n /\ parent n = Some r) /\
  Forall (linked nodes) nodeList'.
Proof.
  revert node nodeList. induction fuel as [|fuel IH]; intros node nodeList; [done|].
  cbn. intros H Hl. ok_inv. case_decide as Hp.
  - ok_inv. simplify_eq. eauto.
  - ok_inv. eapply IH; [exact H|]. case_decide; [done|].
    apply Forall_app. split; [done|]. apply Forall_singleton.
    eexists _, _. repeat split; [done..|]. congruence.
Qed.

Lemma findSet_compress_other nodeList p (nodes : gmap Z t) r :
  r ∉ nodeList -> findSet_compress nodeList p nodes !! r = nodes !! r.
Proof.
  revert nodes. induction nodeList as [|n rest IH]; intros nodes Hr; [done|].
  cbn. rewrite IH by set_solver. rewrite lookup_alter_ne; [done|set_solver].
Qed.

Lemma findSet_inv fuel (nodes : gmap Z t) this r nodes' :
  findSet fuel nodes this = Ok (r, nodes') ->
  exists n nodeList,
    findSet_walk fuel nodes this [] = Ok (r, nodeList) /\
    nodes !! r = Some n /\ parent n = Some r /\
    Forall (linked nodes) nodeList /\
    nodes' = findSet_compress nodeList (Some r) nodes.
Proof.
  unfold findSet. intros H. ok_inv. simplify_eq.
  pose proof E as E'.
  apply findSet_walk_root in E as [(n & Hn & Hp) Hl]; [|done].
  simplify_eq. eexists _, _. rewrite <- Hp. eauto.
Qed.

Lemma findSet_root fuel (nodes : gmap Z t) this r nodes' :
  findSet fuel nodes this = Ok (r, nodes') ->
  exists n, nodes !! r = Some n /\ nodes' !! r = Some n /\ parent n = Some r.
Proof.
  intros (n & nl & _ & Hn & Hp & Hl & ->)%findSet_inv.
  exists n. split; [done|]. split; [|done].
  rewrite findSet_compress_other; [done|].
  intros Hr. eapply Forall_forall in Hl as (n' & p & Hn' & Hp' & Hne); [|done].
  by simplify_eq.
Qed.


End find_set.



Lemma findSet_walk_returns (nodes : gmap Z UnionFindNode.t) x r k fuel nodeList :
  uf_path nodes x r k -> (k < fuel)%nat ->
  exists nodeList', UnionFindNode.findSet_walk fuel nodes x nodeList = Ok (r, nodeList').
Proof.
  intros Hp. revert fuel nodeList.
  induction Hp as [r n Hn Hr|x n p r k Hn Hx Hne Hp IH]; intros fuel nodeList Hk;
    (destruct fuel as [|fuel]; [lia|]); cbn; rewrite Hn; cbn.
  - rewrite decide_True by done. eauto.
  - rewrite decide_False by congruence. rewrite Hx. cbn.
    assert (exists pn, nodes !! p = Some pn) as [pn Hpn] by (inversion Hp; eauto).
    rewrite Hpn. cbn. apply IH. lia.
Qed.

Lemma findSet_returns (nodes : gmap Z UnionFindNode.t) x r k fuel :
  uf_path nodes x r k -> (k < fuel)%nat ->
  exists nodes', UnionFindNode.findSet fuel nodes x = Ok (r, nodes').
Proof.
  intros Hp Hk. unfold UnionFindNode.findSet.
  destruct (findSet_walk_returns nodes x r k fuel [] Hp Hk) as [nl ->]. cbn.
  assert (exists n, nodes !! r = Some n) as [n ->].
  { clear Hk. induction Hp; eauto. }
  cbn. eauto.
Qed.

(** ** The degeneracy guard *)

Section abort.
Import HavlakLoopFinder.

Lemma work_abort fuel ffuel w x workList nodePool st xn l :
  nodes st !! x = Some xn ->
  nonBackPreds st !! UnionFindNode.dfsNumber xn = Some l ->
  Z.of_nat (length l) > MAXNONBACKPREDS ->
  work (S fuel) ffuel w (x :: workList) nodePool st = Ok (Return 0).
Proof.
  intros Hx Hl Hn. cbn. rewrite Hx. cbn. rewrite Hl. cbn.
  by rewrite decide_True.
Qed.

Lemma work_Return fuel ffuel w workList nodePool st v :
  work fuel ffuel w workList nodePool st = Ok (Return v) -> v = 0.
Proof.
  revert workList nodePool st.
  induction fuel as [|fuel IH]; intros [|x workList] nodePool st; cbn; try done.
  intros H. ok_inv. case_decide; [by simplify_eq|].
  ok_inv. eauto.
Qed.

Lemma find_loop_Return size w st g v g' :
  find_loop size w st g = Ok (Return v, g') -> v = 0 /\ g' = g.
Proof.
  unfold find_loop. intros H. ok_inv.
  destruct (UnionFindNode.bb a) as [nodeW|]; [|by simplify_eq].
  ok_inv.
  match goal with H : work _ _ _ _ _ _ = Ok ?r |- _ => destruct r as [[]|]; [|apply work_Return in H] end.
  - case_decide; [|by simplify_eq].
    destruct (LSG.createNewLoop g) as [loop g1]. ok_inv. by simplify_eq.
  - by simplify_eq.
Qed.

Lemma find_all_Return size n st g v g' :
  find_all size n st g = Ok (Return v, g') -> v = 0.
Proof.
  revert st g. induction n as [|n IH]; intros st g; cbn; [done|].
  intros H. ok_inv.
  match goal with H : find_loop _ _ _ _ = Ok (?r, _) |- _ => destruct r end.
  - eauto.
  - simplify_eq. by apply find_loop_Return in E as [-> _].
Qed.

End abort.



Section fan_graph.
Import HavlakLoopFinder.

Lemma DFS_enter fuel bs r st c nd b lastid st' :
  nodes st !! c = Some nd ->
  bs !! r = Some b ->
  DFS_targets (DFS fuel bs) bs (BasicBlock.outEdges b) c
    (set_numbers (<[BasicBlock.name b := c]> (numbers st))
       (set_nodes (<[c := UnionFindNode.initNode c r c nd]> (nodes st)) st))
    = Ok (lastid, st') ->
  DFS (S fuel) bs r st c
  = Ok (lastid,
        match numbers st' !! BasicBlock.name b with
        | Some i => set_last (<[i := lastid]> (last st')) st'
        | None => st'
        end).
Proof. intros Hnd Hb Ht. cbn [DFS]. rewrite Hnd. cbn. rewrite Hb. cbn. by rewrite Ht. Qed.

Lemma DFS_targets_new visit bs e es tb lastid st lastid' st' :
  bs !! e = Some tb ->
  numbers st !! BasicBlock.name tb = Some UNVISITED ->
  visit e st (lastid + 1) = Ok (lastid', st') ->
  DFS_targets visit bs (e :: es) lastid st = DFS_targets visit bs es lastid' st'.
Proof. intros He Hn Hv. cbn. rewrite He. cbn. rewrite decide_True by done. by rewrite Hv. Qed.

(** Parallel edges to a block already numbered are passed over. *)
Lemma DFS_targets_repeat_seen visit bs e tb m lastid st :
  bs !! e = Some tb ->
  numbers st !! BasicBlock.name tb ≠ Some UNVISITED ->
  DFS_targets visit bs (repeat e m) lastid st = Ok (lastid, st).
Proof.
  intros He Hn. induction m as [|m IH]; [done|].
  cbn [repeat DFS_targets]. rewrite He. cbn. by rewrite decide_False.
Qed.

(** Parallel edges from a block that is no descendant each leave an
    entry in [nonBackPreds]. *)
Lemma classify_preds_repeat bs w e vb z m st l :
  bs !! e = Some vb ->
  numbers st !! BasicBlock.name vb = Some z ->
  z ≠ UNVISITED ->
  isAncestor w (Some z) (last st) = false ->
  nonBackPreds st !! w = Some l ->
  classify_preds bs w (repeat e m) st
  = Ok (set_nonBackPreds (<[w := l ++ repeat (Some z) m]> (nonBackPreds st)) st).
Proof.
  intros He. revert st l. induction m as [|m IH]; intros st l Hn Hz Ha Hl.
  - cbn. rewrite app_nil_r, insert_id by done. by destruct st.
  - cbn [repeat classify_preds]. rewrite He. cbn.
    rewrite Hn, decide_False by congruence. rewrite Ha.
    unfold push_at. rewrite Hl. cbn.
    rewrite (IH _ (l ++ [Some z])); try done.
    + cbn. by rewrite insert_insert_eq, <- app_assoc.
    + cbn. apply lookup_insert_eq.
Qed.

Lemma fan_DFS m :
  DFS 3 (fan_blocks (S m)) 0 (init_state 2) 0 = Ok (1, fan_numbered).
Proof.
  etrans.
  - eapply (DFS_enter 2 _ 0%nat _ 0 UnionFindNode.new
              (BasicBlock.mk 0 0 [1%nat] (repeat 1%nat (S m)))).
    + vm_compute. reflexivity.
    + reflexivity.
    + cbn [BasicBlock.outEdges BasicBlock.name repeat].
      erewrite (DFS_targets_new _ _ 1%nat _ (BasicBlock.mk 1 1 (repeat 0%nat (S m)) [0%nat]));
        cycle 1.
      * reflexivity.
      * vm_compute. reflexivity.
      * vm_compute. reflexivity.
      * eapply (DFS_targets_repeat_seen _ _ 1%nat (BasicBlock.mk 1 1 (repeat 0%nat (S m)) [0%nat])).
        -- reflexivity.
        -- vm_compute. discriminate.
  - vm_compute. reflexivity.
Qed.

Lemma fan_classify m :
  classify (fan_blocks (S m)) (seqZ 0 2) fan_numbered
  = Ok (fan_classified (repeat (Some 0) (S m))).
Proof.
  change (seqZ 0 2) with [0; 1]. cbn [classify].
  replace (classify_node (fan_blocks (S m)) 0 fan_numbered)
    with (Ok (set_backPreds (list_to_map [(0, [1]); (1, [])]) fan_numbered))
    by (vm_compute; reflexivity).
  cbn [mbind outcome_bind]. unfold classify_node.
  replace (nodes (set_backPreds (list_to_map [(0, [1]); (1, [])]) fan_numbered) !! 1)
    with (Some (UnionFindNode.mk 1 (Some 1) (Some 1%nat) None))
    by (vm_compute; reflexivity).
  cbn [deref mbind outcome_bind UnionFindNode.bb fan_blocks lookup list_lookup].
  rewrite decide_True by (unfold BasicBlock.getNumPred; cbn; lia).
  cbn [BasicBlock.inEdges].
  erewrite (classify_preds_repeat _ 1 0%nat (BasicBlock.mk 0 0 [1%nat] (repeat 1%nat (S m))) 0);
    cycle 1.
  - reflexivity.
  - vm_compute. reflexivity.
  - done.
  - vm_compute. reflexivity.
  - vm_compute. reflexivity.
  - cbn [mbind outcome_bind]. vm_compute. reflexivity.
Qed.

Lemma fan_find_all l :
  Z.of_nat (length l) > MAXNONBACKPREDS ->
  find_all 2 2 (fan_classified l) LSG.new = Ok (Return 0, LSG.new).
Proof.
  intros Hl. cbn [find_all].
  replace (find_loop 2 (Z.of_nat 1) (fan_classified l) LSG.new)
    with (Ok (Next (fan_classified l), LSG.new)) by (vm_compute; reflexivity).
  cbn [mbind outcome_bind]. unfold find_loop.
  replace (nodes (fan_classified l) !! Z.of_nat 0)
    with (Some (UnionFindNode.mk 0 (Some 0) (Some 0%nat) None))
    by (vm_compute; reflexivity).
  cbn [deref mbind outcome_bind UnionFindNode.bb].
  replace (backPreds (fan_classified l) !! Z.of_nat 0) with (Some [1])
    by (vm_compute; reflexivity).
  cbn [deref mbind outcome_bind].
  replace (collect_backPreds 3 (Z.of_nat 0) [1] [] (fan_classified l))
    with (Ok ([1], fan_classified l)) by (vm_compute; reflexivity).
  cbn [mbind outcome_bind]. rewrite decide_True by done.
  change (length [1%Z] + 2 + 1)%nat with 4%nat.
  erewrite (work_abort _ _ _ 1 [] _ _ (UnionFindNode.mk 1 (Some 1) (Some 1%nat) None) l).
  - done.
  - vm_compute. reflexivity.
  - vm_compute. reflexivity.
  - done.
Qed.

End fan_graph.

(** With more than 32 * 1024 parallel edges the analysis gives up: it
    returns 0 and leaves the loop structure graph as it found it. *)
Lemma findLoops_fan_aborts (n : nat) :
  (n > 32 * 1024)%nat ->
  HavlakLoopFinder.findLoops (fan_blocks n) fan_cfg LSG.new = Ok (0, LSG.new).
Proof.
  intros Hn. destruct n as [|m]; [lia|].
  unfold HavlakLoopFinder.findLoops.
  change (CFG.startNode fan_cfg) with (Some 0%nat).
  change (CFG.getNumNodes fan_cfg) with 2.
  change (Z.to_nat 2) with 2%nat.
  cbv beta iota zeta.
  rewrite fan_DFS. cbn [mbind outcome_bind].
  rewrite fan_classify. cbn [mbind outcome_bind].
  rewrite fan_find_all; [done|].
  rewrite repeat_length. unfold HavlakLoopFinder.MAXNONBACKPREDS. lia.
Qed.

(** ** What step c preserves *)

Global Instance reparented_refl : Reflexive reparented.
Proof. by intros a. Qed.

Global Instance reparented_trans : Transitive reparented.
Proof.
  intros a b c (?&?&?&?) (?&?&?&?). repeat split; try congruence; naive_solver.
Qed.

Global Instance nodes_reparented_refl : Reflexive nodes_reparented.
Proof. intros m n. reflexivity. Qed.

Global Instance nodes_reparented_trans : Transitive nodes_reparented.
Proof. intros m1 m2 m3 H1 H2 n. etrans; [apply H1|apply H2]. Qed.

Lemma nodes_reparented_lookup m m' n b :
  nodes_reparented m m' -> m' !! n = Some b ->
  exists a, m !! n = Some a /\ reparented a b.
Proof. intros H Hb. specialize (H n). rewrite Hb in H. inversion H; eauto. Qed.

Lemma nodes_reparented_lookup_l m m' n a :
  nodes_reparented m m' -> m !! n = Some a ->
  exists b, m' !! n = Some b /\ reparented a b.
Proof. intros H Ha. specialize (H n). rewrite Ha in H. inversion H; eauto. Qed.

Lemma alter_parent_reparented (m : gmap Z UnionFindNode.t) x p :
  (forall n, m !! x = Some n -> is_Some (UnionFindNode.parent n)) ->
  nodes_reparented m
    (alter (fun nd => UnionFindNode.mk (UnionFindNode.dfsNumber nd) (Some p)
                        (UnionFindNode.bb nd) (UnionFindNode.loop nd)) x m).
Proof.
  intros Hx n. destruct (decide (n = x)) as [->|Hne].
  - rewrite lookup_alter_eq. destruct (m !! x) as [nd|] eqn:E; constructor.
    repeat split; cbn; eauto.
  - rewrite lookup_alter_ne by done. reflexivity.
Qed.

Lemma has_parent_reparented m m' x :
  nodes_reparented m m' -> has_parent m x -> has_parent m' x.
Proof.
  intros H (n & Hn & Hp).
  destruct (nodes_reparented_lookup_l _ _ _ _ H Hn) as (b & Hb & Hr).
  exists b. split; [done|]. by apply Hr.
Qed.

Lemma linked_has_parent m x : linked m x -> has_parent m x.
Proof. intros (n & p & Hn & Hp & _). exists n. by rewrite Hp. Qed.

Lemma findSet_compress_reparented nodeList r (m : gmap Z UnionFindNode.t) :
  Forall (has_parent m) nodeList ->
  nodes_reparented m (UnionFindNode.findSet_compress nodeList (Some r) m).
Proof.
  revert m. induction nodeList as [|x rest IH]; intros m Hl; [reflexivity|].
  apply Forall_cons in Hl as [(n & Hn & Hp) Hl]. cbn.
  assert (Hx : nodes_reparented m
    (alter (fun nd => UnionFindNode.mk (UnionFindNode.dfsNumber nd) (Some r)
                        (UnionFindNode.bb nd) (UnionFindNode.loop nd)) x m)).
  { apply alter_parent_reparented. intros n' ?. by simplify_eq. }
  etrans; [exact Hx|]. apply IH.
  eapply Forall_impl; [exact Hl|]. intros y. by apply has_parent_reparented.
Qed.

Lemma findSet_reparented fuel (m : gmap Z UnionFindNode.t) this r m' :
  UnionFindNode.findSet fuel m this = Ok (r, m') ->
  nodes_reparented m m' /\ has_parent m' r.
Proof.
  intros H. pose proof (findSet_root _ _ _ _ _ H) as (n & _ & Hn & Hp).
  apply findSet_inv in H as (n' & nl & _ & _ & _ & Hl & ->). split.
  - apply findSet_compress_reparented.
    eapply Forall_impl; [exact Hl|]. apply linked_has_parent.
  - exists n. by rewrite Hp.
Qed.

Lemma findSet_walk_above b fuel (m : gmap Z UnionFindNode.t) node nodeList r nodeList' :
  links_above b m ->
  UnionFindNode.findSet_walk fuel m node nodeList = Ok (r, nodeList') ->
  (r = node /\ nodeList' = nodeList) \/ b <= r.
Proof.
  intros Hm. revert node nodeList.
  induction fuel as [|fuel IH]; intros node nodeList; [done|].
  cbn. intros H. ok_inv. case_decide as Hp.
  - ok_inv. simplify_eq. by left.
  - ok_inv. right. destruct (Hm _ _ _ E E0) as [->|Hb]; [congruence|].
    apply IH in H as [[-> _]|H]; lia.
Qed.

Lemma findSet_compress_above b nodeList r (m : gmap Z UnionFindNode.t) :
  links_above b m -> b <= r ->
  links_above b (UnionFindNode.findSet_compress nodeList (Some r) m).
Proof.
  intros Hm Hr. revert m Hm.
  induction nodeList as [|x rest IH]; intros m Hm; [done|].
  cbn. apply IH. intros n nd p Hn Hp.
  destruct (decide (n = x)) as [->|Hne].
  - rewrite lookup_alter_eq in Hn. destruct (m !! x); simplify_eq/=. by right.
  - rewrite lookup_alter_ne in Hn by done. eauto.
Qed.

Lemma findSet_above b fuel (m : gmap Z UnionFindNode.t) this r m' :
  links_above b m ->
  UnionFindNode.findSet fuel m this = Ok (r, m') ->
  links_above b m' /\ (r = this \/ b <= r).
Proof.
  intros Hm (n & nl & Hw & Hn & Hp & Hl & ->)%findSet_inv.
  apply (findSet_walk_above b) in Hw as [[-> ->]|Hb]; [| |done].
  - split; [done|by left].
  - split; [|by right]. by apply findSet_compress_above.
Qed.

Section pool.
Import HavlakLoopFinder.
Context (bs : list BasicBlock.t).

Lemma shape_ok_reparented k m m' :
  nodes_reparented m m' -> shape_ok bs k m -> shape_ok bs k m'.
Proof.
  intros Hr Hm n nd Hn.
  destruct (nodes_reparented_lookup _ _ _ _ Hr Hn) as (a & Ha & Hd & Hb & Hl & Hp).
  destruct (Hm _ _ Ha) as (H1 & H2 & H3).
  rewrite Hd, Hb, Hl. naive_solver.
Qed.

Lemma pool_ok_reparented w m m' pool :
  nodes_reparented m m' -> pool_ok w m pool -> pool_ok w m' pool.
Proof.
  intros Hr Hp. eapply Forall_impl; [exact Hp|]. intros x [? ?].
  split; [done|]. by eapply has_parent_reparented.
Qed.

Lemma collect_backPreds_inv b ffuel w vs nodePool st nodePool' st' :
  w < b ->
  links_above b (nodes st) ->
  pool_ok w (nodes st) nodePool ->
  collect_backPreds ffuel w vs nodePool st = Ok (nodePool', st') ->
  nodes_reparented (nodes st) (nodes st') /\
  links_above b (nodes st') /\
  pool_ok w (nodes st') nodePool'.
Proof.
  intros Hw. revert nodePool st.
  induction vs as [|v vs IH]; intros nodePool st Ha Hp H; cbn in H.
  - ok_inv. by simplify_eq.
  - case_decide as Hv.
    + ok_inv.
      destruct (findSet_reparented _ _ _ _ _ E) as [Hr Hh].
      destruct (findSet_above b _ _ _ _ _ Ha E) as [Ha' Hz].
      apply IH in H as (Hr' & ? & ?); cbn; [|done|].
      * split; [|done]. by etrans.
      * apply Forall_app. split; [by eapply pool_ok_reparented|].
        apply Forall_singleton. split; [lia|done].
    + by apply IH in H.
Qed.

Lemma scan_nonBackPreds_inv b k fuel ffuel w xd iter workList nodePool st
    workList' nodePool' st' :
  shape_ok bs k (nodes st) ->
  links_above b (nodes st) ->
  pool_ok w (nodes st) workList ->
  pool_ok w (nodes st) nodePool ->
  scan_nonBackPreds fuel ffuel w xd iter workList nodePool st
    = Ok (workList', nodePool', st') ->
  nodes_reparented (nodes st) (nodes st') /\
  links_above b (nodes st') /\
  pool_ok w (nodes st') workList' /\
  pool_ok w (nodes st') nodePool'.
Proof.
  revert iter workList nodePool st.
  induction fuel as [|fuel IH]; intros iter workList nodePool st Hs Ha Hwl Hnp H;
    [done|].
  cbn in H. ok_inv. destruct (a !! iter) as [yi|]; [|by ok_inv; simplify_eq].
  ok_inv. cbn in *.
  lazymatch goal with
  | Hf : UnionFindNode.findSet _ _ _ = Ok (?z, ?g), Hy : ?g !! ?z = Some ?yn |- _ =>
      destruct (findSet_reparented _ _ _ _ _ Hf) as [Hr Hh];
      destruct (findSet_above b _ _ _ _ _ Ha Hf) as [Ha' _];
      assert (Hd : UnionFindNode.dfsNumber yn = z)
        by (destruct Hh as (n & Hn & Hp); rewrite Hy in Hn; simplify_eq;
            destruct (shape_ok_reparented _ _ _ Hr Hs _ _ Hy) as (_ & Hq & _);
            by destruct (Hq Hp))
  end.
  pose proof (shape_ok_reparented _ _ _ Hr Hs) as Hs'.
  pose proof (pool_ok_reparented _ _ _ _ Hr Hwl) as Hwl'.
  pose proof (pool_ok_reparented _ _ _ _ Hr Hnp) as Hnp'.
  destruct (negb _).
  - ok_inv. apply IH in H as (Hr' & ? & ? & ?); cbn; try done.
    split; [|done]. by etrans.
  - case_decide as Hne; [case_decide as Hin|].
    + apply IH in H as (Hr' & ? & ? & ?); cbn; try done.
      split; [|done]. by etrans.
    + apply IH in H as (Hr' & ? & ? & ?); cbn; try done.
      * split; [|done]. by etrans.
      * apply Forall_app. split; [done|]. apply Forall_singleton. split; congruence.
      * apply Forall_app. split; [done|]. apply Forall_singleton. split; congruence.
    + apply IH in H as (Hr' & ? & ? & ?); cbn; try done.
      split; [|done]. by etrans.
Qed.

Local Opaque scan_nonBackPreds.

Lemma work_inv b k fuel ffuel w workList nodePool st nodePool' st' :
  shape_ok bs k (nodes st) ->
  links_above b (nodes st) ->
  pool_ok w (nodes st) workList ->
  pool_ok w (nodes st) nodePool ->
  work fuel ffuel w workList nodePool st = Ok (Next (nodePool', st')) ->
  nodes_reparented (nodes st) (nodes st') /\
  links_above b (nodes st') /\
  pool_ok w (nodes st') nodePool'.
Proof.
  revert workList nodePool st.
  induction fuel as [|fuel IH]; intros [|x workList] nodePool st Hs Ha Hwl Hnp H;
    cbn in H; try done.
  - by simplify_eq.
  - by simplify_eq.
  - ok_inv. case_decide; [done|]. ok_inv.
    apply Forall_cons in Hwl as [_ Hwl].
    lazymatch goal with
    | Hsc : scan_nonBackPreds _ _ _ _ _ _ _ _ = Ok _ |- _ =>
        destruct (scan_nonBackPreds_inv b k _ _ _ _ _ _ _ _ _ _ _ Hs Ha Hwl Hnp Hsc)
          as (Hr & Ha' & Hwl' & Hnp')
    end.
    apply IH in H as (Hr' & ? & ?); try done.
    + split; [|done]. by etrans.
    + by eapply shape_ok_reparented.
Qed.

Local Transparent scan_nonBackPreds.

End pool.

Section forest.
Import HavlakLoopFinder.
Context (bs : list BasicBlock.t).

Lemma setParent_lookup ls l loop i r :
  l ≠ loop ->
  SimpleLoop.setParent l loop ls !! i = Some r ->
  exists r0, ls !! i = Some r0 /\
    r = (if decide (i = loop) then SimpleLoop.addChildLoop l r0
         else if decide (i = l) then SimpleLoop.set_parent loop r0 else r0).
Proof.
  intros Hne. unfold SimpleLoop.setParent. rewrite !list_lookup_alter.
  destruct (decide (i = loop)) as [->|Hi].
  - rewrite decide_True by done. rewrite decide_False by done.
    destruct (ls !! loop); intros; simplify_eq/=; eauto.
  - rewrite decide_False by done. destruct (decide (i = l)) as [->|Hi'].
    + rewrite decide_True by done. destruct (ls !! l); intros; simplify_eq/=; eauto.
    + rewrite decide_False by done. eauto.
Qed.

Lemma setParent_lookup_2 ls l loop i r0 :
  l ≠ loop -> ls !! i = Some r0 ->
  SimpleLoop.setParent l loop ls !! i =
    Some (if decide (i = loop) then SimpleLoop.addChildLoop l r0
          else if decide (i = l) then SimpleLoop.set_parent loop r0 else r0).
Proof.
  intros Hne Hi. unfold SimpleLoop.setParent. rewrite !list_lookup_alter.
  destruct (decide (i = loop)) as [->|Hi1].
  - rewrite decide_True by done. rewrite decide_False by done. by rewrite Hi.
  - rewrite decide_False by done. destruct (decide (i = l)) as [->|Hi'].
    + rewrite decide_True by done. by rewrite Hi.
    + by rewrite decide_False by done.
Qed.

Lemma objs_ok_setParent ls l loop :
  objs_ok bs ls -> (1 <= l < loop)%nat -> (loop < length ls)%nat ->
  objs_ok bs (SimpleLoop.setParent l loop ls).
Proof.
  intros (Hok & Hpar & Hroot) Hl Hloop.
  assert (Hne : l ≠ loop) by lia.
  assert (Hlen : length (SimpleLoop.setParent l loop ls) = length ls)
    by (unfold SimpleLoop.setParent; by rewrite !length_alter).
  split; [|split].
  - intros i r (r0 & Hr0 & ->)%setParent_lookup; [|done]. rewrite Hlen.
    destruct (Hok _ _ Hr0) as (H1 & H2 & H3 & H4 & H5).
    destruct (decide (i = loop)) as [->|Hi]; [|destruct (decide (i = l)) as [->|Hi']].
    + split_and!; cbn; try done.
      apply Forall_app. split; [done|]. by apply Forall_singleton.
    + split_and!; cbn; try done. intros; simplify_eq; lia.
    + done.
  - intros i r p (r0 & Hr0 & ->)%setParent_lookup Hp; [|done].
    assert (Hold : forall q, SimpleLoop.parent r0 = Some q ->
      exists lp, SimpleLoop.setParent l loop ls !! q = Some lp /\
                 i ∈ SimpleLoop.children lp).
    { intros q Hq. destruct (Hpar _ _ _ Hr0 Hq) as (lp & Hlp & Hin).
      rewrite (setParent_lookup_2 _ _ _ _ _ Hne Hlp).
      eexists. split; [done|]. repeat case_decide; cbn; set_solver. }
    destruct (decide (i = loop)) as [->|Hi]; [|destruct (decide (i = l)) as [->|Hi']].
    + by apply Hold.
    + cbn in Hp. simplify_eq.
      destruct (lookup_lt_is_Some_2 ls p Hloop) as [lp Hlp].
      rewrite (setParent_lookup_2 _ _ _ _ _ Hne Hlp).
      rewrite decide_True by done. eexists. split; [done|]. cbn. set_solver.
    + by apply Hold.
  - rewrite (setParent_lookup_2 _ _ _ _ _ Hne Hroot).
    by rewrite !decide_False by lia.
Qed.

Lemma objs_ok_addNode ls loop r :
  objs_ok bs ls -> (1 <= loop)%nat -> (r < length bs)%nat ->
  objs_ok bs (alter (SimpleLoop.addNode (Some r)) loop ls).
Proof.
  intros (Hok & Hpar & Hroot) Hloop Hr.
  split; [|split].
  - intros i l. rewrite length_alter, list_lookup_alter.
    destruct (decide (loop = i)) as [->|Hi]; [|by apply Hok].
    destruct (ls !! i) as [l0|] eqn:E; intros; simplify_eq/=.
    destruct (Hok _ _ E) as (H1 & H2 & H3 & H4 & H5).
    split_and!; cbn; try done.
    + apply Forall_app. split; [done|]. apply Forall_singleton. eauto.
    + intros Hi. destruct (H5 Hi) as (h & rest & -> & ->).
      by eexists _, _.
  - intros i l p. rewrite !list_lookup_alter. intros Hl Hp.
    assert (exists l0, ls !! i = Some l0 /\ SimpleLoop.parent l0 = Some p)
      as (l0 & Hl0 & Hp0).
    { destruct (decide (loop = i)) as [->|Hi]; [|eauto].
      destruct (ls !! i) as [l0|]; simplify_eq/=. eauto. }
    destruct (Hpar _ _ _ Hl0 Hp0) as (lp & Hlp & Hin).
    destruct (decide (loop = p)) as [->|]; rewrite Hlp; cbn; eauto.
  - rewrite list_lookup_alter. by rewrite decide_False by lia.
Qed.

Lemma alter_isReducible (f : SimpleLoop.t -> SimpleLoop.t) (i : nat)
    (ls : list SimpleLoop.t) (j : nat) :
  (forall l, SimpleLoop.isReducible (f l) = SimpleLoop.isReducible l) ->
  SimpleLoop.isReducible <$> alter f i ls !! j = SimpleLoop.isReducible <$> ls !! j.
Proof.
  intros Hf. rewrite list_lookup_alter. case_decide; [subst|done].
  destruct (ls !! j); cbn; by rewrite ?Hf.
Qed.

Lemma union_reparented (m : gmap Z UnionFindNode.t) x w :
  has_parent m x -> nodes_reparented m (UnionFindNode.union x w m).
Proof.
  intros (n & Hn & Hp). apply alter_parent_reparented.
  intros n' ?. by simplify_eq.
Qed.

Lemma union_above (m : gmap Z UnionFindNode.t) x w :
  links_above w m -> links_above w (UnionFindNode.union x w m).
Proof.
  intros Hm n nd p. unfold UnionFindNode.union.
  destruct (decide (n = x)) as [->|Hne].
  - rewrite lookup_alter_eq. destruct (m !! x); intros; simplify_eq/=. right. lia.
  - rewrite lookup_alter_ne by done. apply Hm.
Qed.

Lemma links_above_le b b' m : b' <= b -> links_above b m -> links_above b' m.
Proof. intros Hb Hm n nd p Hn Hp. destruct (Hm _ _ _ Hn Hp); [by left|right; lia]. Qed.

(** The loop that fills the new record [loop] of header [w]. *)
Lemma link_pool_inv w loop nodePool st g st' g' :
  link_pool w loop nodePool st g = Ok (st', g') ->
  objs_ok bs (LSG.objs g) ->
  (1 <= loop < length (LSG.objs g))%nat ->
  shape_ok bs (S loop) (nodes st) ->
  (forall n nd, nodes st !! n = Some nd -> UnionFindNode.loop nd = Some loop -> n = w) ->
  pool_ok w (nodes st) nodePool ->
  links_above w (nodes st) ->
  objs_ok bs (LSG.objs g') /\
  length (LSG.objs g') = length (LSG.objs g) /\
  LSG.loops g' = LSG.loops g /\
  LSG.root g' = LSG.root g /\
  LSG.loopCounter g' = LSG.loopCounter g /\
  nodes_reparented (nodes st) (nodes st') /\
  links_above w (nodes st') /\
  types st' = types st /\
  (forall i, SimpleLoop.isReducible <$> LSG.objs g' !! i
             = SimpleLoop.isReducible <$> LSG.objs g !! i).
Proof.
  revert st g.
  induction nodePool as [|x nodePool IH]; intros st g H Hg Hloop Hs Hu Hp Ha;
    cbn in H.
  - by simplify_eq.
  - ok_inv. cbn in *.
    apply Forall_cons in Hp as [[Hxw Hx] Hp].
    pose proof (union_reparented _ _ w Hx) as Hr.
    pose proof (union_above _ x _ Ha) as Ha'.
    pose proof (shape_ok_reparented _ _ _ _ Hr Hs) as Hs'.
    lazymatch goal with
    | Hn : UnionFindNode.union _ _ _ !! _ = Some ?nd |- _ =>
        destruct (Hs' _ _ Hn) as (Hbb & Hinit & Hl);
        destruct (has_parent_reparented _ _ _ Hr Hx) as (nd' & Hn' & Hpar);
        rewrite Hn in Hn'; injection Hn' as <-;
        destruct (Hinit Hpar) as [[r Hr0] _];
        destruct (nodes_reparented_lookup _ _ _ _ Hr Hn) as (nd0 & Hnd0 & _ & _ & Hl0 & _);
        assert (Hlx : forall l, UnionFindNode.loop nd = Some l -> (1 <= l < loop)%nat)
          by (intros l Hll; destruct (Hl _ Hll);
              assert (l ≠ loop) by (intros ->; rewrite Hl0 in Hll; naive_solver);
              lia)
    end.
    apply IH in H; cbn.
    + destruct H as (H1 & H2 & H3 & H4 & H5 & H6 & H7 & H8 & H9).
      split_and!; try done.
      * rewrite H2. destruct (UnionFindNode.loop _); cbn;
          unfold SimpleLoop.setParent; by rewrite ?length_alter.
      * by destruct (UnionFindNode.loop _).
      * by destruct (UnionFindNode.loop _).
      * by destruct (UnionFindNode.loop _).
      * by etrans.
      * intros i. rewrite H9. destruct (UnionFindNode.loop _); cbn;
          unfold SimpleLoop.setParent; by rewrite ?alter_isReducible.
    + destruct (UnionFindNode.loop _) as [l|] eqn:El; cbn.
      * apply objs_ok_setParent; [done|by apply Hlx|lia].
      * rewrite Hr0. apply objs_ok_addNode; [done|lia|by apply Hbb].
    + destruct (UnionFindNode.loop _); cbn; unfold SimpleLoop.setParent;
        by rewrite ?length_alter.
    + done.
    + intros n nd1 Hn1 Hl1.
      destruct (nodes_reparented_lookup _ _ _ _ Hr Hn1) as (nd2 & Hnd2 & _ & _ & Hl2 & _).
      eapply Hu; [done|]. by rewrite <- Hl2.
    + by eapply pool_ok_reparented.
    + done.
Qed.

Lemma alter_app_last {A} (f : A -> A) (ls : list A) (x : A) :
  alter f (length ls) (ls ++ [x]) = ls ++ [f x].
Proof.
  replace (length ls) with (length ls + 0)%nat at 1 by lia.
  by rewrite alter_app_r.
Qed.

Lemma loop_ok_mono k k' i l : (k <= k')%nat -> loop_ok bs k i l -> loop_ok bs k' i l.
Proof.
  intros Hk (H1 & H2 & H3 & H4 & H5). split_and!; try done.
  intros p Hp. specialize (H1 p Hp). lia.
Qed.

(** Allocating the record of a new loop headed by the block [nodeW]. *)
Lemma objs_ok_new ls nodeW red :
  objs_ok bs ls -> (nodeW < length bs)%nat ->
  objs_ok bs (ls ++ [SimpleLoop.set_isReducible red
                    (SimpleLoop.setHeader nodeW
                       (SimpleLoop.new (Z.of_nat (length ls))))]).
Proof.
  intros (Hok & Hpar & Hroot) Hw.
  assert (Hlen : (1 <= length ls)%nat).
  { apply lookup_lt_Some in Hroot. lia. }
  split; [|split].
  - intros i l Hl. rewrite length_app. cbn.
    destruct (decide (i < length ls)%nat) as [Hi|Hi].
    + rewrite lookup_app_l in Hl by done.
      eapply loop_ok_mono; [|by apply Hok]. lia.
    + rewrite lookup_app_r in Hl by lia.
      destruct (i - length ls)%nat as [|n] eqn:En; [|by destruct n].
      cbn in Hl. simplify_eq. assert (i = length ls) as -> by lia.
      split_and!; cbn; try done.
      * repeat constructor. eauto.
      * intros _. by eexists _, _.
  - intros i l p Hl Hp.
    destruct (decide (i < length ls)%nat) as [Hi|Hi].
    + rewrite lookup_app_l in Hl by done.
      destruct (Hpar _ _ _ Hl Hp) as (lp & Hlp & Hin).
      exists lp. split; [|done]. rewrite lookup_app_l; [done|].
      by eapply lookup_lt_Some.
    + rewrite lookup_app_r in Hl by lia.
      destruct (i - length ls)%nat as [|n] eqn:En; [|by destruct n].
      cbn in Hl. by simplify_eq.
  - rewrite lookup_app_l by lia. done.
Qed.

Lemma shape_ok_setLoop k w (m : gmap Z UnionFindNode.t) :
  (1 <= k)%nat -> shape_ok bs k m ->
  shape_ok bs (S k) (UnionFindNode.setLoop w k m).
Proof.
  intros Hk Hm n nd. unfold UnionFindNode.setLoop.
  destruct (decide (n = w)) as [->|Hne].
  - rewrite lookup_alter_eq. destruct (m !! w) as [nd0|] eqn:E; intros; simplify_eq/=.
    destruct (Hm _ _ E) as (H1 & H2 & H3). split_and!; try done.
    intros l ?. simplify_eq. lia.
  - rewrite lookup_alter_ne by done. intros Hn.
    destruct (Hm _ _ Hn) as (H1 & H2 & H3). split_and!; try done.
    intros l Hl. specialize (H3 l Hl). lia.
Qed.

Local Opaque collect_backPreds work link_pool.

Lemma find_loop_inv size w st g st' g' :
  stepc_inv bs (w + 1) st g ->
  find_loop size w st g = Ok (Next st', g') ->
  stepc_inv bs w st' g' /\
  (forall i l, LSG.objs g !! i = Some l ->
     exists l', LSG.objs g' !! i = Some l' /\
                SimpleLoop.isReducible l' = SimpleLoop.isReducible l) /\
  (g' = g \/
   exists l, LSG.objs g' !! length (LSG.objs g) = Some l /\
     length (LSG.objs g') = S (length (LSG.objs g)) /\
     SimpleLoop.isReducible l
       = bool_decide (types st' !! w = Some BB_IRREDUCIBLE)).
Proof.
  intros (Hg & Hs & Ha & Hloops & Hroot & Hcnt) H.
  assert (Hmono : links_above w (nodes st)) by (eapply links_above_le; [|done]; lia).
  unfold find_loop in H. ok_inv.
  destruct (UnionFindNode.bb _) as [nodeW|] eqn:Hbb.
  2:{ simplify_eq. split; [done|]. split; [eauto|by left]. }
  ok_inv.
  lazymatch goal with
  | Hc : collect_backPreds _ _ _ _ _ = Ok _ |- _ =>
      eapply (collect_backPreds_inv (w + 1)) in Hc as (Hr1 & Ha1 & Hp1);
        [|lia|done|by apply Forall_nil]
  end.
  lazymatch goal with
  | Hwk : work _ _ _ _ _ ?st2 = Ok ?r, Hp : pool_ok _ (nodes ?s1) _ |- _ =>
      destruct r as [[nodePool' st3]|]; [|by simplify_eq];
      assert (Hn2 : nodes st2 = nodes s1) by (by destruct (decide (_ ≠ [])));
      eapply (work_inv bs (w + 1) (length (LSG.objs g))) in Hwk as (Hr2 & Ha2 & Hp2);
        rewrite ?Hn2; [| by eapply shape_ok_reparented | done | done | done];
      rewrite Hn2 in Hr2
  end.
  assert (Hr : nodes_reparented (nodes st) (nodes st3)) by (by etrans).
  pose proof (shape_ok_reparented _ _ _ _ Hr Hs) as Hs3.
  destruct (decide (_ \/ _)) as [Hcond|Hcond].
  2:{ simplify_eq. split; [|split; [eauto|by left]].
      split_and!; try done. eapply links_above_le; [|done]. lia. }
  cbn in H. ok_inv.
  assert (Hlen : (1 <= length (LSG.objs g))%nat).
  { destruct Hg as (_ & _ & Hr0). apply lookup_lt_Some in Hr0. lia. }
  assert (HnodeW : (nodeW < length bs)%nat).
  { lazymatch goal with Hn : nodes st !! w = Some ?nd |- _ =>
      destruct (Hs _ _ Hn) as (Hv & _); by apply Hv end. }
  set (red := bool_decide (types st3 !! w = Some BB_IRREDUCIBLE)).
  set (rec := SimpleLoop.set_isReducible red
                (SimpleLoop.setHeader nodeW (SimpleLoop.new (LSG.loopCounter g)))).
  lazymatch goal with
  | Hl : link_pool _ _ _ ?st4 ?g4 = Ok _ |- _ =>
      assert (Hg4 : LSG.objs g4 = LSG.objs g ++ [rec] /\
                    LSG.loops g4 = LSG.loops g /\ LSG.root g4 = LSG.root g /\
                    LSG.loopCounter g4 = LSG.loopCounter g + 1)
        by (subst rec red; rewrite !alter_app_last;
            destruct (decide (types st3 !! w = _)); cbn;
            [rewrite bool_decide_true by done|rewrite bool_decide_false by done];
            done);
      destruct Hg4 as (Hg4 & Hl4 & Hr4 & Hc4);
      apply link_pool_inv in Hl
        as (H1 & H2 & H3 & H4 & H5 & H6 & H7 & H8 & H9);
        rewrite ?Hg4, ?length_app; cbn
  end.
  - subst. rewrite Hg4, length_app in H2. cbn in H2. split; [|split].
    + split_and!; cbn; try done.
      * rewrite H2. replace (length (LSG.objs g) + 1)%nat with (S (length (LSG.objs g))) by lia.
        eapply shape_ok_reparented; [done|]. by apply shape_ok_setLoop.
      * rewrite H3, Hl4, Hloops, H2. by rewrite Nat.add_1_r, seq_S.
      * by rewrite H4, Hr4.
      * rewrite H5, Hc4, H2. lia.
    + intros i l0 Hl0. specialize (H9 i). rewrite Hg4 in H9.
      rewrite lookup_app_l in H9 by (by eapply lookup_lt_Some). rewrite Hl0 in H9.
      cbn in H9. destruct (LSG.objs _ !! i) as [l'|]; simplify_eq/=. eauto.
    + right. specialize (H9 (length (LSG.objs g))). rewrite Hg4 in H9.
      rewrite list_lookup_middle in H9 by done. cbn in H9.
      destruct (LSG.objs _ !! length (LSG.objs g)) as [l'|]; simplify_eq/=.
      exists l'. split; [done|]. split; [lia|]. by rewrite H8.
  - subst rec. rewrite Hcnt. by apply objs_ok_new.
  - lia.
  - replace (length (LSG.objs g) + 1)%nat with (S (length (LSG.objs g))) by lia.
    by apply shape_ok_setLoop.
  - intros n nd0. unfold UnionFindNode.setLoop.
    destruct (decide (n = w)) as [->|Hne]; [done|].
    rewrite lookup_alter_ne by done. intros Hn Hl.
    destruct (Hs3 _ _ Hn) as (_ & _ & Hb). specialize (Hb _ Hl). lia.
  - eapply Forall_impl; [exact Hp2|]. intros x [? (nd0 & Hn0 & Hp0)].
    split; [done|]. exists nd0. cbn. unfold UnionFindNode.setLoop.
    by rewrite lookup_alter_ne by done.
  - intros n nd0 p. unfold UnionFindNode.setLoop.
    destruct (decide (n = w)) as [->|Hne].
    + rewrite lookup_alter_eq. destruct (nodes st3 !! w) as [nd1|] eqn:Ew;
        intros Hn Hp0; simplify_eq/=.
      destruct (Ha2 _ _ _ Ew Hp0); [by left|right; lia].
    + rewrite lookup_alter_ne by done. intros Hn Hp0.
      destruct (Ha2 _ _ _ Hn Hp0); [by left|right; lia].
Qed.

Local Transparent collect_backPreds work link_pool.

Lemma find_all_inv size n st g r g' :
  stepc_inv bs (Z.of_nat n) st g ->
  find_all size n st g = Ok (r, g') ->
  (exists st0 b, stepc_inv bs b st0 g') /\
  (forall i l, LSG.objs g !! i = Some l ->
     exists l', LSG.objs g' !! i = Some l' /\
                SimpleLoop.isReducible l' = SimpleLoop.isReducible l).
Proof.
  revert st g. induction n as [|n IH]; intros st g Hinv H; cbn in H.
  - simplify_eq. split; eauto.
  - ok_inv.
    lazymatch goal with
    | Hf : find_loop _ _ _ _ = Ok (?r1, _) |- _ => destruct r1 as [st1|v]
    end.
    + lazymatch goal with
      | Hf : find_loop _ _ _ _ = Ok _ |- _ =>
          apply find_loop_inv in Hf as (Hinv1 & Hred & _);
            [|by replace (Z.of_nat n + 1) with (Z.of_nat (S n)) by lia]
      end.
      apply IH in H as (Hinv2 & Hred2); [|done].
      split; [done|]. intros i l Hl.
      destruct (Hred _ _ Hl) as (l1 & Hl1 & <-). eauto.
    + simplify_eq.
      lazymatch goal with
      | Hf : find_loop _ _ _ _ = Ok _ |- _ =>
          apply find_loop_Return in Hf as [_ ->]
      end.
      split; eauto.
Qed.

Lemma DFS_fresh fuel currentNode st current lastid st' :
  fresh_ok bs (nodes st) ->
  DFS fuel bs currentNode st current = Ok (lastid, st') ->
  fresh_ok bs (nodes st').
Proof.
  revert currentNode st current lastid st'.
  induction fuel as [|fuel IH]; intros currentNode st current lastid st' Hst H; [done|].
  cbn in H. ok_inv.
  assert (Htargets : forall es l0 st0 l1 st1,
    fresh_ok bs (nodes st0) ->
    DFS_targets (DFS fuel bs) bs es l0 st0 = Ok (l1, st1) -> fresh_ok bs (nodes st1)).
  { induction es as [|e es IHes]; intros l0 st0 l1 st1 Hfr Ht; cbn in Ht.
    - by simplify_eq.
    - ok_inv. case_decide; [|by eauto]. ok_inv. eauto. }
  lazymatch goal with
  | Ht : DFS_targets _ _ _ _ _ = Ok (?l1, ?st1) |- _ =>
      apply Htargets in Ht;
      [assert (nodes st' = nodes st1) as -> by (subst; by destruct (numbers st1 !! _));
       done|]
  end.
  cbn. intros n nd Hn. destruct (decide (n = current)) as [->|Hne].
  - rewrite lookup_insert_eq in Hn. simplify_eq. cbn.
    lazymatch goal with
    | Hb : bs !! currentNode = Some _, Ho : nodes st !! current = Some ?old |- _ =>
        destruct (Hst _ _ Ho) as (_ & _ & Hl & _);
        split_and!; [intros r ?; simplify_eq; by eapply lookup_lt_Some|eauto|done|
                     intros p ?; by simplify_eq]
    end.
  - rewrite lookup_insert_ne in Hn by done. by apply Hst.
Qed.

Lemma classify_preds_nodes w es st st' :
  classify_preds bs w es st = Ok st' -> nodes st' = nodes st.
Proof.
  revert st. induction es as [|e es IH]; intros st H; cbn in H.
  - by simplify_eq.
  - ok_inv. case_decide; [by apply IH|].
    destruct (isAncestor _ _ _).
    + destruct (numbers st !! _); [|by apply IH]. ok_inv.
      by apply IH in H as ->.
    + ok_inv. by apply IH in H as ->.
Qed.

Lemma classify_nodes ws st st' :
  classify bs ws st = Ok st' -> nodes st' = nodes st.
Proof.
  revert st. induction ws as [|w ws IH]; intros st H; cbn in H.
  - by simplify_eq.
  - ok_inv. apply IH in H as ->.
    lazymatch goal with Hc : classify_node _ _ _ = Ok _ |- _ =>
      unfold classify_node in Hc; ok_inv end.
    destruct (UnionFindNode.bb _); [|by simplify_eq].
    ok_inv. case_decide; [by eapply classify_preds_nodes|by simplify_eq].
Qed.

Lemma init_state_fresh size : fresh_ok bs (nodes (init_state size)).
Proof.
  intros n nd. cbn. intros Hn.
  apply elem_of_list_to_map_2, list_elem_of_fmap in Hn as (i & Heq & _).
  simplify_eq. cbn. split_and!; done.
Qed.

Lemma fresh_stepc b st :
  fresh_ok bs (nodes st) -> stepc_inv bs b st LSG.new.
Proof.
  intros Hst. split_and!; try done.
  - split_and!; try done.
    + intros [|[|i]] l Hl; simplify_eq/=. split_and!; cbn; try done. lia.
    + intros [|[|i]] l p Hl; simplify_eq/=. done.
  - intros n nd Hn. destruct (Hst _ _ Hn) as (H1 & H2 & H3 & H4).
    split_and!; try done. intros l. by rewrite H3.
  - intros n nd p Hn Hp. destruct (Hst _ _ Hn) as (H1 & H2 & H3 & H4).
    left. by apply H4.
Qed.

(** The loop structure graph that [findLoops] leaves when started on a
    fresh one. *)
Lemma findLoops_forest cfg n g :
  findLoops bs cfg LSG.new = Ok (n, g) ->
  objs_ok bs (LSG.objs g) /\
  LSG.loops g = seq 0 (length (LSG.objs g)) /\
  LSG.root g = 0%nat /\
  LSG.loopCounter g = Z.of_nat (length (LSG.objs g)).
Proof.
  unfold findLoops. intros H.
  destruct (CFG.startNode cfg) as [s|].
  2:{ simplify_eq. by destruct (fresh_stepc 0 (init_state 0) (init_state_fresh 0))
        as (? & _ & _ & ? & ? & ?). }
  ok_inv.
  lazymatch goal with
  | Hd : DFS _ _ _ _ _ = Ok _, Hc : classify _ _ _ = Ok _,
    Hf : find_all _ _ _ _ = Ok (_, ?g1) |- _ =>
      apply DFS_fresh in Hd; [|apply init_state_fresh];
      apply classify_nodes in Hc; rewrite <- Hc in Hd;
      eapply find_all_inv in Hf as ((st0 & b & Hg & _ & _ & Hl & Hr & Hc1) & _);
        [|by apply fresh_stepc];
      assert (g = g1) as -> by (by destruct f; simplify_eq)
  end.
  done.
Qed.

End forest.

(** ** Checksums *)

Section checksum.
Context (bs : list BasicBlock.t).

Lemma mix_blocks_spec es ks acc :
  Forall2 (block_key bs) es ks ->
  SimpleLoop.mix_blocks bs es acc = Ok (fold_left mix ks acc).
Proof.
  intros H. revert acc. induction H as [|e k es ks (r & b & -> & Hb & <-) _ IH];
    intros acc; cbn; [done|].
  rewrite Hb. cbn. apply IH.
Qed.

Lemma mix_children_spec (sum : nat -> outcome Z) cs vs acc :
  Forall2 (fun c v => sum c = Ok v) cs vs ->
  SimpleLoop.mix_children sum cs acc = Ok (fold_left mix vs acc).
Proof.
  intros H. revert acc. induction H as [|c v cs vs Hc _ IH]; intros acc; cbn; [done|].
  rewrite Hc. cbn. apply IH.
Qed.

(** [checksum] computes the checksum of the specification, with the
    [name] of a block as its key. *)
Lemma checksum_spec fuel ls this l hk ks vs :
  ls !! this = Some l ->
  option_Forall2 (fun h k => block_key bs (Some h) k) (SimpleLoop.header l) hk ->
  Forall2 (block_key bs) (SimpleLoop.basicBlocks l) ks ->
  Forall2 (fun c v => SimpleLoop.checksum fuel bs ls c = Ok v)
    (SimpleLoop.children l) vs ->
  SimpleLoop.checksum (S fuel) bs ls this
    = Ok (spec_loop_checksum (SimpleLoop.counter l) (SimpleLoop.isRoot l)
            (SimpleLoop.isReducible l) (SimpleLoop.nestingLevel l)
            (SimpleLoop.depthLevel l) hk ks vs).
Proof.
  intros Hl Hh Hks Hvs. cbn. rewrite Hl. cbn. unfold spec_loop_checksum.
  destruct Hh as [h k (r & b & ? & Hb & Hk)|].
  - simplify_eq/=. rewrite Hb. cbn. erewrite mix_blocks_spec by done. cbn.
    by erewrite mix_children_spec.
  - cbn. erewrite mix_blocks_spec by done. cbn.
    by erewrite mix_children_spec.
Qed.

(** On a well-formed store the checksum of the loop at index [i] is
    defined as soon as the fuel exceeds [i]. *)
Lemma checksum_total ls fuel i :
  objs_ok bs ls -> (i < fuel)%nat -> (i < length ls)%nat ->
  exists v, SimpleLoop.checksum fuel bs ls i = Ok v.
Proof.
  intros (Hok & Hpar & Hroot). revert i.
  induction fuel as [|fuel IH]; intros i Hi Hlen; [lia|].
  destruct (lookup_lt_is_Some_2 ls i Hlen) as [l Hl].
  destruct (Hok _ _ Hl) as (_ & Hc & Hb & _ & Hh).
  assert (exists ks, Forall2 (block_key bs) (SimpleLoop.basicBlocks l) ks) as [ks Hks].
  { clear -Hb. induction Hb as [|e es (r & -> & Hr) _ [ks IHes]]; [by exists []|].
    destruct (lookup_lt_is_Some_2 bs r Hr) as [b Hbr].
    exists (BasicBlock.name b :: ks). constructor; [|done]. by exists r, b. }
  assert (exists vs, Forall2 (fun c v => SimpleLoop.checksum fuel bs ls c = Ok v)
                       (SimpleLoop.children l) vs) as [vs Hvs].
  { clear -Hc IH Hi Hlen. induction Hc as [|c cs Hc _ [vs IHcs]]; [by exists []|].
    destruct (IH c) as [v Hv]; [lia..|].
    exists (v :: vs). by constructor. }
  destruct (decide (i = 0%nat)) as [->|Hne].
  - rewrite Hroot in Hl. simplify_eq.
    eexists. eapply (checksum_spec _ _ _ _ None); try done. constructor.
  - destruct Hh as (h & rest & Hhd & Hrest); [lia|].
    rewrite Hrest in Hks. inversion Hks as [|? k ? ks' Hk Hks']; subst.
    eexists. eapply (checksum_spec _ _ _ _ (Some k)); try done.
    + rewrite Hhd. by constructor.
    + rewrite Hrest. by constructor.
Qed.

End checksum.

(** ** Worked graphs *)

Lemma self_loop_build :
  build self_loop_calls [] world0 CFG.new = Ok (self_loop_world, self_loop_cfg).
Proof. reflexivity. Qed.

Lemma self_loop_findLoops :
  HavlakLoopFinder.findLoops (blocks self_loop_world) self_loop_cfg LSG.new
    = Ok (2, self_loop_lsg).
Proof. vm_compute. reflexivity. Qed.

(** C1 (the code at the self-loop graph): [findLoops] returns 2, and the
    loop it creates has header A and members {A}, as the claim says, but
    [isReducible = false]: the header is classified [BB_SELF], not
    [BB_IRREDUCIBLE], and the code sets the flag to [true] exactly for
    [BB_IRREDUCIBLE]. *)
Theorem self_loop_isReducible_false :
  build self_loop_calls [] world0 CFG.new = Ok (self_loop_world, self_loop_cfg) /\
  HavlakLoopFinder.findLoops (blocks self_loop_world) self_loop_cfg LSG.new
    = Ok (2, self_loop_lsg) /\
  LSG.loops self_loop_lsg = [LSG.root self_loop_lsg; 1%nat] /\
  LSG.objs self_loop_lsg !! 1%nat = Some self_loop_record /\
  SimpleLoop.header self_loop_record = Some 0%nat /\
  SimpleLoop.basicBlocks self_loop_record = [Some 0%nat] /\
  SimpleLoop.isReducible self_loop_record = false.
Proof.
  split; [exact self_loop_build|]. split; [exact self_loop_findLoops|]. done.
Qed.

(** Whenever an iteration of step c creates a loop record, the record's
    [isReducible] is [true] exactly when the header ended up classified
    [BB_IRREDUCIBLE]. *)
Lemma find_loop_isReducible bs size w st g st' g' :
  stepc_inv bs (w + 1) st g ->
  HavlakLoopFinder.find_loop size w st g = Ok (HavlakLoopFinder.Next st', g') ->
  g' = g \/
  exists l, LSG.objs g' !! length (LSG.objs g) = Some l /\
    length (LSG.objs g') = S (length (LSG.objs g)) /\
    SimpleLoop.isReducible l
      = bool_decide (HavlakLoopFinder.types st' !! w
                     = Some HavlakLoopFinder.BB_IRREDUCIBLE).
Proof. intros Hinv H. by apply (find_loop_inv bs) in H as (_ & _ & ?). Qed.

(** C2 (the code at a block whose name is not its id): the checksum
    mixes in the [name] of the header and of the member, 7, where the
    specification mixes in the [id], 0. *)
Theorem checksum_mixes_name_not_id :
  SimpleLoop.checksum 1 named_blocks [named_loop] 0
    = Ok (spec_loop_checksum 1 false true 0 0 (Some 7) [7] []) /\
  spec_loop_checksum 1 false true 0 0 (Some 7) [7] [] = 101 /\
  spec_loop_checksum 1 false true 0 0 (Some 0) [0] [] = 80.
Proof. split; [|split]; reflexivity. Qed.

(** The [id] of a block never reaches a checksum: two block stores with
    the same names give the same result. *)
Lemma checksum_ignores_id fuel bs bs' ls this :
  BasicBlock.name <$> bs = BasicBlock.name <$> bs' ->
  SimpleLoop.checksum fuel bs ls this = SimpleLoop.checksum fuel bs' ls this.
Proof.
  intros Hn.
  assert (Hb : forall r, BasicBlock.name <$> bs !! r = BasicBlock.name <$> bs' !! r).
  { intros r. by rewrite <- !list_lookup_fmap, Hn. }
  assert (Hm : forall es acc,
    SimpleLoop.mix_blocks bs es acc = SimpleLoop.mix_blocks bs' es acc).
  { induction es as [|[r|] es IH]; intros acc; cbn; try done.
    specialize (Hb r). destruct (bs !! r), (bs' !! r); simplify_eq/=; try done.
    rewrite Hb. apply IH. }
  revert this. induction fuel as [|fuel IH]; intros this; cbn; [done|].
  destruct (ls !! this) as [l|]; cbn; [|done].
  assert (Hc : forall es acc,
    SimpleLoop.mix_children (SimpleLoop.checksum fuel bs ls) es acc
    = SimpleLoop.mix_children (SimpleLoop.checksum fuel bs' ls) es acc).
  { induction es as [|e es IHes]; intros acc; cbn; [done|].
    rewrite IH. destruct (SimpleLoop.checksum fuel bs' ls e); cbn; try done. }
  destruct (SimpleLoop.header l) as [h|]; cbn.
  - specialize (Hb h). destruct (bs !! h), (bs' !! h); simplify_eq/=; try done.
    rewrite Hb, Hm. destruct (SimpleLoop.mix_blocks _ _ _); cbn; try done.
  - rewrite Hm. destruct (SimpleLoop.mix_blocks _ _ _); cbn; try done.
Qed.

(** ** The loop-nesting forest *)

Lemma descendant_lt bs ls a d :
  objs_ok bs ls -> descendant ls a d -> (1 <= d < a)%nat.
Proof.
  intros (Hok & _ & _) H.
  induction H as [a l c Hl Hc|a l c d Hl Hc _ IH].
  - destruct (Hok _ _ Hl) as (_ & Hch & _).
    by eapply Forall_forall in Hch.
  - destruct (Hok _ _ Hl) as (_ & Hch & _).
    eapply Forall_forall in Hch; [|done]. lia.
Qed.

Lemma top_loop_total bs ls fuel i :
  objs_ok bs ls -> (i < length ls)%nat -> (length ls - i <= fuel)%nat ->
  exists t lt, top_loop fuel ls i = Some t /\ (i <= t)%nat /\
    ls !! t = Some lt /\ SimpleLoop.parent lt = None.
Proof.
  intros (Hok & _ & _). revert i.
  induction fuel as [|fuel IH]; intros i Hi Hf; [lia|].
  destruct (lookup_lt_is_Some_2 ls i Hi) as [l Hl].
  cbn. rewrite Hl. destruct (SimpleLoop.parent l) as [p|] eqn:Hp.
  - destruct (Hok _ _ Hl) as (Hpar & _). specialize (Hpar p Hp).
    destruct (IH p) as (t & lt & Ht & Hle & Hlt & Hnone); [lia..|].
    exists t, lt. split_and!; try done. lia.
  - by exists i, l.
Qed.

(** C10: on a fresh loop structure graph, every loop record that
    [findLoops] creates (every record but the root, at index 0) has a
    header [h] and lists it as its first member, so that the checksum of
    the record mixes in the name of [h] twice in a row: once as the
    header, once as the first member. *)
Theorem header_is_first_member (bs : list BasicBlock.t) (cfg : CFG.t)
    (n : Z) (g : LSG.t) (i : nat) (l : SimpleLoop.t) :
  HavlakLoopFinder.findLoops bs cfg LSG.new = Ok (n, g) ->
  (1 <= i)%nat ->
  LSG.objs g !! i = Some l ->
  exists h b rest,
    SimpleLoop.header l = Some h /\
    SimpleLoop.basicBlocks l = Some h :: rest /\
    bs !! h = Some b /\
    forall fuel,
      SimpleLoop.checksum (S fuel) bs (LSG.objs g) i =
        let result := SimpleLoop.counter l in
        let result := mix result (bool_to_Z (SimpleLoop.isRoot l)) in
        let result := mix result (bool_to_Z (SimpleLoop.isReducible l)) in
        let result := mix result (SimpleLoop.nestingLevel l) in
        let result := mix result (SimpleLoop.depthLevel l) in
        let result := mix result (BasicBlock.name b) in
        let result := mix result (BasicBlock.name b) in
        result ← SimpleLoop.mix_blocks bs rest result;
        SimpleLoop.mix_children (SimpleLoop.checksum fuel bs (LSG.objs g))
          (SimpleLoop.children l) result.
Proof.
  intros H Hi Hl.
  apply findLoops_forest in H as ((Hok & _ & _) & _).
  destruct (Hok _ _ Hl) as (_ & _ & Hb & _ & Hh).
  destruct (Hh Hi) as (h & rest & Hhd & Hrest).
  rewrite Hrest in Hb. apply Forall_cons in Hb as [(r & ? & Hr) _]. simplify_eq.
  destruct (lookup_lt_is_Some_2 bs r Hr) as [b Hbr].
  exists r, b, rest. split_and!; try done.
  intros fuel. cbn. rewrite Hl. cbn. rewrite Hhd, Hrest. cbn. rewrite Hbr. cbn.
  done.
Qed.

Lemma header_is_first_member_witness :
  exists h b rest,
    SimpleLoop.header self_loop_record = Some h /\
    SimpleLoop.basicBlocks self_loop_record = Some h :: rest /\
    blocks self_loop_world !! h = Some b /\
    forall fuel,
      SimpleLoop.checksum (S fuel) (blocks self_loop_world)
        (LSG.objs self_loop_lsg) 1 =
        let result := SimpleLoop.counter self_loop_record in
        let result := mix result (bool_to_Z (SimpleLoop.isRoot self_loop_record)) in
        let result := mix result (bool_to_Z (SimpleLoop.isReducible self_loop_record)) in
        let result := mix result (SimpleLoop.nestingLevel self_loop_record) in
        let result := mix result (SimpleLoop.depthLevel self_loop_record) in
        let result := mix result (BasicBlock.name b) in
        let result := mix result (BasicBlock.name b) in
        result ← SimpleLoop.mix_blocks (blocks self_loop_world) rest result;
        SimpleLoop.mix_children
          (SimpleLoop.checksum fuel (blocks self_loop_world) (LSG.objs self_loop_lsg))
          (SimpleLoop.children self_loop_record) result.
Proof.
  apply (header_is_first_member (blocks self_loop_world) self_loop_cfg 2
           self_loop_lsg 1 self_loop_record).
  - vm_compute. reflexivity.
  - lia.
  - reflexivity.
Defined.

(** C5 (as the code has it): after [findLoops] on a fresh loop structure
    graph, the root (index 0) has no parent and no children.  Every loop
    record has at most one parent; its parent, if it has one, was
    created after it and lists it among its children; its children were
    created before it and are never the root.  Following the parent
    links from any loop therefore ends, after finitely many steps, in a
    loop without parent (which is the root only when one starts from the
    root), and no loop is its own descendant nor has the root as a
    descendant. *)
Theorem loop_forest_well_formed (bs : list BasicBlock.t) (cfg : CFG.t)
    (n : Z) (g : LSG.t) :
  HavlakLoopFinder.findLoops bs cfg LSG.new = Ok (n, g) ->
  LSG.root g = 0%nat /\
  LSG.objs g !! 0%nat = Some root_record /\
  SimpleLoop.parent root_record = None /\
  SimpleLoop.children root_record = [] /\
  forall i l, LSG.objs g !! i = Some l ->
    (forall p, SimpleLoop.parent l = Some p ->
       (i < p < length (LSG.objs g))%nat /\
       exists lp, LSG.objs g !! p = Some lp /\ i ∈ SimpleLoop.children lp) /\
    (forall c, c ∈ SimpleLoop.children l -> (1 <= c < i)%nat) /\
    (exists t lt,
       top_loop (length (LSG.objs g)) (LSG.objs g) i = Some t /\
       LSG.objs g !! t = Some lt /\ SimpleLoop.parent lt = None /\ (i <= t)%nat) /\
    ~ descendant (LSG.objs g) i i /\
    ~ descendant (LSG.objs g) i (LSG.root g).
Proof.
  intros H. apply findLoops_forest in H as (Hobjs & _ & Hroot & _).
  pose proof Hobjs as (Hok & Hpar & Hr0).
  split_and!; try done.
  intros i l Hl. destruct (Hok _ _ Hl) as (Hp & Hc & _).
  split_and!.
  - intros p Hpp. split; [by apply Hp|by eapply Hpar].
  - intros c Hin. by eapply Forall_forall in Hc.
  - destruct (top_loop_total bs (LSG.objs g) (length (LSG.objs g)) i Hobjs)
      as (t & lt & ? & ? & ? & ?); [by eapply lookup_lt_Some|lia|].
    by exists t, lt.
  - intros Hd. apply (descendant_lt bs) in Hd; [lia|done].
  - intros Hd. apply (descendant_lt bs) in Hd; [lia|done].
Qed.

Lemma loop_forest_well_formed_witness :
  LSG.root self_loop_lsg = 0%nat /\
  LSG.objs self_loop_lsg !! 0%nat = Some root_record /\
  SimpleLoop.parent root_record = None /\
  SimpleLoop.children root_record = [] /\
  forall i l, LSG.objs self_loop_lsg !! i = Some l ->
    (forall p, SimpleLoop.parent l = Some p ->
       (i < p < length (LSG.objs self_loop_lsg))%nat /\
       exists lp, LSG.objs self_loop_lsg !! p = Some lp /\ i ∈ SimpleLoop.children lp) /\
    (forall c, c ∈ SimpleLoop.children l -> (1 <= c < i)%nat) /\
    (exists t lt,
       top_loop (length (LSG.objs self_loop_lsg)) (LSG.objs self_loop_lsg) i = Some t /\
       LSG.objs self_loop_lsg !! t = Some lt /\ SimpleLoop.parent lt = None /\
       (i <= t)%nat) /\
    ~ descendant (LSG.objs self_loop_lsg) i i /\
    ~ descendant (LSG.objs self_loop_lsg) i (LSG.root self_loop_lsg).
Proof.
  apply (loop_forest_well_formed (blocks self_loop_world) self_loop_cfg 2 self_loop_lsg).
  vm_compute. reflexivity.
Defined.

(** C5 (as stated) fails on the self-loop graph: the loop that
    [findLoops] creates is not the root, yet it has no parent, and the
    parent links from it end in itself, not in the root. *)
Lemma top_level_loop_has_no_parent :
  HavlakLoopFinder.findLoops (blocks self_loop_world) self_loop_cfg LSG.new
    = Ok (2, self_loop_lsg) /\
  LSG.objs self_loop_lsg !! 1%nat = Some self_loop_record /\
  1%nat ≠ LSG.root self_loop_lsg /\
  SimpleLoop.isRoot self_loop_record = false /\
  SimpleLoop.parent self_loop_record = None /\
  top_loop 2 (LSG.objs self_loop_lsg) 1 = Some 1%nat.
Proof. split; [exact self_loop_findLoops|]. done. Qed.

(** C3 (as the code has it): after [findLoops] on a fresh loop structure
    graph, the stored sequence of loops starts with the root and goes on
    with the other loops in the order of their creation, which is the
    order of their serial ids.  The forest checksum starts from the
    number of loops, mixes in the checksum of every loop in that order,
    the root first, and then the checksum of the root once more; with
    the number of loop records as fuel it is defined. *)
Theorem forest_checksum_root_first (bs : list BasicBlock.t) (cfg : CFG.t)
    (n : Z) (g : LSG.t) :
  HavlakLoopFinder.findLoops bs cfg LSG.new = Ok (n, g) ->
  LSG.loops g = LSG.root g :: seq 1 (length (LSG.objs g) - 1) /\
  (forall i l, LSG.objs g !! i = Some l -> SimpleLoop.counter l = Z.of_nat i) /\
  exists r cs,
    SimpleLoop.checksum (length (LSG.objs g)) bs (LSG.objs g) (LSG.root g) = Ok r /\
    Forall2 (fun i c => SimpleLoop.checksum (length (LSG.objs g)) bs (LSG.objs g) i = Ok c)
      (seq 1 (length (LSG.objs g) - 1)) cs /\
    LSG.checksum (length (LSG.objs g)) bs g = Ok (spec_forest_checksum (r :: cs) r).
Proof.
  intros H. apply findLoops_forest in H as (Hobjs & Hloops & Hroot & _).
  pose proof Hobjs as (Hok & _ & Hr0).
  assert (Hlen : (1 <= length (LSG.objs g))%nat).
  { apply lookup_lt_Some in Hr0. lia. }
  assert (Hseq : LSG.loops g = LSG.root g :: seq 1 (length (LSG.objs g) - 1)).
  { rewrite Hloops, Hroot. destruct (length (LSG.objs g)) as [|k]; [lia|].
    cbn. by rewrite Nat.sub_0_r. }
  split; [done|]. split.
  { intros i l Hl. by destruct (Hok _ _ Hl) as (_ & _ & _ & ? & _). }
  destruct (checksum_total bs (LSG.objs g) (length (LSG.objs g)) (LSG.root g) Hobjs)
    as [r Hr]; [lia..|].
  assert (exists cs,
    Forall2 (fun i c => SimpleLoop.checksum (length (LSG.objs g)) bs (LSG.objs g) i = Ok c)
      (seq 1 (length (LSG.objs g) - 1)) cs) as [cs Hcs].
  { assert (Hall : Forall (fun i => (i < length (LSG.objs g))%nat)
                     (seq 1 (length (LSG.objs g) - 1))).
    { apply Forall_forall. intros i Hi%elem_of_seq. lia. }
    revert Hall. generalize (seq 1 (length (LSG.objs g) - 1)). intros idx Hall.
    induction Hall as [|i rest Hi _ [cs IH]]; [by exists []|].
    destruct (checksum_total bs (LSG.objs g) (length (LSG.objs g)) i Hobjs)
      as [c Hc]; [lia..|].
    exists (c :: cs). by constructor. }
  exists r, cs. split_and!; try done.
  unfold LSG.checksum, spec_forest_checksum.
  erewrite mix_children_spec; [|rewrite Hseq; by constructor].
  cbn. rewrite Hr. cbn. rewrite Hseq. cbn.
  by rewrite (Forall2_length _ _ _ Hcs).
Qed.

Lemma forest_checksum_root_first_witness :
  LSG.loops self_loop_lsg
    = LSG.root self_loop_lsg :: seq 1 (length (LSG.objs self_loop_lsg) - 1) /\
  (forall i l, LSG.objs self_loop_lsg !! i = Some l ->
     SimpleLoop.counter l = Z.of_nat i) /\
  exists r cs,
    SimpleLoop.checksum (length (LSG.objs self_loop_lsg)) (blocks self_loop_world)
      (LSG.objs self_loop_lsg) (LSG.root self_loop_lsg) = Ok r /\
    Forall2 (fun i c =>
               SimpleLoop.checksum (length (LSG.objs self_loop_lsg))
                 (blocks self_loop_world) (LSG.objs self_loop_lsg) i = Ok c)
      (seq 1 (length (LSG.objs self_loop_lsg) - 1)) cs /\
    LSG.checksum (length (LSG.objs self_loop_lsg)) (blocks self_loop_world)
      self_loop_lsg = Ok (spec_forest_checksum (r :: cs) r).
Proof.
  apply (forest_checksum_root_first (blocks self_loop_world) self_loop_cfg 2
           self_loop_lsg).
  vm_compute. reflexivity.
Defined.

(** C3 (as stated) fails on the self-loop graph: its two loops have the
    checksums 12 (the root) and 64, and the forest checksum is 204, the
    value for the order root, loop; mixing the root last gives 308. *)
Lemma forest_checksum_not_root_last :
  SimpleLoop.checksum 2 (blocks self_loop_world) (LSG.objs self_loop_lsg) 0 = Ok 12 /\
  SimpleLoop.checksum 2 (blocks self_loop_world) (LSG.objs self_loop_lsg) 1 = Ok 64 /\
  LSG.checksum 2 (blocks self_loop_world) self_loop_lsg
    = Ok (spec_forest_checksum [12; 64] 12) /\
  LSG.checksum 2 (blocks self_loop_world) self_loop_lsg
    ≠ Ok (spec_forest_checksum [64; 12] 12).
Proof. split_and!; try reflexivity. vm_compute. discriminate. Qed.

(** ** The numbering pass *)

Section dfs_spec.
Context (bs : list BasicBlock.t).

Lemma reachable_trans r x y : reachable bs r x -> reachable bs x y -> reachable bs r y.
Proof. intros Hx Hy. induction Hy; [done|]. by eapply reachable_edge. Qed.

(** What a logged traversal visits lies within reach, and the log is
    closed: every out-edge of a logged block leads to a block that was
    visited before or is logged. *)
Lemma dfs_sound :
  (forall V r log, dfs_visit bs V r log ->
     (forall x, x ∈ log.*1 -> reachable bs r x) /\
     (forall x b e, x ∈ log.*1 -> bs !! x = Some b -> e ∈ BasicBlock.outEdges b ->
        e ∈ V ++ log.*1) /\
     r ∈ log.*1 /\
     (NoDup V -> r ∉ V -> NoDup (V ++ log.*1)) /\
     Forall (fun '(_, m) => (1 <= m)%nat) log) /\
  (forall V es log, dfs_targets bs V es log ->
     (forall x, x ∈ log.*1 -> exists e, e ∈ es /\ reachable bs e x) /\
     (forall x b e, x ∈ log.*1 -> bs !! x = Some b -> e ∈ BasicBlock.outEdges b ->
        e ∈ V ++ log.*1) /\
     (forall e, e ∈ es -> e ∈ V ++ log.*1) /\
     (NoDup V -> NoDup (V ++ log.*1)) /\
     Forall (fun '(_, m) => (1 <= m)%nat) log).
Proof.
  apply dfs_mutind.
  - intros V r b kids Hb _ (Hreach & Hclosed & Hes & Hnd & Hm). cbn.
    assert (Heq : V ++ r :: kids.*1 = (V ++ [r]) ++ kids.*1)
      by (by rewrite <- app_assoc).
    rewrite Heq. split_and!.
    + intros x [->|Hx]%elem_of_cons; [constructor|].
      destruct (Hreach x Hx) as (e & He & Hex).
      eapply reachable_trans; [|done].
      eapply reachable_edge; [constructor|done..].
    + intros x b' e [->|Hx]%elem_of_cons Hb' He.
      * simplify_eq. by apply Hes.
      * by apply (Hclosed x b' e).
    + set_solver.
    + intros HV Hr. apply Hnd.
      apply NoDup_app. split_and!; [done|set_solver|apply NoDup_singleton].
    + constructor; [lia|done].
  - intros V. cbn. split_and!; try done; try set_solver.
    by rewrite app_nil_r.
  - intros V e es log He _ (Hreach & Hclosed & Hes & Hnd & Hm).
    split_and!; try done.
    + intros x Hx. destruct (Hreach x Hx) as (e' & ? & ?). exists e'. set_solver.
    + intros e' [->|He']%elem_of_cons; [set_solver|by apply Hes].
  - intros V e es log1 log2 He _ (Hr1 & Hc1 & He1 & Hn1 & Hm1) _
      (Hr2 & Hc2 & He2 & Hn2 & Hm2).
    rewrite fmap_app. split_and!.
    + intros x [Hx|Hx]%elem_of_app.
      * exists e. split; [set_solver|by apply Hr1].
      * destruct (Hr2 x Hx) as (e' & ? & ?). exists e'. set_solver.
    + intros x b e' [Hx|Hx]%elem_of_app Hb He'.
      * specialize (Hc1 x b e' Hx Hb He'). set_solver.
      * specialize (Hc2 x b e' Hx Hb He'). by rewrite <- app_assoc in Hc2.
    + intros e' [->|He']%elem_of_cons; [set_solver|].
      specialize (He2 e' He'). by rewrite <- app_assoc in He2.
    + intros HV. rewrite (assoc_L _ V). apply Hn2. by apply Hn1.
    + by apply Forall_app.
Qed.

(** A traversal from [s] with nothing visited before logs exactly the
    blocks within reach of [s], each once. *)
Lemma dfs_visit_complete s log :
  (forall x, reachable bs s x -> is_Some (bs !! x)) ->
  dfs_visit bs [] s log ->
  (forall x, reachable bs s x <-> x ∈ log.*1) /\ NoDup log.*1.
Proof.
  intros Hex H. destruct (proj1 dfs_sound _ _ _ H) as (Hreach & Hclosed & Hs & Hnd & _).
  split; [|apply Hnd; [constructor|set_solver]].
  intros x. split; [|apply Hreach].
  induction 1 as [|x b e Hx IH Hb He]; [done|].
  by apply (Hclosed x b e).
Qed.

(** The entry [(x, m)] at position [i] of a log stands for the subtree
    of [x]: the [m] entries from [i] on are the traversal from [x]
    itself, begun when the blocks before position [i] had been
    visited. *)
Lemma dfs_segment :
  (forall V r log, dfs_visit bs V r log ->
     forall i x m, log !! i = Some (x, m) ->
       (i + m <= length log)%nat /\
       dfs_visit bs (V ++ take i log.*1) x (take m (drop i log))) /\
  (forall V es log, dfs_targets bs V es log ->
     forall i x m, log !! i = Some (x, m) ->
       (i + m <= length log)%nat /\
       dfs_visit bs (V ++ take i log.*1) x (take m (drop i log))).
Proof.
  apply dfs_mutind.
  - intros V r b kids Hb Hkids IH [|i] x m Hi; cbn in Hi.
    + simplify_eq. split; [cbn; lia|].
      rewrite take_0, app_nil_r, drop_0, take_ge by (cbn; lia).
      by econstructor.
    + destruct (IH _ _ _ Hi) as [Hle Hv]. split; [cbn; lia|].
      cbn. by rewrite cons_middle, (assoc_L _ V).
  - intros V i x m Hi. done.
  - intros V e es log He _ IH i x m Hi. by apply IH.
  - intros V e es log1 log2 He _ IH1 _ IH2 i x m Hi.
    rewrite length_app, fmap_app.
    destruct (decide (i < length log1)%nat) as [Hlt|Hge].
    + rewrite lookup_app_l in Hi by done.
      destruct (IH1 _ _ _ Hi) as [Hle Hv]. split; [lia|].
      rewrite take_app_le by (rewrite length_fmap; lia).
      rewrite drop_app_le by lia.
      rewrite take_app_le by (rewrite length_drop; lia). done.
    + rewrite lookup_app_r in Hi by lia.
      destruct (IH2 _ _ _ Hi) as [Hle Hv]. split; [lia|].
      rewrite take_app_ge by (rewrite length_fmap; lia).
      rewrite drop_app_ge by lia.
      rewrite length_fmap. by rewrite (assoc_L _ V).
Qed.

End dfs_spec.

Section dfs_impl.
Import HavlakLoopFinder.
Context (bs : list BasicBlock.t) (size : Z) (s : nat).
Context (Hkeys : keys_ok bs size s).

(** A block within reach has been visited exactly when the entry of
    [numbers] for its name is no longer [UNVISITED]. *)
Lemma numbered_unvisited V st e tb :
  numbered bs size s V st -> reachable bs s e -> bs !! e = Some tb ->
  numbers st !! BasicBlock.name tb = Some UNVISITED <-> e ∉ V.
Proof.
  intros (Hreach & Hnd & Hnum & Hinv & Hdom & _) He Htb. split.
  - intros Hu [i Hi]%list_elem_of_lookup.
    destruct (Hnum _ _ Hi) as (b & Hb & Hn & _). simplify_eq.
    unfold UNVISITED in *. lia.
  - intros Hne. destruct (Hkeys e He) as (b & Hb & Hrange & Hinj). simplify_eq.
    destruct (Hdom _ Hrange) as [v Hv]. rewrite Hv. f_equal.
    destruct (Hinv _ _ Hv) as [->|(i & x & b' & -> & Hx & Hb' & Hname)]; [done|].
    exfalso. apply Hne. apply list_elem_of_lookup_2 in Hx as Hin.
    rewrite <- (Hinj x b' (Hreach _ Hin) Hb' Hname). done.
Qed.

(** There are no more visited blocks than names. *)
Lemma numbered_room V st r :
  numbered bs size s V st -> reachable bs s r -> r ∉ V -> Z.of_nat (length V) < size.
Proof.
  intros (Hreach & Hnd & _) Hr Hne.
  set (key := fun x => from_option BasicBlock.name 0 (bs !! x)).
  assert (Hall : forall x, x ∈ V ++ [r] -> reachable bs s x) by set_solver.
  assert (Hnd' : NoDup (key <$> (V ++ [r]))).
  { apply NoDup_fmap_2_strong.
    - intros x y Hx Hy Hxy. unfold key in Hxy.
      destruct (Hkeys x (Hall _ Hx)) as (bx & Hbx & _ & _).
      destruct (Hkeys y (Hall _ Hy)) as (b & Hb & _ & Hinj).
      rewrite Hbx, Hb in Hxy. cbn in Hxy. by apply (Hinj x bx (Hall _ Hx)).
    - apply NoDup_app. split_and!; [done|set_solver|apply NoDup_singleton]. }
  assert (Hsub : key <$> (V ++ [r]) ⊆+ seqZ 0 size).
  { apply NoDup_submseteq; [done|]. intros k (x & -> & Hx)%list_elem_of_fmap.
    destruct (Hkeys x (Hall _ Hx)) as (b & Hb & Hrange & _).
    unfold key. rewrite Hb. cbn. apply elem_of_seqZ. lia. }
  apply submseteq_length in Hsub.
  rewrite length_fmap, length_app, length_seqZ in Hsub. cbn in Hsub. lia.
Qed.

(** Entering a block: [initNode] and the assignment to [numbers]. *)
Lemma numbered_enter V st r b nd :
  numbered bs size s V st -> reachable bs s r -> r ∉ V ->
  bs !! r = Some b ->
  nodes st !! Z.of_nat (length V) = Some nd -> UnionFindNode.loop nd = None ->
  numbered bs size s (V ++ [r])
    (set_numbers (<[BasicBlock.name b := Z.of_nat (length V)]> (numbers st))
       (set_nodes
          (<[Z.of_nat (length V) :=
               UnionFindNode.initNode (Z.of_nat (length V)) r (Z.of_nat (length V)) nd]>
             (nodes st)) st)).
Proof.
  intros Hst Hr Hne Hb Hnd Hloop.
  pose proof (numbered_room _ _ _ Hst Hr Hne) as Hroom.
  destruct Hst as (Hreach & Hdup & Hnum & Hinv & Hdom & Hnodes).
  split_and!; cbn.
  - intros x [Hx| ->%list_elem_of_singleton]%elem_of_app; eauto.
  - apply NoDup_app. split_and!; [done|set_solver|apply NoDup_singleton].
  - intros i x Hi. destruct (decide (i < length V)%nat) as [Hlt|Hge].
    + rewrite lookup_app_l in Hi by done.
      destruct (Hnum _ _ Hi) as (bx & Hbx & Hn & Hnode).
      exists bx. split_and!; [done| |].
      * rewrite lookup_insert_ne; [done|].
        intros Heq. apply list_elem_of_lookup_2 in Hi.
        destruct (Hkeys r Hr) as (b' & Hb' & _ & Hinj). simplify_eq.
        apply Hne. by rewrite <- (Hinj x bx (Hreach _ Hi) Hbx).
      * rewrite lookup_insert_ne by lia. done.
    + rewrite lookup_app_r in Hi by lia.
      destruct (i - length V)%nat as [|j] eqn:Ej; [|by destruct j].
      cbn in Hi. simplify_eq. assert (i = length V) as -> by lia.
      exists b. rewrite !lookup_insert_eq. unfold UnionFindNode.initNode.
      by rewrite Hloop.
  - intros k v. destruct (decide (k = BasicBlock.name b)) as [->|Hk].
    + rewrite lookup_insert_eq. intros ?. simplify_eq. right.
      exists (length V), r, b. split_and!; try done.
      by rewrite list_lookup_middle.
    + rewrite lookup_insert_ne by done. intros Hv.
      destruct (Hinv _ _ Hv) as [->|(i & x & bx & -> & Hx & Hbx & Hname)]; [by left|].
      right. exists i, x, bx. split_and!; try done.
      rewrite lookup_app_l; [done|]. by eapply lookup_lt_Some.
  - intros k Hk. destruct (decide (k = BasicBlock.name b)) as [->|Hne'].
    + rewrite lookup_insert_eq. eauto.
    + rewrite lookup_insert_ne by done. by apply Hdom.
  - intros i Hi. destruct (decide (i = Z.of_nat (length V))) as [->|Hne'].
    + rewrite lookup_insert_eq. eexists. split; [done|]. done.
    + rewrite lookup_insert_ne by done. by apply Hnodes.
Qed.

Lemma numbered_set_last V st l :
  numbered bs size s V st -> numbered bs size s V (set_last l st).
Proof. done. Qed.

Lemma DFS_targets_refines fuel :
  (forall r V st,
     numbered bs size s V st -> reachable bs s r -> r ∉ V ->
     (Z.to_nat size < fuel + length V)%nat ->
     exists log, dfs_visit bs V r log /\
       visit_post bs size s V st log (DFS fuel bs r st (Z.of_nat (length V)))) ->
  forall es V st,
    numbered bs size s V st -> (forall e, e ∈ es -> reachable bs s e) ->
    (Z.to_nat size < fuel + length V)%nat ->
    exists log, dfs_targets bs V es log /\
      visit_post bs size s V st log
        (DFS_targets (DFS fuel bs) bs es (Z.of_nat (length V) - 1) st).
Proof.
  intros IH. induction es as [|e es IHes]; intros V st Hst Hes Hfuel.
  - exists []. split; [constructor|]. exists st. cbn.
    rewrite Nat.add_0_r, app_nil_r. split_and!; try done.
  - assert (He : reachable bs s e) by (apply Hes; set_solver).
    destruct (Hkeys e He) as (tb & Htb & _).
    cbn. rewrite Htb. cbn.
    pose proof (numbered_unvisited _ _ _ _ Hst He Htb) as Hu.
    case_decide as Hdec.
    + apply Hu in Hdec.
      destruct (IH e V st Hst He Hdec Hfuel)
        as (log1 & Hv1 & st1 & Hr1 & Hst1 & Hsp1 & Hfr1).
      replace (Z.of_nat (length V) - 1 + 1) with (Z.of_nat (length V)) by lia.
      rewrite Hr1. cbn.
      destruct (IHes (V ++ log1.*1) st1 Hst1) as (log2 & Hv2 & st2 & Hr2 & Hst2 & Hsp2 & Hfr2).
      { intros e' He'. apply Hes. set_solver. }
      { rewrite length_app. lia. }
      rewrite length_app, length_fmap in Hr2, Hsp2, Hfr2.
      exists (log1 ++ log2). split; [by constructor|].
      exists st2. rewrite length_app, fmap_app, (assoc_L _ V).
      split_and!; try done.
      * rewrite Hr2. do 3 f_equal. lia.
      * intros i x m Hi. destruct (decide (i < length log1)%nat) as [Hlt|Hge].
        -- rewrite lookup_app_l in Hi by done.
           rewrite Hfr2 by lia. exact (Hsp1 i x m Hi).
        -- rewrite lookup_app_r in Hi by lia.
           specialize (Hsp2 _ _ _ Hi).
           replace (length V + length log1 + (i - length log1))%nat
             with (length V + i)%nat in Hsp2 by lia.
           done.
      * intros j Hj. rewrite Hfr2 by lia. apply Hfr1. lia.
    + assert (Hin : e ∈ V) by (destruct (decide (e ∈ V)); [done|by apply Hu in n]).
      destruct (IHes V st Hst) as (log & Hv & Hpost); [set_solver|done|].
      exists log. split; [by constructor|done].
Qed.

Lemma DFS_refines fuel r V st :
  numbered bs size s V st -> reachable bs s r -> r ∉ V ->
  (Z.to_nat size < fuel + length V)%nat ->
  exists log, dfs_visit bs V r log /\
    visit_post bs size s V st log (DFS fuel bs r st (Z.of_nat (length V))).
Proof.
  revert r V st. induction fuel as [|fuel IH]; intros r V st Hst Hr Hne Hfuel.
  { pose proof (numbered_room _ _ _ Hst Hr Hne). lia. }
  pose proof (numbered_room _ _ _ Hst Hr Hne) as Hroom.
  destruct (Hkeys r Hr) as (b & Hb & Hrange & _).
  pose proof Hst as (_ & _ & _ & _ & _ & Hnodes).
  destruct (Hnodes (Z.of_nat (length V))) as (nd & Hnd & Hloop); [lia|].
  pose proof (numbered_enter _ _ _ _ _ Hst Hr Hne Hb Hnd Hloop) as Hst1.
  destruct (DFS_targets_refines fuel IH (BasicBlock.outEdges b) _ _ Hst1)
    as (kids & Hkids & st2 & Hr2 & Hst2 & Hsp2 & Hfr2).
  { intros e He. by eapply reachable_edge. }
  { rewrite length_app. cbn. lia. }
  rewrite length_app in Hr2, Hsp2, Hfr2. cbn [length] in Hr2, Hsp2, Hfr2.
  exists ((r, S (length kids)) :: kids). split; [by econstructor|].
  cbn [DFS]. rewrite Hnd. cbn. rewrite Hb. cbn.
  replace (Z.of_nat (length V + 1) - 1) with (Z.of_nat (length V)) in Hr2 by lia.
  rewrite Hr2. cbn.
  assert (Hc : numbers st2 !! BasicBlock.name b = Some (Z.of_nat (length V))).
  { destruct Hst2 as (_ & _ & Hnum & _).
    destruct (Hnum (length V) r) as (b' & Hb' & Hn & _).
    { rewrite lookup_app_l by (rewrite length_app; cbn; lia).
      by rewrite list_lookup_middle. }
    by simplify_eq. }
  rewrite Hc. eexists. split_and!.
  - do 3 f_equal. cbn. lia.
  - cbn. by rewrite <- app_assoc in Hst2.
  - intros i x m Hi. cbn. destruct i as [|i]; cbn in Hi.
    + simplify_eq. rewrite Nat.add_0_r, lookup_insert_eq. do 2 f_equal. lia.
    + rewrite lookup_insert_ne by lia. specialize (Hsp2 _ _ _ Hi).
      replace (length V + 1 + i)%nat with (length V + S i)%nat in Hsp2 by lia.
      done.
  - intros j Hj. cbn in *. rewrite lookup_insert_ne by lia.
    rewrite Hfr2 by lia. done.
Qed.

Lemma init_state_numbered : 0 <= size -> numbered bs size s [] (init_state size).
Proof.
  intros Hsize.
  assert (Hlook : forall {A} (x : A) k,
    (list_to_map ((fun i => (i, x)) <$> seqZ 0 size) : gmap Z A) !! k
    = if decide (0 <= k < size) then Some x else None).
  { intros A x k. case_decide as Hk.
    - apply elem_of_list_to_map_1.
      + rewrite <- list_fmap_compose. cbn. rewrite list_fmap_id. apply NoDup_seqZ.
      + apply list_elem_of_fmap. exists k. split; [done|]. apply elem_of_seqZ. lia.
    - apply not_elem_of_list_to_map_1. rewrite <- list_fmap_compose. cbn.
      rewrite list_fmap_id. rewrite elem_of_seqZ. lia. }
  split_and!; cbn.
  - intros x Hx. by apply elem_of_nil in Hx.
  - constructor.
  - intros i x Hi. done.
  - intros k v. rewrite Hlook. case_decide; intros; simplify_eq. by left.
  - intros k Hk. rewrite Hlook. rewrite decide_True by done. eauto.
  - intros i Hi. rewrite Hlook. rewrite decide_True by done. eauto.
Qed.

End dfs_impl.

(** C4 (as the code has it): when the graph has a start node and the
    blocks within its reach carry pairwise distinct names in
    [0, node count), the call of [DFS] that [findLoops] makes returns,
    and what it leaves is the depth-first traversal [log] from the start
    node, out-edges taken in their stored order.  The blocks logged are
    exactly those within reach, each once; the block at position [i] of
    the log, with subtree size [m], has the number [i] (positions count
    from 0, the start node first), the union-find node [i] is
    initialised with it, [last[i]] is [i + m - 1], the number of the
    last block of its subtree (the [m] entries from [i] on, which are
    the traversal from that block itself), and [isAncestor(i, v)] holds
    exactly for [i <= v <= last[i]].  No other name is numbered. *)
Theorem DFS_numbering (bs : list BasicBlock.t) (cfg : CFG.t) (s : nat) :
  CFG.startNode cfg = Some s ->
  keys_ok bs (CFG.getNumNodes cfg) s ->
  exists log st,
    HavlakLoopFinder.DFS (S (Z.to_nat (CFG.getNumNodes cfg))) bs s
      (HavlakLoopFinder.init_state (CFG.getNumNodes cfg)) 0
      = Ok (Z.of_nat (length log) - 1, st) /\
    dfs_visit bs [] s log /\
    (forall x, reachable bs s x <-> x ∈ log.*1) /\
    NoDup log.*1 /\
    (forall i x m, log !! i = Some (x, m) ->
       (exists b, bs !! x = Some b /\
          HavlakLoopFinder.numbers st !! BasicBlock.name b = Some (Z.of_nat i)) /\
       HavlakLoopFinder.nodes st !! Z.of_nat i
         = Some (UnionFindNode.mk (Z.of_nat i) (Some (Z.of_nat i)) (Some x) None) /\
       (i + m <= length log)%nat /\
       dfs_visit bs (take i log.*1) x (take m (drop i log)) /\
       HavlakLoopFinder.last st !! Z.of_nat i = Some (Z.of_nat (i + m) - 1) /\
       (forall v, HavlakLoopFinder.isAncestor (Z.of_nat i) (Some v)
                    (HavlakLoopFinder.last st) = true
                  <-> Z.of_nat i <= v <= Z.of_nat (i + m) - 1)) /\
    (forall k v, HavlakLoopFinder.numbers st !! k = Some v ->
       v ≠ HavlakLoopFinder.UNVISITED ->
       exists i x m b, v = Z.of_nat i /\ log !! i = Some (x, m) /\
         bs !! x = Some b /\ BasicBlock.name b = k).
Proof.
  intros _ Hkeys.
  assert (Hsize : 0 <= CFG.getNumNodes cfg) by (unfold CFG.getNumNodes; lia).
  destruct (DFS_refines bs _ s Hkeys (S (Z.to_nat (CFG.getNumNodes cfg))) s []
              (HavlakLoopFinder.init_state (CFG.getNumNodes cfg)))
    as (log & Hlog & st & Hres & Hst & Hsp & _).
  { by apply init_state_numbered. }
  { constructor. }
  { set_solver. }
  { cbn. lia. }
  cbn in Hres, Hst, Hsp.
  destruct (dfs_visit_complete bs s log) as [Hreach Hnd]; [|done|].
  { intros x Hx. destruct (Hkeys x Hx) as (b & -> & _). eauto. }
  destruct Hst as (_ & _ & Hnum & Hinv & _).
  exists log, st. split_and!; try done.
  - intros i x m Hi.
    destruct (Hnum i x) as (b & Hb & Hn & Hnode).
    { by rewrite list_lookup_fmap, Hi. }
    destruct (proj1 (dfs_segment bs) _ _ _ Hlog _ _ _ Hi) as [Hle Hseg].
    specialize (Hsp _ _ _ Hi). cbn in Hsp.
    split_and!; eauto.
    intros v. unfold HavlakLoopFinder.isAncestor. rewrite Hsp.
    rewrite andb_true_iff, !Z.leb_le. done.
  - intros k v Hv Hne.
    destruct (Hinv _ _ Hv) as [->|(i & x & b & -> & Hx & Hb & Hname)]; [done|].
    rewrite list_lookup_fmap in Hx.
    destruct (log !! i) as [[x' m]|] eqn:Hi; simplify_eq/=.
    by eexists i, _, m, b.
Qed.

Lemma dense_keys_ok bs s :
  dense bs = true -> (s < length bs)%nat -> keys_ok bs (Z.of_nat (length bs)) s.
Proof.
  intros Hd Hs.
  assert (Hblock : forall r b, bs !! r = Some b ->
    BasicBlock.name b = Z.of_nat r /\
    forall e, e ∈ BasicBlock.outEdges b -> (e < length bs)%nat).
  { intros r b Hb. unfold dense in Hd. rewrite forallb_forall in Hd.
    specialize (Hd (r, b)). cbn in Hd.
    rewrite andb_true_iff, Z.eqb_eq, forallb_forall in Hd.
    destruct Hd as [Hn He].
    { apply list_elem_of_In, list_elem_of_lookup. exists r.
      by rewrite list_lookup_imap, Hb. }
    split; [done|]. intros e Hin%list_elem_of_In.
    specialize (He e Hin). by apply Nat.ltb_lt in He. }
  assert (Hin : forall x, reachable bs s x -> (x < length bs)%nat).
  { induction 1 as [|x b e _ _ Hb He]; [done|].
    by apply (Hblock x b Hb). }
  intros x Hx. destruct (lookup_lt_is_Some_2 bs x (Hin x Hx)) as [b Hb].
  destruct (Hblock _ _ Hb) as [Hname _].
  exists b. split_and!; [done|lia|apply lookup_lt_Some in Hb; lia|].
  intros y b' Hy Hb' Hnn. destruct (Hblock _ _ Hb') as [Hname' _]. lia.
Qed.

Lemma DFS_numbering_witness :
  exists log st,
    HavlakLoopFinder.DFS (S (Z.to_nat (CFG.getNumNodes nested_cfg))) nested_blocks 0
      (HavlakLoopFinder.init_state (CFG.getNumNodes nested_cfg)) 0
      = Ok (Z.of_nat (length log) - 1, st) /\
    dfs_visit nested_blocks [] 0 log /\
    (forall x, reachable nested_blocks 0 x <-> x ∈ log.*1) /\
    NoDup log.*1 /\
    (forall i x m, log !! i = Some (x, m) ->
       (exists b, nested_blocks !! x = Some b /\
          HavlakLoopFinder.numbers st !! BasicBlock.name b = Some (Z.of_nat i)) /\
       HavlakLoopFinder.nodes st !! Z.of_nat i
         = Some (UnionFindNode.mk (Z.of_nat i) (Some (Z.of_nat i)) (Some x) None) /\
       (i + m <= length log)%nat /\
       dfs_visit nested_blocks (take i log.*1) x (take m (drop i log)) /\
       HavlakLoopFinder.last st !! Z.of_nat i = Some (Z.of_nat (i + m) - 1) /\
       (forall v, HavlakLoopFinder.isAncestor (Z.of_nat i) (Some v)
                    (HavlakLoopFinder.last st) = true
                  <-> Z.of_nat i <= v <= Z.of_nat (i + m) - 1)) /\
    (forall k v, HavlakLoopFinder.numbers st !! k = Some v ->
       v ≠ HavlakLoopFinder.UNVISITED ->
       exists i x m b, v = Z.of_nat i /\ log !! i = Some (x, m) /\
         nested_blocks !! x = Some b /\ BasicBlock.name b = k).
Proof.
  apply (DFS_numbering nested_blocks nested_cfg 0).
  - reflexivity.
  - apply (dense_keys_ok nested_blocks 0); [reflexivity|cbn; lia].
Defined.

(** C4 (as stated) fails when the names do not fill [0, node count): the
    second block is within reach of the start node, yet [DFS] returns
    after numbering the start node alone; [numbers] has no entry for the
    name 5, which is not [UNVISITED], and the union-find node 1 is never
    initialised. *)
Lemma sparse_block_unnumbered :
  build sparse_calls [] world0 CFG.new = Ok (sparse_world, sparse_cfg) /\
  reachable (blocks sparse_world) 0 1 /\
  match HavlakLoopFinder.DFS (S (Z.to_nat (CFG.getNumNodes sparse_cfg)))
          (blocks sparse_world) 0
          (HavlakLoopFinder.init_state (CFG.getNumNodes sparse_cfg)) 0 with
  | Ok (lastid, st) =>
      lastid = 0 /\
      HavlakLoopFinder.numbers st !! 5 = None /\
      HavlakLoopFinder.numbers st !! 1 = Some HavlakLoopFinder.UNVISITED /\
      HavlakLoopFinder.nodes st !! 1 = Some UnionFindNode.new
  | _ => False
  end.
Proof.
  split; [reflexivity|]. split.
  - eapply (reachable_edge _ _ 0%nat); [constructor|reflexivity|]. cbn. set_solver.
  - vm_compute. done.
Qed.

(** ** Independence from where the blocks are allocated *)

Section move.
Import HavlakLoopFinder.
Context (k : nat).

Lemma lookup_move_nodes (m : gmap Z UnionFindNode.t) i :
  move_nodes k m !! i = move_node k <$> m !! i.
Proof. apply lookup_fmap. Qed.

Lemma findSet_walk_move fuel (m : gmap Z UnionFindNode.t) node nodeList :
  UnionFindNode.findSet_walk fuel (move_nodes k m) node nodeList
  = UnionFindNode.findSet_walk fuel m node nodeList.
Proof.
  unfold move_nodes.
  revert node nodeList. induction fuel as [|fuel IH]; intros node nodeList; [done|].
  cbn. rewrite lookup_fmap. destruct (m !! node) as [n|]; cbn; [|done].
  case_decide; [done|]. destruct (UnionFindNode.parent n) as [p|]; cbn; [|done].
  rewrite lookup_fmap. destruct (m !! p) as [pn|]; cbn; [|done]. apply IH.
Qed.

Lemma findSet_compress_move nodeList p (m : gmap Z UnionFindNode.t) :
  UnionFindNode.findSet_compress nodeList p (move_nodes k m)
  = move_nodes k (UnionFindNode.findSet_compress nodeList p m).
Proof.
  unfold move_nodes.
  revert m. induction nodeList as [|n rest IH]; intros m; [done|].
  cbn. rewrite <- IH. f_equal. symmetry. by apply fmap_alter.
Qed.

Lemma findSet_move fuel (m : gmap Z UnionFindNode.t) this :
  UnionFindNode.findSet fuel (move_nodes k m) this
  = prod_map id (move_nodes k) <$> UnionFindNode.findSet fuel m this.
Proof.
  unfold UnionFindNode.findSet. rewrite findSet_walk_move.
  destruct (UnionFindNode.findSet_walk fuel m this []) as [[node nl]| |]; cbn; try done.
  rewrite lookup_move_nodes. destruct (m !! node) as [n|]; cbn; [|done].
  by rewrite findSet_compress_move.
Qed.

Lemma collect_backPreds_move ffuel w vs nodePool st :
  collect_backPreds ffuel w vs nodePool (move_state k st)
  = prod_map id (move_state k) <$> collect_backPreds ffuel w vs nodePool st.
Proof.
  revert nodePool st. induction vs as [|v vs IH]; intros nodePool st; [done|].
  cbn. case_decide.
  - rewrite findSet_move.
    destruct (UnionFindNode.findSet ffuel (nodes st) v) as [[r nds]| |]; cbn; try done.
    apply (IH _ (set_nodes nds st)).
  - apply (IH _ (set_types _ st)).
Qed.

Lemma scan_nonBackPreds_move fuel ffuel w xd iter workList nodePool st :
  scan_nonBackPreds fuel ffuel w xd iter workList nodePool (move_state k st)
  = prod_map id (move_state k)
      <$> scan_nonBackPreds fuel ffuel w xd iter workList nodePool st.
Proof.
  revert iter workList nodePool st.
  induction fuel as [|fuel IH]; intros iter workList nodePool st; [done|].
  cbn. destruct (nonBackPreds st !! xd) as [l|]; cbn; [|done].
  destruct (l !! iter) as [[yi|]|]; cbn; try done.
  rewrite findSet_move.
  destruct (UnionFindNode.findSet ffuel (nodes st) yi) as [[ydash nds]| |]; cbn; try done.
  rewrite lookup_fmap. destruct (nds !! ydash) as [yn|]; cbn; [|done].
  destruct (negb _).
  - unfold push_at. cbn. destruct (nonBackPreds st !! w) as [l'|]; cbn; [|done].
    apply (IH _ _ _ (set_nonBackPreds _ (set_types _ (set_nodes nds st)))).
  - repeat case_decide; apply (IH _ _ _ (set_nodes nds st)).
Qed.

Lemma work_move fuel ffuel w workList nodePool st :
  work fuel ffuel w workList nodePool (move_state k st)
  = flow_map (prod_map id (move_state k))
      <$> work fuel ffuel w workList nodePool st.
Proof.
  revert workList nodePool st.
  induction fuel as [|fuel IH]; intros [|x workList] nodePool st; try done.
  cbn [work]. cbn [nodes move_state set_nodes nonBackPreds].
  rewrite lookup_move_nodes. destruct (nodes st !! x) as [xn|]; cbn [fmap option_fmap option_map deref mbind outcome_bind]; [|done].
  cbn [UnionFindNode.dfsNumber move_node].
  destruct (nonBackPreds st !! UnionFindNode.dfsNumber xn) as [l|];
    cbn [deref mbind outcome_bind]; [|done].
  case_decide; [done|].
  rewrite (scan_nonBackPreds_move _ _ _ _ _ _ _ st).
  destruct (scan_nonBackPreds _ _ _ _ _ _ _ st) as [[[wl np] st']| |]; cbn; done.
Qed.

Lemma move_loop_alter (g h : SimpleLoop.t -> SimpleLoop.t) (i : nat)
    (ls : list SimpleLoop.t) :
  (forall x, move_loop k (g x) = h (move_loop k x)) ->
  alter h i (move_loop k <$> ls) = move_loop k <$> alter g i ls.
Proof.
  intros H. symmetry. apply list_fmap_alter. by apply Forall_forall.
Qed.

Lemma setParent_move l loop (ls : list SimpleLoop.t) :
  SimpleLoop.setParent l loop (move_loop k <$> ls)
  = move_loop k <$> SimpleLoop.setParent l loop ls.
Proof.
  unfold SimpleLoop.setParent.
  rewrite (move_loop_alter (SimpleLoop.set_parent loop)) by done.
  by rewrite (move_loop_alter (SimpleLoop.addChildLoop l)).
Qed.

Lemma link_pool_move w loop nodePool st g :
  link_pool w loop nodePool (move_state k st) (move_lsg k g)
  = prod_map (move_state k) (move_lsg k) <$> link_pool w loop nodePool st g.
Proof.
  revert st g. induction nodePool as [|node nodePool IH]; intros st g; [done|].
  cbn [link_pool]. cbn [nodes move_state set_nodes set_header header].
  rewrite lookup_move_nodes. destruct (nodes st !! node) as [nd|] eqn:Hnd;
    cbn [fmap option_fmap option_map deref mbind outcome_bind]; [|done].
  assert (Hu : UnionFindNode.union node w (move_nodes k (nodes st))
               = move_nodes k (UnionFindNode.union node w (nodes st))).
  { unfold UnionFindNode.union, move_nodes. symmetry. by apply fmap_alter. }
  rewrite Hu, lookup_move_nodes.
  destruct (UnionFindNode.union node w (nodes st) !! node) as [nd'|];
    cbn [fmap option_fmap option_map deref mbind outcome_bind]; [|done].
  cbn [UnionFindNode.loop UnionFindNode.bb UnionFindNode.dfsNumber move_node].
  destruct (UnionFindNode.loop nd') as [l|].
  - cbn [LSG.objs move_lsg LSG.set_objs]. rewrite setParent_move.
    rewrite <- IH. reflexivity.
  - cbn [LSG.objs move_lsg LSG.set_objs].
    rewrite (move_loop_alter (SimpleLoop.addNode (UnionFindNode.bb nd'))).
    + rewrite <- IH. reflexivity.
    + intros x. unfold move_loop, SimpleLoop.addNode. cbn. by rewrite fmap_app.
Qed.

Lemma createNewLoop_move g :
  LSG.createNewLoop (move_lsg k g) = prod_map id (move_lsg k) (LSG.createNewLoop g).
Proof.
  unfold LSG.createNewLoop, move_lsg. cbn. by rewrite length_fmap, fmap_app.
Qed.

Lemma set_objs_alter_move (f h : SimpleLoop.t -> SimpleLoop.t) loop g :
  (forall x, move_loop k (f x) = h (move_loop k x)) ->
  LSG.set_objs (alter h loop (LSG.objs (move_lsg k g))) (move_lsg k g)
  = move_lsg k (LSG.set_objs (alter f loop (LSG.objs g)) g).
Proof.
  intros H. unfold move_lsg. cbn. by rewrite (move_loop_alter f h).
Qed.

Lemma setLoop_move w loop (m : gmap Z UnionFindNode.t) :
  UnionFindNode.setLoop w loop (move_nodes k m)
  = move_nodes k (UnionFindNode.setLoop w loop m).
Proof. unfold UnionFindNode.setLoop, move_nodes. symmetry. by apply fmap_alter. Qed.

Local Opaque collect_backPreds work link_pool.

Lemma find_loop_move size w st g :
  find_loop size w (move_state k st) (move_lsg k g)
  = prod_map (flow_map (move_state k)) (move_lsg k) <$> find_loop size w st g.
Proof.
  unfold find_loop. cbn [nodes move_state set_nodes backPreds].
  rewrite lookup_move_nodes. destruct (nodes st !! w) as [nd|];
    cbn [fmap option_fmap option_map deref mbind outcome_bind]; [|done].
  cbn [UnionFindNode.bb move_node].
  destruct (UnionFindNode.bb nd) as [nodeW|];
    cbn [fmap option_fmap option_map]; [|done].
  destruct (backPreds st !! w) as [vs|]; cbn [deref mbind outcome_bind]; [|done].
  rewrite collect_backPreds_move.
  destruct (collect_backPreds (S size) w vs [] st) as [[nodePool st1]| |];
    cbn [fmap outcome_fmap prod_map fst snd mbind outcome_bind id]; try done.
  assert (Hst2 : (if decide (nodePool ≠ [])
                  then set_types (<[w:=BB_REDUCIBLE]> (types (move_state k st1)))
                         (move_state k st1)
                  else move_state k st1)
                 = move_state k (if decide (nodePool ≠ [])
                                 then set_types (<[w:=BB_REDUCIBLE]> (types st1)) st1
                                 else st1)) by (by case_decide).
  rewrite Hst2, work_move.
  destruct (work _ _ _ _ _ _) as [[[nodePool' st3]|v]| |];
    cbn [fmap outcome_fmap prod_map fst snd mbind outcome_bind id flow_map]; try done.
  cbn [nodes types move_state set_nodes].
  destruct (decide (_ \/ _)); [|done].
  rewrite createNewLoop_move.
  destruct (LSG.createNewLoop g) as [loop g1] eqn:Hnew. cbn [prod_map fst snd id].
  rewrite (set_objs_alter_move (SimpleLoop.setHeader nodeW)).
  2:{ intros x. unfold move_loop, SimpleLoop.setHeader. cbn. by rewrite fmap_app. }
  assert (Hred : forall b g2,
    LSG.set_objs (alter (SimpleLoop.set_isReducible b) loop (LSG.objs (move_lsg k g2)))
      (move_lsg k g2)
    = move_lsg k (LSG.set_objs (alter (SimpleLoop.set_isReducible b) loop (LSG.objs g2)) g2)).
  { intros b g2. by apply set_objs_alter_move. }
  assert (Hg3 :
    (if decide (types st3 !! w = Some BB_IRREDUCIBLE)
     then LSG.set_objs
            (alter (SimpleLoop.set_isReducible true) loop
               (LSG.objs (move_lsg k
                  (LSG.set_objs (alter (SimpleLoop.setHeader nodeW) loop (LSG.objs g1)) g1))))
            (move_lsg k
               (LSG.set_objs (alter (SimpleLoop.setHeader nodeW) loop (LSG.objs g1)) g1))
     else LSG.set_objs
            (alter (SimpleLoop.set_isReducible false) loop
               (LSG.objs (move_lsg k
                  (LSG.set_objs (alter (SimpleLoop.setHeader nodeW) loop (LSG.objs g1)) g1))))
            (move_lsg k
               (LSG.set_objs (alter (SimpleLoop.setHeader nodeW) loop (LSG.objs g1)) g1)))
    = move_lsg k
        (if decide (types st3 !! w = Some BB_IRREDUCIBLE)
         then LSG.set_objs
                (alter (SimpleLoop.set_isReducible true) loop
                   (LSG.objs
                      (LSG.set_objs (alter (SimpleLoop.setHeader nodeW) loop (LSG.objs g1)) g1)))
                (LSG.set_objs (alter (SimpleLoop.setHeader nodeW) loop (LSG.objs g1)) g1)
         else LSG.set_objs
                (alter (SimpleLoop.set_isReducible false) loop
                   (LSG.objs
                      (LSG.set_objs (alter (SimpleLoop.setHeader nodeW) loop (LSG.objs g1)) g1)))
                (LSG.set_objs (alter (SimpleLoop.setHeader nodeW) loop (LSG.objs g1)) g1)))
    by (destruct (decide (types st3 !! w = _)); apply Hred).
  rewrite Hg3, setLoop_move.
  change (set_nodes (move_nodes k (UnionFindNode.setLoop w loop (nodes st3)))
            (move_state k st3))
    with (move_state k (set_nodes (UnionFindNode.setLoop w loop (nodes st3)) st3)).
  rewrite link_pool_move.
  destruct (link_pool _ _ _ _ _) as [[st4 g4]| |]; cbn; done.
Qed.

Local Transparent collect_backPreds work link_pool.

Local Opaque find_loop.

Lemma find_all_move size n st g :
  find_all size n (move_state k st) (move_lsg k g)
  = prod_map (flow_map (move_state k)) (move_lsg k) <$> find_all size n st g.
Proof.
  revert st g. induction n as [|n IH]; intros st g; [done|].
  cbn. rewrite find_loop_move.
  destruct (find_loop size (Z.of_nat n) st g) as [[[st1|v] g1]| |]; cbn; try done.
Qed.

Local Transparent find_loop.

Section store.
Context (bs0 bs : list BasicBlock.t) (Hbs : moved k bs0 bs).

Lemma insert_move_nodes (m : gmap Z UnionFindNode.t) i nd :
  <[i := move_node k nd]> (move_nodes k m) = move_nodes k (<[i := nd]> m).
Proof. unfold move_nodes. by rewrite fmap_insert. Qed.

Lemma DFS_targets_move visit0 visit es lastid st :
  (forall e st1 c, visit (k + e)%nat (move_state k st1) c
                   = prod_map id (move_state k) <$> visit0 e st1 c) ->
  DFS_targets visit bs (Nat.add k <$> es) lastid (move_state k st)
  = prod_map id (move_state k) <$> DFS_targets visit0 bs0 es lastid st.
Proof.
  intros Hvisit. revert lastid st.
  induction es as [|e es IH]; intros lastid st; [done|].
  cbn [fmap list_fmap DFS_targets]. rewrite Hbs.
  destruct (bs0 !! e) as [tb|];
    cbn [fmap option_fmap option_map deref mbind outcome_bind]; [|done].
  cbn [numbers move_state set_nodes BasicBlock.name move_block].
  case_decide; [|apply IH].
  rewrite Hvisit.
  destruct (visit0 e st (lastid + 1)) as [[l st1]| |]; cbn; try done.
Qed.

Lemma DFS_move fuel r st c :
  DFS fuel bs (k + r) (move_state k st) c
  = prod_map id (move_state k) <$> DFS fuel bs0 r st c.
Proof.
  revert r st c. induction fuel as [|fuel IH]; intros r st c; [done|].
  cbn [DFS]. cbn [nodes move_state set_nodes].
  rewrite lookup_move_nodes. destruct (nodes st !! c) as [nd|];
    cbn [fmap option_fmap option_map deref mbind outcome_bind]; [|done].
  rewrite Hbs. destruct (bs0 !! r) as [b|];
    cbn [fmap option_fmap option_map deref mbind outcome_bind]; [|done].
  cbn [BasicBlock.name BasicBlock.outEdges move_block numbers].
  change (UnionFindNode.initNode c (k + r) c (move_node k nd))
    with (move_node k (UnionFindNode.initNode c r c nd)).
  rewrite insert_move_nodes.
  lazymatch goal with
  | |- context [DFS_targets (DFS fuel bs) bs _ c ?s] =>
      change s with
        (move_state k
           (set_numbers (<[BasicBlock.name b:=c]> (numbers st))
              (set_nodes (<[c:=UnionFindNode.initNode c r c nd]> (nodes st)) st)))
  end.
  rewrite (DFS_targets_move (DFS fuel bs0) (DFS fuel bs)) by apply IH.
  destruct (DFS_targets _ _ _ _ _) as [[l st1]| |]; cbn; try done.
  by destruct (numbers st1 !! BasicBlock.name b).
Qed.

Lemma classify_preds_move w es st :
  classify_preds bs w (Nat.add k <$> es) (move_state k st)
  = move_state k <$> classify_preds bs0 w es st.
Proof.
  revert st. induction es as [|e es IH]; intros st; [done|].
  cbn [fmap list_fmap classify_preds]. rewrite Hbs.
  destruct (bs0 !! e) as [vb|];
    cbn [fmap option_fmap option_map deref mbind outcome_bind]; [|done].
  cbn [numbers last backPreds nonBackPreds move_state set_nodes BasicBlock.name move_block].
  case_decide; [apply IH|].
  destruct (isAncestor _ _ _).
  - destruct (numbers st !! BasicBlock.name vb) as [z|]; [|apply IH].
    unfold push_at. destruct (backPreds st !! w) as [l|]; cbn; [|done].
    rewrite <- IH. reflexivity.
  - unfold push_at. destruct (nonBackPreds st !! w) as [l|]; cbn; [|done].
    rewrite <- IH. reflexivity.
Qed.

Lemma classify_node_move w st :
  classify_node bs w (move_state k st) = move_state k <$> classify_node bs0 w st.
Proof.
  unfold classify_node. cbn [nodes move_state set_nodes].
  rewrite lookup_move_nodes. destruct (nodes st !! w) as [nd|];
    cbn [fmap option_fmap option_map deref mbind outcome_bind]; [|done].
  cbn [UnionFindNode.bb move_node].
  destruct (UnionFindNode.bb nd) as [nodeW|]; cbn [fmap option_fmap option_map]; [|done].
  rewrite Hbs. destruct (bs0 !! nodeW) as [b|];
    cbn [fmap option_fmap option_map deref mbind outcome_bind]; [|done].
  assert (Hn : BasicBlock.getNumPred (move_block k b) = BasicBlock.getNumPred b).
  { unfold BasicBlock.getNumPred. cbn. by rewrite length_fmap. }
  rewrite Hn. case_decide; [|done]. apply classify_preds_move.
Qed.

Lemma classify_move ws st :
  classify bs ws (move_state k st) = move_state k <$> classify bs0 ws st.
Proof.
  revert st. induction ws as [|w ws IH]; intros st; [done|].
  cbn [classify]. rewrite classify_node_move.
  destruct (classify_node bs0 w st) as [st1| |]; cbn; try done.
Qed.

Lemma init_state_move size : move_state k (init_state size) = init_state size.
Proof.
  unfold move_state, init_state, move_nodes. cbn. f_equal.
  rewrite <- list_to_map_fmap. f_equal. rewrite <- list_fmap_compose. done.
Qed.

Lemma findLoops_move cfg :
  findLoops bs (move_cfg k cfg) LSG.new
  = prod_map id (move_lsg k) <$> findLoops bs0 cfg LSG.new.
Proof.
  unfold findLoops. cbn [CFG.startNode move_cfg].
  destruct (CFG.startNode cfg) as [s|]; cbn [fmap option_fmap option_map]; [|done].
  assert (Hn : CFG.getNumNodes (move_cfg k cfg) = CFG.getNumNodes cfg).
  { unfold CFG.getNumNodes. cbn. by rewrite length_fmap. }
  rewrite Hn. rewrite <- (init_state_move (CFG.getNumNodes cfg)) at 1.
  rewrite DFS_move.
  destruct (DFS _ bs0 _ _ _) as [[l st0]| |]; cbn; try done.
  rewrite classify_move.
  destruct (classify bs0 _ st0) as [st1| |]; cbn; try done.
  change LSG.new with (move_lsg k LSG.new) at 1.
  rewrite find_all_move.
  destruct (find_all _ _ st1 LSG.new) as [[[st2|v] g]| |]; cbn; try done.
Qed.

Lemma mix_blocks_move es acc :
  SimpleLoop.mix_blocks bs (fmap (M := option) (Nat.add k) <$> es) acc
  = SimpleLoop.mix_blocks bs0 es acc.
Proof.
  revert acc. induction es as [|[r|] es IH]; intros acc; cbn; try done.
  rewrite Hbs. destruct (bs0 !! r) as [b|]; cbn; [|done]. apply IH.
Qed.

Lemma checksum_move fuel (ls : list SimpleLoop.t) this :
  SimpleLoop.checksum fuel bs (move_loop k <$> ls) this
  = SimpleLoop.checksum fuel bs0 ls this.
Proof.
  revert this. induction fuel as [|fuel IH]; intros this; [done|].
  cbn [SimpleLoop.checksum]. rewrite list_lookup_fmap.
  destruct (ls !! this) as [l|];
    cbn [fmap option_fmap option_map deref mbind outcome_bind]; [|done].
  cbn [SimpleLoop.counter SimpleLoop.isRoot SimpleLoop.isReducible
       SimpleLoop.nestingLevel SimpleLoop.depthLevel SimpleLoop.header
       SimpleLoop.basicBlocks SimpleLoop.children move_loop].
  assert (Hc : forall es acc,
    SimpleLoop.mix_children (SimpleLoop.checksum fuel bs (move_loop k <$> ls)) es acc
    = SimpleLoop.mix_children (SimpleLoop.checksum fuel bs0 ls) es acc).
  { induction es as [|e es IHes]; intros acc; cbn; [done|].
    rewrite IH. destruct (SimpleLoop.checksum fuel bs0 ls e); cbn; try done. }
  destruct (SimpleLoop.header l) as [h|]; cbn [fmap option_fmap option_map].
  - rewrite Hbs. destruct (bs0 !! h) as [b|]; cbn; [|done].
    rewrite mix_blocks_move. destruct (SimpleLoop.mix_blocks _ _ _); cbn; try done.
  - cbn. rewrite mix_blocks_move. destruct (SimpleLoop.mix_blocks _ _ _); cbn; try done.
Qed.

Lemma LSG_checksum_move fuel g :
  LSG.checksum fuel bs (move_lsg k g) = LSG.checksum fuel bs0 g.
Proof.
  unfold LSG.checksum. cbn [LSG.loops LSG.objs LSG.root move_lsg LSG.set_objs].
  assert (Hc : forall es acc,
    SimpleLoop.mix_children (SimpleLoop.checksum fuel bs (move_loop k <$> LSG.objs g)) es acc
    = SimpleLoop.mix_children (SimpleLoop.checksum fuel bs0 (LSG.objs g)) es acc).
  { induction es as [|e es IHes]; intros acc; cbn; [done|].
    rewrite checksum_move.
    destruct (SimpleLoop.checksum fuel bs0 (LSG.objs g) e); cbn; try done. }
  rewrite Hc. destruct (SimpleLoop.mix_children _ _ _); cbn; try done.
  by rewrite checksum_move.
Qed.

End store.

End move.

(** ** Building the same graph in two worlds *)

Section worlds.
Context (pre : list BasicBlock.t) (d : Z).

Lemma moved_world wd : moved (length pre) (blocks wd) (blocks (move_world pre d wd)).
Proof.
  intros r. cbn. rewrite lookup_app_r by lia.
  replace ((length pre) + r - (length pre))%nat with r by lia. apply list_lookup_fmap.
Qed.

Lemma move_world_eq wd : wd = move_world (blocks wd) (numBasicBlocks wd) world0.
Proof.
  destruct wd as [bs n]. unfold move_world. cbn. rewrite app_nil_r. f_equal. lia.
Qed.

Lemma map_get_move m i :
  CFG.map_get (prod_map id (Nat.add (length pre)) <$> m) i = Nat.add (length pre) <$> CFG.map_get m i.
Proof.
  induction m as [|[i' v] m IH]; [done|]. cbn. by case_decide.
Qed.

Lemma map_set_move m i v :
  CFG.map_set (prod_map id (Nat.add (length pre)) <$> m) i ((length pre) + v)
  = prod_map id (Nat.add (length pre)) <$> CFG.map_set m i v.
Proof.
  induction m as [|[i' v'] m IH]; [done|]. cbn. case_decide; [done|].
  cbn. by rewrite IH.
Qed.

Lemma update_block_move wd r f0 f :
  (forall b, f (move_block (length pre) b) = move_block (length pre) (f0 b)) ->
  update_block (move_world pre d wd) ((length pre) + r) f
  = move_world pre d <$> update_block wd r f0.
Proof.
  intros Hf. unfold update_block. rewrite moved_world.
  destruct (blocks wd !! r) as [b|] eqn:Hb; cbn; [|done].
  unfold move_world. cbn. rewrite Hf.
  rewrite insert_app_r. by rewrite list_fmap_insert.
Qed.

Lemma BasicBlockEdge_new_move wd cfg x y :
  BasicBlockEdge_new (move_world pre d wd) (move_cfg (length pre) cfg) ((length pre) + x) ((length pre) + y)
  = prod_map (prod_map (move_edge (length pre)) (move_world pre d)) (move_cfg (length pre))
      <$> BasicBlockEdge_new wd cfg x y.
Proof.
  unfold BasicBlockEdge_new.
  rewrite (update_block_move wd x (BasicBlock.addOutEdge y)).
  2:{ intros b. unfold BasicBlock.addOutEdge, move_block. cbn.
      by rewrite fmap_app. }
  destruct (update_block wd x _) as [wd1| |]; cbn; try done.
  rewrite (update_block_move wd1 y (BasicBlock.addInEdge x)).
  2:{ intros b. unfold BasicBlock.addInEdge, move_block. cbn.
      by rewrite fmap_app. }
  destruct (update_block wd1 y _) as [wd2| |]; cbn; try done.
  unfold CFG.addEdge, move_cfg. cbn. by rewrite fmap_app.
Qed.

Lemma createNode_move wd cfg name id :
  CFG.createNode (move_world pre d wd) (move_cfg (length pre) cfg) name id
  = prod_map (prod_map (Nat.add (length pre)) (move_world pre d)) (move_cfg (length pre))
      (CFG.createNode wd cfg name id).
Proof.
  unfold CFG.createNode. cbn [CFG.basicBlockMap move_cfg].
  rewrite map_get_move.
  assert (Hn : forall c, CFG.getNumNodes (move_cfg (length pre) c) = CFG.getNumNodes c).
  { intros c. unfold CFG.getNumNodes. cbn. by rewrite length_fmap. }
  destruct (CFG.map_get (CFG.basicBlockMap cfg) id) as [node|];
    cbn [fmap option_fmap option_map].
  - rewrite Hn. by case_decide.
  - unfold BasicBlock_new. cbn [blocks move_world].
    rewrite length_app, length_fmap, map_set_move.
    set (cfg1 := CFG.mk (CFG.map_set (CFG.basicBlockMap cfg) id (length (blocks wd)))
                   (CFG.edgeList cfg) (CFG.startNode cfg)).
    change (CFG.mk _ (CFG.edgeList (move_cfg (length pre) cfg)) (CFG.startNode (move_cfg (length pre) cfg)))
      with (move_cfg (length pre) cfg1).
    rewrite Hn. case_decide; cbn; unfold move_world; cbn;
      rewrite fmap_app, app_assoc; cbn; do 3 f_equal; lia.
Qed.

Lemma build_move cs vars wd cfg :
  build cs (Nat.add (length pre) <$> vars) (move_world pre d wd) (move_cfg (length pre) cfg)
  = prod_map (move_world pre d) (move_cfg (length pre)) <$> build cs vars wd cfg.
Proof.
  revert vars wd cfg. induction cs as [|[name id|x y] cs IH]; intros vars wd cfg.
  - done.
  - cbn [build]. rewrite createNode_move.
    destruct (CFG.createNode wd cfg name id) as [[node wd1] cfg1]. cbn.
    rewrite <- IH. by rewrite fmap_app.
  - cbn [build]. rewrite !list_lookup_fmap.
    destruct (vars !! x) as [x'|]; cbn; [|done].
    destruct (vars !! y) as [y'|]; cbn; [|done].
    rewrite BasicBlockEdge_new_move.
    destruct (BasicBlockEdge_new wd cfg x' y') as [[[e wd1] cfg1]| |]; cbn; try done.
Qed.

End worlds.

(** A run in any world gives what the run in the empty world gives. *)
Lemma analyse_world0 wd cs : analyse wd cs = analyse world0 cs.
Proof.
  unfold analyse.
  pose proof (build_move (blocks wd) (numBasicBlocks wd) cs [] world0 CFG.new) as Hb.
  rewrite <- move_world_eq in Hb. cbn [fmap list_fmap] in Hb. change (move_cfg _ CFG.new) with CFG.new in Hb.
  rewrite Hb.
  destruct (build cs [] world0 CFG.new) as [[wd0 cfg0]| |];
    cbn [fmap outcome_fmap mbind outcome_bind prod_map fst snd]; try done.
  rewrite (findLoops_move _ _ _ (moved_world _ _ wd0)).
  destruct (HavlakLoopFinder.findLoops (blocks wd0) cfg0 LSG.new) as [[n g]| |];
    cbn [fmap outcome_fmap mbind outcome_bind prod_map fst snd id]; try done.
  replace (length (LSG.objs (move_lsg (length (blocks wd)) g)))
    with (length (LSG.objs g)) by (cbn; by rewrite length_fmap).
  by rewrite (LSG_checksum_move _ _ _ (moved_world _ _ wd0)).
Qed.

(** C6: a client run - the calls [cs] building a graph, then [findLoops]
    on a fresh loop structure graph, then [checksum] - gives the same loop
    count and the same checksum (or fails the same way) in whatever world
    it starts: whichever blocks were allocated before, and so also when
    the same graph is built and analysed a second time after a first
    run.  The result is a function of the calls alone. *)
Theorem analyse_deterministic (cs : list call) (wd1 wd2 : World) :
  analyse wd1 cs = analyse wd2 cs.
Proof.
  etrans; [apply analyse_world0|]. symmetry. apply analyse_world0.
Qed.
(** * Further properties *)

(** ** The block map of a graph *)

Lemma map_get_None m i : CFG.map_get m i = None <-> i ∉ m.*1.
Proof.
  induction m as [|[k v] m IH]; cbn; [set_solver|].
  case_decide; [|rewrite IH]; set_solver.
Qed.

Lemma map_get_elem_of m i v : NoDup m.*1 -> CFG.map_get m i = Some v <-> (i, v) ∈ m.
Proof.
  induction m as [|[k w] m IH]; cbn; [set_solver|].
  intros [Hk Hm]%NoDup_cons. case_decide as Hi.
  - subst. split; [intros [= ->]; set_solver|].
    intros [[= ->]|Hin]%elem_of_cons; [done|].
    destruct Hk. apply list_elem_of_fmap. by exists (i, v).
  - rewrite (IH Hm). set_solver.
Qed.

Lemma map_set_new m i v : i ∉ m.*1 -> CFG.map_set m i v = m ++ [(i, v)].
Proof.
  induction m as [|[k w] m IH]; cbn; [done|].
  intros Hi. rewrite decide_False by set_solver. rewrite IH by set_solver. done.
Qed.

Lemma first_name_app cs1 cs2 id :
  first_name (cs1 ++ cs2) id
  = match first_name cs1 id with Some n => Some n | None => first_name cs2 id end.
Proof.
  induction cs1 as [|[name i|x y] cs1 IH]; cbn; [done| |done].
  by case_decide.
Qed.

Lemma created_app cs1 cs2 : created (cs1 ++ cs2) = created cs1 ++ created cs2.
Proof. apply omap_app. Qed.

Lemma first_name_None cs id : first_name cs id = None <-> id ∉ (created cs).*2.
Proof.
  induction cs as [|[name i|x y] cs IH]; cbn; [set_solver| |done].
  case_decide; [|rewrite IH]; set_solver.
Qed.

Lemma edge_calls_app vars cs1 cs2 :
  edge_calls vars (cs1 ++ cs2) = edge_calls vars cs1 ++ edge_calls vars cs2.
Proof. apply omap_app. Qed.

Lemma edge_calls_more vars more cs :
  (forall x y, NewEdge x y ∈ cs -> (x < length vars)%nat /\ (y < length vars)%nat) ->
  edge_calls (vars ++ more) cs = edge_calls vars cs.
Proof.
  unfold edge_calls.
  induction cs as [|[name i|x y] cs IH]; intros Hd; cbn; [done| |].
  - apply IH. intros x y Hin. apply Hd. set_solver.
  - destruct (Hd x y) as [Hx Hy]; [set_solver|].
    rewrite !lookup_app_l by done.
    rewrite IH; [done|]. intros x' y' Hin. apply Hd. set_solver.
Qed.

Lemma edges_from_snoc es e r :
  edges_from (es ++ [e]) r
  = edges_from es r ++ (if decide (from e = r) then [to e] else []).
Proof.
  unfold edges_from. rewrite filter_app, fmap_app. f_equal.
  rewrite filter_cons, filter_nil. by case_decide.
Qed.

Lemma edges_to_snoc es e r :
  edges_to (es ++ [e]) r
  = edges_to es r ++ (if decide (to e = r) then [from e] else []).
Proof.
  unfold edges_to. rewrite filter_app, fmap_app. f_equal.
  rewrite filter_cons, filter_nil. by case_decide.
Qed.

Lemma built_empty wd0 : built wd0 [] [] wd0 CFG.new.
Proof.
  split; cbn; try done.
  - constructor.
  - apply take_ge. lia.
  - lia.
  - set_solver.
  - set_solver.
  - intros r b Hr Hb%lookup_lt_Some. lia.
Qed.

Lemma built_var wd0 done vars wd cfg r :
  built wd0 done vars wd cfg -> r ∈ vars ->
  (length (blocks wd0) <= r < length (blocks wd))%nat.
Proof.
  intros H [i Hi]%list_elem_of_lookup.
  destruct (Forall2_lookup_l _ _ _ _ _ (built_vars _ _ _ _ _ H) Hi) as ([n id] & _ & Hget).
  cbn in Hget. apply map_get_elem_of in Hget; [|apply H].
  apply (list_elem_of_fmap_2 snd) in Hget. cbn in Hget.
  rewrite (built_refs _ _ _ _ _ H) in Hget. apply elem_of_seq in Hget.
  rewrite (built_length _ _ _ _ _ H). lia.
Qed.

Lemma edge_calls_ends vars cs e :
  e ∈ edge_calls vars cs -> from e ∈ vars /\ to e ∈ vars.
Proof.
  unfold edge_calls. intros ([name id|x y] & Hc & He)%list_elem_of_omap; [done|].
  destruct (vars !! x) as [x'|] eqn:Hx; [|done].
  destruct (vars !! y) as [y'|] eqn:Hy; simplify_eq/=.
  split; by eapply list_elem_of_lookup_2.
Qed.

Lemma built_ends wd0 done vars wd cfg e :
  built wd0 done vars wd cfg -> e ∈ CFG.edgeList cfg ->
  (length (blocks wd0) <= from e < length (blocks wd))%nat /\
  (length (blocks wd0) <= to e < length (blocks wd))%nat.
Proof.
  intros H He. rewrite (built_edgeList _ _ _ _ _ H) in He.
  apply edge_calls_ends in He as [Hf Ht].
  split; by eapply built_var.
Qed.

Lemma edges_from_none es r :
  (forall e, e ∈ es -> from e ≠ r) -> edges_from es r = [].
Proof.
  intros H. unfold edges_from.
  induction es as [|e es IH]; [done|].
  rewrite filter_cons, decide_False by (apply H; set_solver).
  apply IH. intros e' He'. apply H. set_solver.
Qed.

Lemma edges_to_none es r :
  (forall e, e ∈ es -> to e ≠ r) -> edges_to es r = [].
Proof.
  intros H. unfold edges_to.
  induction es as [|e es IH]; [done|].
  rewrite filter_cons, decide_False by (apply H; set_solver).
  apply IH. intros e' He'. apply H. set_solver.
Qed.

Lemma built_createNode wd0 done vars wd cfg name id node wd' cfg' :
  built wd0 done vars wd cfg ->
  CFG.createNode wd cfg name id = (node, wd', cfg') ->
  built wd0 (done ++ [CreateNode name id]) (vars ++ [node]) wd' cfg'.
Proof.
  intros Hbuilt.
  pose proof (fun e => built_ends _ _ _ _ _ e Hbuilt) as Hends.
  destruct Hbuilt as [Hkeys Hrefs Hlen Hold Hcnt Hstart Hblock Hids Hfirst Hvars Hedges Hdef Hadj].
  unfold CFG.createNode.
  destruct (CFG.map_get (CFG.basicBlockMap cfg) id) as [r|] eqn:Hget.
  - (* the id is taken *)
    intros Heq.
    assert (Hmap : CFG.basicBlockMap cfg' = CFG.basicBlockMap cfg
                   /\ CFG.edgeList cfg' = CFG.edgeList cfg
                   /\ CFG.startNode cfg' = CFG.startNode cfg
                   /\ node = r /\ wd' = wd).
    { case_decide as Hone; simplify_eq/=; split_and!; try done.
      unfold CFG.getNumNodes in Hone.
      destruct (CFG.basicBlockMap cfg) as [|[i v] [|]]; simplify_eq/=; try lia.
      case_decide; simplify_eq/=. by rewrite Hstart. }
    destruct Hmap as (Hm & He & Hs & -> & ->).
    apply map_get_elem_of in Hget as Hin; [|done].
    split; rewrite ?Hm, ?He, ?Hs; try done.
    + intros i v Hiv. destruct (Hblock _ _ Hiv) as (b & Hb & Hid & Hn).
      exists b. split_and!; try done. by rewrite first_name_app, Hn.
    + intros i. rewrite created_app, fmap_app, Hids. cbn.
      split; [set_solver|]. intros [?|Hi]%elem_of_app; [done|].
      apply list_elem_of_singleton in Hi as ->.
      apply Hids. by apply (list_elem_of_fmap_2 fst) in Hin.
    + rewrite created_app, fmap_app, Hfirst.
      apply (list_elem_of_fmap_2 fst), Hids in Hin. cbn in Hin.
      destruct ((created done).*2); [by apply elem_of_nil in Hin|done].
    + rewrite created_app. apply Forall2_app; [done|].
      cbn. by constructor.
    + rewrite edge_calls_app. cbn. rewrite app_nil_r. by rewrite edge_calls_more.
    + intros x y [Hin'|Hin']%elem_of_app; [|set_solver].
      rewrite length_app. destruct (Hdef _ _ Hin'). lia.
  - (* a new block *)
    apply map_get_None in Hget. cbn. rewrite map_set_new by done.
    intros Heq.
    set (m := CFG.basicBlockMap cfg) in *.
    set (k := length (blocks wd0)) in *.
    assert (Hval : node = length (blocks wd) /\
              wd' = mkWorld (blocks wd ++ [BasicBlock.mk name id [] []])
                      (numBasicBlocks wd + 1) /\
              CFG.basicBlockMap cfg' = m ++ [(id, node)] /\
              CFG.edgeList cfg' = CFG.edgeList cfg /\
              CFG.startNode cfg' = head (m ++ [(id, node)]).*2).
    { unfold CFG.getNumNodes in Heq. cbn in Heq.
      case_decide as Hone; simplify_eq/=; split_and!; try done.
      all: rewrite ?Hstart; rewrite length_app in Hone; cbn in Hone.
      all: destruct m as [|[] ?]; cbn in *; try done; lia. }
    destruct Hval as (-> & -> & Hm & He & Hs).
    split; rewrite ?Hm, ?He; cbn [blocks numBasicBlocks].
    + rewrite fmap_app. apply NoDup_app. split_and!; [done| |apply NoDup_singleton].
      intros i Hi Hi'. apply list_elem_of_singleton in Hi' as ->. done.
    + rewrite fmap_app, length_app, Hrefs. cbn. rewrite seq_app. cbn.
      by rewrite Hlen.
    + rewrite !length_app. cbn. lia.
    + rewrite take_app_le by lia. done.
    + rewrite length_app. cbn. lia.
    + done.
    + intros i v [Hiv|Hiv]%elem_of_app; [|apply list_elem_of_singleton in Hiv].
      * destruct (Hblock _ _ Hiv) as (b & Hb & Hid & Hn).
        exists b. split_and!; try done.
        -- by apply lookup_app_l_Some.
        -- by rewrite first_name_app, Hn.
      * simplify_eq. eexists. split_and!.
        -- by apply list_lookup_middle.
        -- done.
        -- rewrite first_name_app.
           assert (first_name done id = None) as ->.
           { apply first_name_None. by rewrite <- Hids. }
           cbn. by rewrite decide_True.
    + intros i. rewrite created_app, !fmap_app, !elem_of_app, Hids. cbn. done.
    + rewrite created_app, !fmap_app. cbn.
      destruct m as [|[i0 v0] m']; cbn in *.
      * destruct ((created done).*2) as [|i1 ?] eqn:Hcr; [done|].
        specialize (Hids i1). set_solver.
      * by destruct ((created done).*2).
    + rewrite created_app. apply Forall2_app.
      * eapply Forall2_impl; [done|]. intros v [n i] Hv. cbn in *.
        apply map_get_elem_of in Hv; [|done].
        apply map_get_elem_of; [|set_solver].
        rewrite fmap_app. apply NoDup_app. split_and!; [done| |apply NoDup_singleton].
        intros j Hj Hj'. apply list_elem_of_singleton in Hj' as ->. done.
      * cbn. constructor; [|done]. cbn.
        apply map_get_elem_of; [|set_solver].
        rewrite fmap_app. apply NoDup_app. split_and!; [done| |apply NoDup_singleton].
        intros j Hj Hj'. apply list_elem_of_singleton in Hj' as ->. done.
    + rewrite edge_calls_app. cbn. rewrite app_nil_r. by rewrite edge_calls_more.
    + intros x y [Hin'|Hin']%elem_of_app; [|set_solver].
      rewrite length_app. destruct (Hdef _ _ Hin'). lia.
    + intros r b Hr Hb. apply lookup_app_Some in Hb as [Hb|[Hge Hb]].
      * by apply Hadj.
      * apply list_lookup_singleton_Some in Hb as [Hz <-]. cbn.
        assert (r = length (blocks wd)) as -> by lia.
        rewrite edges_from_none, edges_to_none; [done| |].
        -- intros e Hin. destruct (Hends e Hin). lia.
        -- intros e Hin. destruct (Hends e Hin). lia.
Qed.

(** What the constructor of an edge does to the blocks. *)
Lemma BasicBlockEdge_new_blocks wd cfg x y e wd' cfg' :
  BasicBlockEdge_new wd cfg x y = Ok (e, wd', cfg') ->
  e = mkEdge x y /\ cfg' = CFG.addEdge cfg e /\
  numBasicBlocks wd' = numBasicBlocks wd /\
  blocks wd'
  = alter (BasicBlock.addInEdge x) y (alter (BasicBlock.addOutEdge y) x (blocks wd)).
Proof.
  unfold BasicBlockEdge_new, update_block. intros H. ok_inv. simplify_eq/=.
  lazymatch goal with
  | Hx : blocks wd !! x = Some _, Hy : <[x:=_]> (blocks wd) !! y = Some _ |- _ =>
      rename Hx into Ex; rename Hy into Ey
  end.
  split_and!; try done.
  apply list_eq. intros i.
  rewrite !list_lookup_alter, !list_lookup_insert, length_insert.
  rewrite list_lookup_insert in Ey.
  apply lookup_lt_Some in Ex as Hx.
  repeat case_decide; simplify_eq/=; rewrite ?Ex, ?Ey; cbn; try done; try lia;
    destruct_and?; simplify_eq; try done; try lia.
  all: exfalso; apply lookup_lt_Some in Ey; naive_solver lia.
Qed.

Lemma BasicBlockEdge_new_succeeds wd cfg x y :
  (x < length (blocks wd))%nat -> (y < length (blocks wd))%nat ->
  exists wd', BasicBlockEdge_new wd cfg x y
              = Ok (mkEdge x y, wd', CFG.addEdge cfg (mkEdge x y)).
Proof.
  intros Hx Hy. unfold BasicBlockEdge_new.
  destruct (update_block_ok wd x (BasicBlock.addOutEdge y) Hx) as (b & Hb & ->).
  cbn [mbind outcome_bind].
  set (wd1 := mkWorld _ _).
  assert (Hy1 : (y < length (blocks wd1))%nat) by (subst wd1; cbn; by rewrite length_insert).
  destruct (update_block_ok wd1 y (BasicBlock.addInEdge x) Hy1) as (b' & Hb' & ->).
  cbn [mbind outcome_bind]. by eexists.
Qed.

Lemma built_edge wd0 done vars wd cfg x y x' y' e wd' cfg' :
  built wd0 done vars wd cfg ->
  vars !! x = Some x' -> vars !! y = Some y' ->
  BasicBlockEdge_new wd cfg x' y' = Ok (e, wd', cfg') ->
  built wd0 (done ++ [NewEdge x y]) vars wd' cfg'.
Proof.
  intros Hbuilt Hx Hy Hnew.
  pose proof (built_var _ _ _ _ _ x' Hbuilt (list_elem_of_lookup_2 _ _ _ Hx)) as Hx'.
  pose proof (built_var _ _ _ _ _ y' Hbuilt (list_elem_of_lookup_2 _ _ _ Hy)) as Hy'.
  destruct Hbuilt as [Hkeys Hrefs Hlen Hold Hcnt Hstart Hblock Hids Hfirst Hvars Hedges Hdef Hadj].
  apply BasicBlockEdge_new_blocks in Hnew as (-> & -> & Hc & Hb).
  assert (Hlook : forall r, blocks wd' !! r
            = (fun b => BasicBlock.mk (BasicBlock.name b) (BasicBlock.id b)
                 (BasicBlock.inEdges b ++ if decide (y' = r) then [x'] else [])
                 (BasicBlock.outEdges b ++ if decide (x' = r) then [y'] else []))
              <$> blocks wd !! r).
  { intros r. rewrite Hb, !list_lookup_alter.
    destruct (blocks wd !! r) as [[n i ins outs]|] eqn:Hr;
      repeat case_decide; simplify_eq/=; rewrite ?Hr; cbn;
      rewrite ?app_nil_r; try done. }
  split; cbn [CFG.addEdge CFG.basicBlockMap CFG.edgeList CFG.startNode]; try done.
  - by rewrite Hb, !length_alter.
  - rewrite Hb, !take_alter_ge by lia. done.
  - lia.
  - intros id r Hin. destruct (Hblock _ _ Hin) as (b & Hr & Hid & Hn).
    rewrite Hlook, Hr. eexists. split; [done|]. cbn.
    by rewrite first_name_app, Hn.
  - intros id. rewrite created_app. cbn. by rewrite app_nil_r.
  - rewrite created_app. cbn. by rewrite app_nil_r.
  - rewrite created_app. cbn. by rewrite app_nil_r.
  - rewrite edge_calls_app, Hedges. cbn. by rewrite Hx, Hy.
  - intros a b [Hin|Hin]%elem_of_app; [by apply Hdef|].
    apply list_elem_of_singleton in Hin. simplify_eq.
    split; by eapply lookup_lt_Some.
  - intros r b Hr Hbr. rewrite Hlook in Hbr.
    destruct (blocks wd !! r) as [b0|] eqn:Hr0; simplify_eq/=.
    destruct (Hadj _ _ Hr Hr0) as [-> ->].
    by rewrite edges_from_snoc, edges_to_snoc.
Qed.

Lemma built_build wd0 cs done vars wd cfg wd' cfg' :
  built wd0 done vars wd cfg ->
  build cs vars wd cfg = Ok (wd', cfg') ->
  exists vars', built wd0 (done ++ cs) vars' wd' cfg'.
Proof.
  revert done vars wd cfg.
  induction cs as [|[name id|x y] cs IH]; intros done vars wd cfg Hb; cbn [build].
  - intros [= -> ->]. rewrite app_nil_r. by exists vars.
  - destruct (CFG.createNode wd cfg name id) as [[node wd1] cfg1] eqn:Hc.
    intros H. eapply built_createNode in Hc; [|done].
    destruct (IH _ _ _ _ Hc H) as [vars' Hb'].
    exists vars'. by rewrite <- app_assoc in Hb'.
  - intros H. ok_inv.
    lazymatch goal with
    | Hn : BasicBlockEdge_new _ _ _ _ = Ok _ |- _ =>
        eapply built_edge in Hn; [|done..]
    end.
    lazymatch goal with
    | Hn : built _ _ _ _ _, Hr : build _ _ _ _ = _ |- _ =>
        destruct (IH _ _ _ _ Hn Hr) as [vars' Hb']
    end.
    exists vars'. by rewrite <- app_assoc in Hb'.
Qed.

(** ** Graphs built by [createNode] and edge construction *)

(** The start node of a graph is the block made by its first
    [createNode] call, with the name and the id of that call; no later
    call changes it.  A graph without [createNode] call has no start
    node and no node. *)
Theorem build_startNode (wd0 wd : World) (cs : list call) (cfg : CFG.t) :
  build cs [] wd0 CFG.new = Ok (wd, cfg) ->
  match head (created cs) with
  | None => CFG.startNode cfg = None /\ CFG.getNumNodes cfg = 0
  | Some (name, id) =>
      exists b,
        CFG.startNode cfg = Some (length (blocks wd0)) /\
        blocks wd !! length (blocks wd0) = Some b /\
        BasicBlock.name b = name /\ BasicBlock.id b = id
  end.
Proof.
  intros H. destruct (built_build _ _ _ _ _ _ _ _ (built_empty wd0) H) as [vars Hb].
  cbn in Hb. destruct Hb as [Hkeys Hrefs Hlen _ _ Hstart Hblock Hids Hfirst _ _ _ _].
  unfold CFG.getNumNodes.
  destruct (CFG.basicBlockMap cfg) as [|[i0 v0] m] eqn:Hm; cbn in *.
  - destruct (created cs) as [|[name id] ?]; [done|]. done.
  - destruct (created cs) as [|[name id] rest] eqn:Hcr; [done|].
    cbn in *. simplify_eq.
    destruct (Hblock id (length (blocks wd0))) as (b & Hb & Hid & Hn); [left|].
    exists b. split_and!; try done.
    assert (first_name cs id = Some name) as Hf; [|congruence].
    clear -Hcr. induction cs as [|[n i|x y] cs IH]; cbn in *; simplify_eq; [|by apply IH].
    by rewrite decide_True.
Qed.

Lemma sample_build :
  build sample_calls [] world0 CFG.new = Ok (sample_world, sample_cfg).
Proof. reflexivity. Qed.

Lemma build_startNode_witness :
  exists b,
    CFG.startNode sample_cfg = Some 0%nat /\
    blocks sample_world !! 0%nat = Some b /\
    BasicBlock.name b = 10 /\ BasicBlock.id b = 0.
Proof.
  apply (build_startNode world0 sample_world sample_calls sample_cfg).
  reflexivity.
Defined.

(** [basicBlockMap.get(id)] after a run of calls: the block registered
    under [id] carries that id and the name of the first [createNode]
    call made for it (later calls for the same id return that block and
    leave its name alone); an id that no call mentioned has no entry. *)
Theorem build_map_get (wd0 wd : World) (cs : list call) (cfg : CFG.t) (id : Z) :
  build cs [] wd0 CFG.new = Ok (wd, cfg) ->
  match first_name cs id with
  | None => CFG.map_get (CFG.basicBlockMap cfg) id = None
  | Some name =>
      exists r b,
        CFG.map_get (CFG.basicBlockMap cfg) id = Some r /\
        blocks wd !! r = Some b /\
        BasicBlock.name b = name /\ BasicBlock.id b = id
  end.
Proof.
  intros H. destruct (built_build _ _ _ _ _ _ _ _ (built_empty wd0) H) as [vars Hb].
  cbn in Hb. destruct Hb as [Hkeys _ _ _ _ _ Hblock Hids _ _ _ _ _].
  destruct (first_name cs id) as [name|] eqn:Hf.
  - assert (Hin : id ∈ (CFG.basicBlockMap cfg).*1).
    { apply Hids. destruct (decide (id ∈ (created cs).*2)) as [|Hn]; [done|].
      apply first_name_None in Hn. congruence. }
    apply list_elem_of_fmap in Hin as ([i r] & -> & Hin). cbn in *.
    destruct (Hblock _ _ Hin) as (b & Hb & Hid & Hn).
    exists r, b. split_and!; try done; [|congruence].
    by apply map_get_elem_of.
  - apply map_get_None. rewrite Hids. by apply first_name_None.
Qed.

Lemma build_map_get_witness :
  exists r b,
    CFG.map_get (CFG.basicBlockMap sample_cfg) 1 = Some r /\
    blocks sample_world !! r = Some b /\
    BasicBlock.name b = 11 /\ BasicBlock.id b = 1.
Proof.
  apply (build_map_get world0 sample_world sample_calls sample_cfg 1).
  reflexivity.
Defined.

(** Blocks are allocated for new ids only: the graph has one node per
    distinct id among the [createNode] calls, the world has grown by as
    many blocks, the static counter [numBasicBlocks] by as much, and the
    blocks that existed before are as they were. *)
Theorem build_allocation (wd0 wd : World) (cs : list call) (cfg : CFG.t) :
  build cs [] wd0 CFG.new = Ok (wd, cfg) ->
  CFG.getNumNodes cfg = Z.of_nat (length (remove_dups (created cs).*2)) /\
  Z.of_nat (length (blocks wd)) = Z.of_nat (length (blocks wd0)) + CFG.getNumNodes cfg /\
  BasicBlock_getNumBasicBlocks wd
    = BasicBlock_getNumBasicBlocks wd0 + CFG.getNumNodes cfg /\
  take (length (blocks wd0)) (blocks wd) = blocks wd0.
Proof.
  intros H. destruct (built_build _ _ _ _ _ _ _ _ (built_empty wd0) H) as [vars Hb].
  cbn in Hb. destruct Hb as [Hkeys _ Hlen Hold Hcnt _ _ Hids _ _ _ _ _].
  unfold CFG.getNumNodes, BasicBlock_getNumBasicBlocks. split_and!; try done; [|lia].
  f_equal. rewrite <- (length_fmap fst).
  apply Permutation_length, NoDup_Permutation; [done|apply NoDup_remove_dups|].
  intros id. by rewrite Hids, elem_of_remove_dups.
Qed.

Lemma build_allocation_witness :
  CFG.getNumNodes sample_cfg = Z.of_nat (length (remove_dups (created sample_calls).*2)) /\
  Z.of_nat (length (blocks sample_world))
    = Z.of_nat (length (blocks world0)) + CFG.getNumNodes sample_cfg /\
  BasicBlock_getNumBasicBlocks sample_world
    = BasicBlock_getNumBasicBlocks world0 + CFG.getNumNodes sample_cfg /\
  take (length (blocks world0)) (blocks sample_world) = blocks world0.
Proof.
  apply (build_allocation world0 sample_world sample_calls sample_cfg).
  reflexivity.
Defined.

(** The edge list holds one edge per [NewEdge] call, in call order:
    the call [NewEdge x y] gives the edge from the block registered
    under the id of the [x]-th [createNode] call to the block registered
    under the id of the [y]-th. *)
Theorem build_edgeList (wd0 wd : World) (cs : list call) (cfg : CFG.t) :
  build cs [] wd0 CFG.new = Ok (wd, cfg) ->
  exists vars,
    Forall2 (fun r c => CFG.map_get (CFG.basicBlockMap cfg) c.2 = Some r)
      vars (created cs) /\
    CFG.edgeList cfg = edge_calls vars cs /\
    length (CFG.edgeList cfg)
      = length (filter (fun c => is_NewEdge c = true) cs).
Proof.
  intros H. destruct (built_build _ _ _ _ _ _ _ _ (built_empty wd0) H) as [vars Hb].
  cbn in Hb. destruct Hb as [_ _ _ _ _ _ _ _ _ Hvars Hedges Hdef _].
  exists vars. split_and!; try done.
  rewrite Hedges. clear -Hdef. unfold edge_calls.
  induction cs as [|[name id|x y] cs IH]; [done| |].
  - rewrite filter_cons_False by done. cbn.
    apply IH. intros x y Hin. apply Hdef. set_solver.
  - destruct (Hdef x y) as [Hx Hy]; [set_solver|].
    destruct (lookup_lt_is_Some_2 _ _ Hx) as [x' Hx'].
    destruct (lookup_lt_is_Some_2 _ _ Hy) as [y' Hy'].
    rewrite filter_cons_True by done. cbn. rewrite Hx', Hy'. cbn.
    f_equal. apply IH. intros a b Hin. apply Hdef. set_solver.
Qed.

Lemma build_edgeList_witness :
  exists vars,
    Forall2 (fun r c => CFG.map_get (CFG.basicBlockMap sample_cfg) c.2 = Some r)
      vars (created sample_calls) /\
    CFG.edgeList sample_cfg = edge_calls vars sample_calls /\
    length (CFG.edgeList sample_cfg)
      = length (filter (fun c => is_NewEdge c = true) sample_calls).
Proof.
  apply (build_edgeList world0 sample_world sample_calls sample_cfg).
  reflexivity.
Defined.

(** The edge lists of the blocks agree with the edge list of the graph:
    the out-edges of a block of the graph are the targets of the edges
    that leave it, its in-edges the sources of the edges that enter it,
    both in the order in which the edges were constructed. *)
Theorem build_adjacency (wd0 wd : World) (cs : list call) (cfg : CFG.t)
    (r : nat) (b : BasicBlock.t) :
  build cs [] wd0 CFG.new = Ok (wd, cfg) ->
  (length (blocks wd0) <= r)%nat ->
  blocks wd !! r = Some b ->
  BasicBlock.outEdges b = edges_from (CFG.edgeList cfg) r /\
  BasicBlock.inEdges b = edges_to (CFG.edgeList cfg) r /\
  BasicBlock.getNumSucc b
    = Z.of_nat (length (filter (fun e => from e = r) (CFG.edgeList cfg))) /\
  BasicBlock.getNumPred b
    = Z.of_nat (length (filter (fun e => to e = r) (CFG.edgeList cfg))).
Proof.
  intros H Hr Hb.
  destruct (built_build _ _ _ _ _ _ _ _ (built_empty wd0) H) as [vars Hbuilt].
  destruct (built_adjacent _ _ _ _ _ Hbuilt r b Hr Hb) as [Ho Hi].
  unfold BasicBlock.getNumSucc, BasicBlock.getNumPred.
  rewrite Ho, Hi. unfold edges_from, edges_to. by rewrite !length_fmap.
Qed.

Lemma build_adjacency_witness :
  BasicBlock.outEdges (BasicBlock.mk 10 0 [1%nat] [1%nat; 1%nat])
    = edges_from (CFG.edgeList sample_cfg) 0 /\
  BasicBlock.inEdges (BasicBlock.mk 10 0 [1%nat] [1%nat; 1%nat])
    = edges_to (CFG.edgeList sample_cfg) 0 /\
  BasicBlock.getNumSucc (BasicBlock.mk 10 0 [1%nat] [1%nat; 1%nat])
    = Z.of_nat (length (filter (fun e => from e = 0%nat) (CFG.edgeList sample_cfg))) /\
  BasicBlock.getNumPred (BasicBlock.mk 10 0 [1%nat] [1%nat; 1%nat])
    = Z.of_nat (length (filter (fun e => to e = 0%nat) (CFG.edgeList sample_cfg))).
Proof.
  apply (build_adjacency world0 sample_world sample_calls sample_cfg 0).
  - reflexivity.
  - cbn. lia.
  - reflexivity.
Defined.

(** Edge construction between blocks that [createNode] returned never
    throws: a run of calls in which every [NewEdge] names two earlier
    [createNode] calls builds its graph. *)
Theorem build_succeeds (wd0 : World) (cs : list call) :
  well_scoped 0 cs = true ->
  exists wd cfg, build cs [] wd0 CFG.new = Ok (wd, cfg).
Proof.
  assert (Hgen : forall cs done vars wd cfg,
    built wd0 done vars wd cfg -> well_scoped (length vars) cs = true ->
    exists wd' cfg', build cs vars wd cfg = Ok (wd', cfg')).
  { clear cs. induction cs as [|[name id|x y] cs IH]; intros done vars wd cfg Hb Hs.
    - by eexists _, _.
    - cbn [build]. destruct (CFG.createNode wd cfg name id) as [[node wd1] cfg1] eqn:Hc.
      eapply built_createNode in Hc; [|done].
      eapply IH; [done|]. rewrite length_app. cbn in *.
      by replace (length vars + 1)%nat with (S (length vars)) by lia.
    - cbn in Hs. apply andb_true_iff in Hs as [[Hx Hy]%andb_true_iff Hs].
      apply Nat.ltb_lt in Hx, Hy.
      destruct (lookup_lt_is_Some_2 _ _ Hx) as [x' Hx'].
      destruct (lookup_lt_is_Some_2 _ _ Hy) as [y' Hy'].
      cbn [build]. rewrite Hx', Hy'. cbn.
      pose proof (built_var _ _ _ _ _ x' Hb (list_elem_of_lookup_2 _ _ _ Hx')) as Hxb.
      pose proof (built_var _ _ _ _ _ y' Hb (list_elem_of_lookup_2 _ _ _ Hy')) as Hyb.
      destruct (BasicBlockEdge_new_succeeds wd cfg x' y') as [wd1 Hnew]; [lia..|].
      rewrite Hnew. cbn.
      eapply (IH (done ++ [NewEdge x y])); [|done].
      by eapply (built_edge _ _ _ _ _ x y x' y'). }
  intros Hs. eapply (Hgen cs [] []); [apply built_empty|done].
Qed.

Lemma build_succeeds_witness :
  exists wd cfg, build sample_calls [] world0 CFG.new = Ok (wd, cfg).
Proof. apply (build_succeeds world0 sample_calls). reflexivity. Defined.

(** ** The checksum arithmetic *)


(** ** Union-find with path compression *)

Lemma uf_path_root_inv nodes x r k n :
  uf_path nodes x r k -> nodes !! x = Some n -> UnionFindNode.parent n = Some x ->
  x = r /\ k = 0%nat.
Proof. intros Hp Hn Hx. inversion Hp; simplify_eq; done. Qed.

Lemma uf_path_end nodes x r k :
  uf_path nodes x r k ->
  exists n, nodes !! r = Some n /\ UnionFindNode.parent n = Some r.
Proof. induction 1; eauto. Qed.

Lemma uf_path_unique nodes x r1 k1 r2 k2 :
  uf_path nodes x r1 k1 -> uf_path nodes x r2 k2 -> r1 = r2 /\ k1 = k2.
Proof.
  intros H1. revert r2 k2.
  induction H1 as [r n Hn Hr|x n p r k Hn Hx Hne Hp IH]; intros r2 k2 H2.
  - by destruct (uf_path_root_inv _ _ _ _ _ H2 Hn Hr).
  - inversion H2; simplify_eq.
    destruct (IH _ _ ltac:(eassumption)) as [-> ->]. done.
Qed.

Lemma findSet_compress_lookup nodeList p (nodes : gmap Z UnionFindNode.t) z :
  UnionFindNode.findSet_compress nodeList p nodes !! z
  = if decide (z ∈ nodeList)
    then (fun nd => UnionFindNode.mk (UnionFindNode.dfsNumber nd) p
                      (UnionFindNode.bb nd) (UnionFindNode.loop nd)) <$> nodes !! z
    else nodes !! z.
Proof.
  revert nodes. induction nodeList as [|n rest IH]; intros nodes; [done|].
  cbn. rewrite IH. destruct (decide (z = n)) as [->|Hne].
  - rewrite lookup_alter_eq. rewrite (decide_True (P := n ∈ n :: rest)) by set_solver.
    case_decide; [|done]. by destruct (nodes !! n).
  - rewrite lookup_alter_ne by done.
    destruct (decide (z ∈ rest)).
    + by rewrite decide_True by set_solver.
    + by rewrite decide_False by set_solver.
Qed.

(** The walk of [findSet] from [x] ends in the root of [x]; it collects
    nodes on the way from [x] to the root only, and [x] itself unless
    [x] is the root or a child of the root. *)
Lemma findSet_walk_path (nodes : gmap Z UnionFindNode.t) x r k fuel nodeList :
  uf_path nodes x r k -> (k < fuel)%nat ->
  exists nodeList',
    UnionFindNode.findSet_walk fuel nodes x nodeList = Ok (r, nodeList') /\
    (forall z, z ∈ nodeList' -> z ∈ nodeList \/ exists j, uf_path nodes z r j) /\
    (forall z, z ∈ nodeList -> z ∈ nodeList') /\
    (forall n, nodes !! x = Some n -> UnionFindNode.parent n ≠ Some r ->
       x ∈ nodeList').
Proof.
  intros Hp. revert fuel nodeList.
  induction Hp as [r n Hn Hr|x n p r k Hn Hx Hne Hp IH]; intros fuel nodeList Hk;
    (destruct fuel as [|fuel]; [lia|]); cbn; rewrite Hn; cbn.
  - rewrite decide_True by done. exists nodeList. split_and!; eauto.
    intros n' ? ?. by simplify_eq.
  - rewrite decide_False by congruence. rewrite Hx. cbn.
    assert (exists pn, nodes !! p = Some pn) as [pn Hpn] by (inversion Hp; eauto).
    rewrite Hpn. cbn.
    destruct (IH fuel (if decide (UnionFindNode.parent pn = Some p)
                       then nodeList else nodeList ++ [x]))
      as (nl & -> & Hon & Hsub & _); [lia|].
    exists nl. split_and!; [done| | |].
    + intros z Hz. destruct (Hon z Hz) as [Hin|?]; [|by right].
      case_decide; [by left|].
      apply elem_of_app in Hin as [?|Hin]; [by left|].
      apply list_elem_of_singleton in Hin as ->. right. exists (S k).
      by econstructor.
    + intros z Hz. apply Hsub. case_decide; [done|]. set_solver.
    + intros n' Hn' Hpr. simplify_eq. apply Hsub.
      rewrite decide_False; [set_solver|].
      intros Hroot. destruct (uf_path_root_inv _ _ _ _ _ Hp Hpn Hroot) as [-> _].
      congruence.
Qed.

(** [findSet] on a node whose parent chain ends in the root [r] returns
    [r].  The compression changes no representative: every node that
    had a root keeps it, at no greater distance; and the node asked for
    is afterwards the root or a child of the root. *)
Theorem findSet_compresses (nodes : gmap Z UnionFindNode.t) (x r : Z) (k fuel : nat) :
  uf_path nodes x r k -> (k < fuel)%nat ->
  exists nodes',
    UnionFindNode.findSet fuel nodes x = Ok (r, nodes') /\
    (forall y ry j, uf_path nodes y ry j ->
       exists j', (j' <= j)%nat /\ uf_path nodes' y ry j') /\
    (exists j, (j <= 1)%nat /\ uf_path nodes' x r j).
Proof.
  intros Hp Hk.
  destruct (findSet_walk_path nodes x r k fuel [] Hp Hk) as (nl & Hw & Hon & _ & Hx).
  destruct (uf_path_end _ _ _ _ Hp) as (nr & Hnr & Hroot).
  unfold UnionFindNode.findSet. rewrite Hw. cbn. rewrite Hnr. cbn. rewrite Hroot.
  eexists. split; [done|].
  set (nodes' := UnionFindNode.findSet_compress nl (Some r) nodes).
  assert (Hnl : forall z, z ∈ nl -> exists j, uf_path nodes z r j).
  { intros z Hz. destruct (Hon z Hz) as [Hin|?]; [|done]. by apply elem_of_nil in Hin. }
  assert (Hlinked : Forall (linked nodes) nl).
  { by apply findSet_walk_root in Hw as [_ ?]. }
  assert (Hr' : nodes' !! r = Some nr).
  { subst nodes'. rewrite findSet_compress_lookup, decide_False; [done|].
    intros Hin. eapply Forall_forall in Hlinked as (n' & p & ? & ? & ?); [|done].
    by simplify_eq. }
  assert (Hkeep : forall y ry j, uf_path nodes y ry j ->
            exists j', (j' <= j)%nat /\ uf_path nodes' y ry j').
  { intros y ry j Hy.
    induction Hy as [ry n Hn Hry|y n p ry j Hn Hy Hne Hp' (j' & Hj' & IH)].
    - exists 0%nat. split; [done|]. apply (uf_path_root _ _ n); [|done].
      subst nodes'. rewrite findSet_compress_lookup, decide_False; [done|].
      intros Hin. eapply Forall_forall in Hlinked as (n' & p & ? & ? & ?); [|done].
      by simplify_eq.
    - destruct (decide (y ∈ nl)) as [Hin|Hnin].
      + destruct (Hnl y Hin) as [i Hi].
        destruct (uf_path_unique _ _ _ _ _ _ Hi (uf_path_link _ _ _ _ _ _ Hn Hy Hne Hp'))
          as [<- _].
        exists 1%nat. split; [lia|].
        apply (uf_path_link _ _ (UnionFindNode.mk (UnionFindNode.dfsNumber n) (Some r)
                                   (UnionFindNode.bb n) (UnionFindNode.loop n)) r).
        * subst nodes'. by rewrite findSet_compress_lookup, decide_True, Hn by done.
        * done.
        * intros ->. by simplify_eq.
        * by apply (uf_path_root _ _ nr).
      + exists (S j'). split; [lia|].
        apply (uf_path_link _ _ n p); try done.
        subst nodes'. by rewrite findSet_compress_lookup, decide_False by done. }
  split; [done|].
  destruct (decide (x = r)) as [->|Hxr].
  { exists 0%nat. split; [lia|]. by apply (uf_path_root _ _ nr). }
  inversion Hp as [|? n p ? k' Hn Hpx Hne Hp']; simplify_eq.
  exists 1%nat. split; [lia|].
  destruct (decide (p = r)) as [->|Hpr].
  - destruct (decide (x ∈ nl)).
    + apply (uf_path_link _ _ (UnionFindNode.mk (UnionFindNode.dfsNumber n) (Some r)
                                 (UnionFindNode.bb n) (UnionFindNode.loop n)) r);
        try done; [|by apply (uf_path_root _ _ nr)].
      subst nodes'. by rewrite findSet_compress_lookup, decide_True, Hn by done.
    + apply (uf_path_link _ _ n r); try done; [|by apply (uf_path_root _ _ nr)].
      subst nodes'. by rewrite findSet_compress_lookup, decide_False by done.
  - apply (uf_path_link _ _ (UnionFindNode.mk (UnionFindNode.dfsNumber n) (Some r)
                               (UnionFindNode.bb n) (UnionFindNode.loop n)) r);
      try done; [|by apply (uf_path_root _ _ nr)].
    subst nodes'. rewrite findSet_compress_lookup, decide_True, Hn; [done|].
    apply (Hx n); [done|congruence].
Qed.

Lemma uf_chain_path : uf_path uf_chain 2 0 2.
Proof.
  apply (uf_path_link _ _ (UnionFindNode.mk 2 (Some 1) (Some 2%nat) None) 1); try done.
  apply (uf_path_link _ _ (UnionFindNode.mk 1 (Some 0) (Some 1%nat) None) 0); try done.
  by apply (uf_path_root _ _ (UnionFindNode.mk 0 (Some 0) (Some 0%nat) None)).
Qed.

Lemma findSet_compresses_witness :
  exists nodes',
    UnionFindNode.findSet 3 uf_chain 2 = Ok (0, nodes') /\
    (forall y ry j, uf_path uf_chain y ry j ->
       exists j', (j' <= j)%nat /\ uf_path nodes' y ry j') /\
    (exists j, (j <= 1)%nat /\ uf_path nodes' 2 0 j).
Proof.
  apply (findSet_compresses uf_chain 2 0 2 3).
  - exact uf_chain_path.
  - lia.
Defined.

Lemma uf_path_union (nodes : gmap Z UnionFindNode.t) x w nw y k :
  nodes !! w = Some nw -> UnionFindNode.parent nw = Some w -> x ≠ w ->
  uf_path nodes y x k ->
  uf_path (UnionFindNode.union x w nodes) y w (S k).
Proof.
  intros Hw Hroot Hne Hp. unfold UnionFindNode.union.
  assert (Hw' : alter (UnionFindNode.set_parent w) x nodes !! w = Some nw)
    by (by rewrite lookup_alter_ne).
  induction Hp as [x n Hn Hx|y n p x k Hn Hy Hyp Hp IH].
  - apply (uf_path_link _ _ (UnionFindNode.set_parent w n) w); try done.
    + by rewrite lookup_alter_eq, Hn.
    + by apply (uf_path_root _ _ nw).
  - destruct (uf_path_end _ _ _ _ Hp) as (nx & Hnx & Hxr).
    apply (uf_path_link _ _ n p); try done; [|by apply IH].
    rewrite lookup_alter_ne; [done|]. intros <-. simplify_eq.
Qed.

Lemma uf_path_union_other (nodes : gmap Z UnionFindNode.t) x w nx z rz j :
  nodes !! x = Some nx -> UnionFindNode.parent nx = Some x -> rz ≠ x ->
  uf_path nodes z rz j ->
  uf_path (UnionFindNode.union x w nodes) z rz j.
Proof.
  intros Hx Hroot Hne Hp. unfold UnionFindNode.union.
  induction Hp as [r n Hn Hr|y n p r k Hn Hy Hyp Hp IH].
  - apply (uf_path_root _ _ n); [|done]. by rewrite lookup_alter_ne.
  - apply (uf_path_link _ _ n p); try done; [|by apply IH].
    rewrite lookup_alter_ne; [done|]. intros <-. simplify_eq.
Qed.

(** [x.union(w)] for two distinct roots [x] and [w]: afterwards
    [findSet] returns [w] for every node whose root was [x], and still
    returns their old root for all other nodes. *)
Theorem union_findSet (nodes : gmap Z UnionFindNode.t) (x w : Z)
    (nx nw : UnionFindNode.t) :
  nodes !! x = Some nx -> UnionFindNode.parent nx = Some x ->
  nodes !! w = Some nw -> UnionFindNode.parent nw = Some w ->
  x ≠ w ->
  (forall y k, uf_path nodes y x k ->
     exists nodes',
       UnionFindNode.findSet (S (S k)) (UnionFindNode.union x w nodes) y
         = Ok (w, nodes')) /\
  (forall z rz j, uf_path nodes z rz j -> rz ≠ x ->
     exists nodes',
       UnionFindNode.findSet (S j) (UnionFindNode.union x w nodes) z
         = Ok (rz, nodes')).
Proof.
  intros Hx Hxr Hw Hwr Hne. split.
  - intros y k Hp. eapply findSet_returns; [|constructor].
    by eapply uf_path_union.
  - intros z rz j Hp Hz. eapply findSet_returns; [|constructor].
    by eapply uf_path_union_other.
Qed.

Lemma union_findSet_witness :
  (forall y k, uf_path uf_forest y 0 k ->
     exists nodes',
       UnionFindNode.findSet (S (S k)) (UnionFindNode.union 0 3 uf_forest) y
         = Ok (3, nodes')) /\
  (forall z rz j, uf_path uf_forest z rz j -> rz ≠ 0 ->
     exists nodes',
       UnionFindNode.findSet (S j) (UnionFindNode.union 0 3 uf_forest) z
         = Ok (rz, nodes')).
Proof.
  apply (union_findSet uf_forest 0 3
           (UnionFindNode.mk 0 (Some 0) (Some 0%nat) None)
           (UnionFindNode.mk 3 (Some 3) (Some 3%nat) None)).
  - reflexivity.
  - reflexivity.
  - reflexivity.
  - reflexivity.
  - lia.
Defined.

(** ** The number of loops *)

Lemma find_all_count bs size n st g r g' :
  stepc_inv bs (Z.of_nat n) st g ->
  HavlakLoopFinder.find_all size n st g = Ok (r, g') ->
  (length (LSG.objs g) <= length (LSG.objs g') <= length (LSG.objs g) + n)%nat.
Proof.
  revert st g. induction n as [|n IH]; intros st g Hinv H; cbn in H.
  - simplify_eq. lia.
  - ok_inv.
    lazymatch goal with
    | Hf : HavlakLoopFinder.find_loop _ _ _ _ = Ok (?r1, _) |- _ =>
        destruct r1 as [st1|v]
    end.
    + lazymatch goal with
      | Hf : HavlakLoopFinder.find_loop _ _ _ _ = Ok _ |- _ =>
          apply (find_loop_inv bs) in Hf as (Hinv1 & _ & Hnew);
            [|by replace (Z.of_nat n + 1) with (Z.of_nat (S n)) by lia]
      end.
      apply IH in H; [|done].
      destruct Hnew as [->|(l & _ & Hlen & _)]; lia.
    + simplify_eq.
      lazymatch goal with
      | Hf : HavlakLoopFinder.find_loop _ _ _ _ = Ok _ |- _ =>
          apply find_loop_Return in Hf as [_ ->]
      end.
      lia.
Qed.

(** What [findLoops] returns on a fresh loop structure graph: 0 when
    the graph has no start node (the loop structure graph is then left
    as it was) or when the analysis gave up, and otherwise the number of
    loops, the root included.  Either way the loops registered are
    exactly the loop records made, the root and at most one loop per
    node of the graph. *)
Theorem findLoops_count (bs : list BasicBlock.t) (cfg : CFG.t) (n : Z) (g : LSG.t) :
  HavlakLoopFinder.findLoops bs cfg LSG.new = Ok (n, g) ->
  (n = 0 \/ n = LSG.getNumLoops g) /\
  (CFG.startNode cfg = None -> n = 0 /\ g = LSG.new) /\
  LSG.getNumLoops g = Z.of_nat (length (LSG.objs g)) /\
  1 <= LSG.getNumLoops g <= CFG.getNumNodes cfg + 1.
Proof.
  intros H.
  pose proof (findLoops_forest bs cfg n g H) as (_ & Hloops & _ & _).
  assert (Hnum : LSG.getNumLoops g = Z.of_nat (length (LSG.objs g))).
  { unfold LSG.getNumLoops. by rewrite Hloops, length_seq. }
  unfold HavlakLoopFinder.findLoops in H.
  destruct (CFG.startNode cfg) as [s|].
  2:{ simplify_eq. unfold CFG.getNumNodes. cbn.
      split_and!; try done; [by left|].
      change (LSG.getNumLoops LSG.new) with 1. lia. }
  ok_inv.
  lazymatch goal with
  | Hd : HavlakLoopFinder.DFS _ _ _ _ _ = Ok _,
    Hc : HavlakLoopFinder.classify _ _ _ = Ok _,
    Hf : HavlakLoopFinder.find_all _ _ _ _ = Ok (?r, ?g1) |- _ =>
      apply (DFS_fresh bs) in Hd; [|apply init_state_fresh];
      apply (classify_nodes bs) in Hc; rewrite <- Hc in Hd;
      apply (find_all_count bs) in Hf as Hcount; [|by apply fresh_stepc];
      assert (g = g1 /\ (n = 0 \/ n = LSG.getNumLoops g1)) as [-> Hn]
  end.
  { lazymatch goal with
    | Hf : HavlakLoopFinder.find_all _ _ _ _ = Ok (?r, _) |- _ =>
        destruct r; simplify_eq; [by split; [|right]|]
    end.
    lazymatch goal with
    | Hf : HavlakLoopFinder.find_all _ _ _ _ = Ok _ |- _ =>
        apply find_all_Return in Hf as ->
    end.
    by split; [|left]. }
  split_and!; try done.
  - cbn in Hcount. lia.
  - rewrite Hnum. cbn in Hcount. unfold CFG.getNumNodes in *. lia.
Qed.

Lemma findLoops_count_witness :
  (2 = 0 \/ 2 = LSG.getNumLoops self_loop_lsg) /\
  (CFG.startNode self_loop_cfg = None -> 2 = 0 /\ self_loop_lsg = LSG.new) /\
  LSG.getNumLoops self_loop_lsg = Z.of_nat (length (LSG.objs self_loop_lsg)) /\
  1 <= LSG.getNumLoops self_loop_lsg <= CFG.getNumNodes self_loop_cfg + 1.
Proof.
  apply (findLoops_count (blocks self_loop_world) self_loop_cfg 2 self_loop_lsg).
  vm_compute. reflexivity.
Defined.

(** ** The value of the forest checksum *)

(** After [findLoops] on a fresh loop structure graph the root record
    is as the constructor left it, so its checksum is 12; the forest
    checksum, which mixes it in last, is then an even number from 12 up
    to, and not including, [2^29 + 12]. *)
Theorem forest_checksum_range (bs : list BasicBlock.t) (cfg : CFG.t)
    (n : Z) (g : LSG.t) :
  HavlakLoopFinder.findLoops bs cfg LSG.new = Ok (n, g) ->
  SimpleLoop.checksum (length (LSG.objs g)) bs (LSG.objs g) (LSG.root g) = Ok 12 /\
  exists c,
    LSG.checksum (length (LSG.objs g)) bs g = Ok c /\
    12 <= c < 2 ^ 29 + 12 /\ c mod 2 = 0.
Proof.
  intros H. apply findLoops_forest in H as (Hobjs & Hloops & Hroot & _).
  pose proof Hobjs as (Hok & _ & Hr0).
  assert (Hlen : (1 <= length (LSG.objs g))%nat).
  { apply lookup_lt_Some in Hr0. lia. }
  assert (Hr : SimpleLoop.checksum (length (LSG.objs g)) bs (LSG.objs g) (LSG.root g)
               = Ok 12).
  { rewrite Hroot. destruct (length (LSG.objs g)) as [|k]; [lia|].
    cbn. rewrite Hr0. reflexivity. }
  split; [done|].
  assert (exists cs,
    Forall2 (fun i c => SimpleLoop.checksum (length (LSG.objs g)) bs (LSG.objs g) i = Ok c)
      (LSG.loops g) cs) as [cs Hcs].
  { assert (Hall : Forall (fun i => (i < length (LSG.objs g))%nat) (LSG.loops g)).
    { rewrite Hloops. apply Forall_forall. intros i Hi%elem_of_seq. lia. }
    revert Hall. generalize (LSG.loops g). intros idx Hall.
    induction Hall as [|i rest Hi _ [cs IH]]; [by exists []|].
    destruct (checksum_total bs (LSG.objs g) (length (LSG.objs g)) i Hobjs)
      as [c Hc]; [lia..|].
    exists (c :: cs). by constructor. }
  unfold LSG.checksum. erewrite mix_children_spec by done. cbn. rewrite Hr. cbn.
  eexists. split; [done|].
  set (acc := fold_left mix cs _).
  assert (Hmix : mix acc 12 = 2 * (acc mod 2 ^ 28) + 12).
  { unfold mix. change 0x0fffffff with (Z.ones 28).
    rewrite Z.land_ones by lia. rewrite Z.shiftl_mul_pow2 by lia. lia. }
  rewrite Hmix. pose proof (Z.mod_pos_bound acc (2 ^ 28)).
  split; [lia|].
  replace (2 * (acc mod 2 ^ 28) + 12) with (0 + (acc mod 2 ^ 28 + 6) * 2) by lia.
  by rewrite Z.mod_add by lia.
Qed.

Lemma forest_checksum_range_witness :
  SimpleLoop.checksum (length (LSG.objs self_loop_lsg)) (blocks self_loop_world)
    (LSG.objs self_loop_lsg) (LSG.root self_loop_lsg) = Ok 12 /\
  exists c,
    LSG.checksum (length (LSG.objs self_loop_lsg)) (blocks self_loop_world)
      self_loop_lsg = Ok c /\
    12 <= c < 2 ^ 29 + 12 /\ c mod 2 = 0.
Proof.
  apply (forest_checksum_range (blocks self_loop_world) self_loop_cfg 2 self_loop_lsg).
  vm_compute. reflexivity.
Defined.

(** ** Step b: filing the incoming edges *)

Section classify_spec.
Import HavlakLoopFinder.

Lemma classify_preds_files bs w es vs st l1 l2 :
  Forall2 (fun e v => exists vb, bs !! e = Some vb /\
                        v = numbers st !! BasicBlock.name vb) es vs ->
  backPreds st !! w = Some l1 ->
  nonBackPreds st !! w = Some l2 ->
  exists st',
    classify_preds bs w es st = Ok st' /\
    backPreds st'
      = <[w := l1 ++ omap id (filter (fun v => v ≠ Some UNVISITED /\
                                        isAncestor w v (last st) = true) vs)]>
          (backPreds st) /\
    nonBackPreds st'
      = <[w := l2 ++ filter (fun v => v ≠ Some UNVISITED /\
                               isAncestor w v (last st) = false) vs]>
          (nonBackPreds st) /\
    numbers st' = numbers st /\ header st' = header st /\ types st' = types st /\
    last st' = last st /\ nodes st' = nodes st.
Proof.
  intros H. revert vs st l1 l2 H.
  induction es as [|e es IH]; intros vs st l1 l2 H Hb Hn;
    inversion H as [|? v ? vs' (vb & He & Hv) Hrest]; simplify_eq.
  - exists st. cbn. rewrite !app_nil_r, !insert_id by done. done.
  - cbn [classify_preds]. rewrite He. cbn [deref mbind outcome_bind].
    set (v := numbers st !! BasicBlock.name vb) in *.
    destruct (decide (v = Some UNVISITED)) as [Hu|Hu].
    { destruct (IH vs' st l1 l2 Hrest Hb Hn) as (st' & -> & ? & ? & ?).
      exists st'. split; [done|].
      rewrite !filter_cons_False by tauto. done. }
    destruct (isAncestor w v (last st)) eqn:Ha.
    + destruct v as [z|] eqn:Hz; [|done].
      unfold push_at. rewrite Hb. cbn [deref mbind outcome_bind].
      destruct (IH vs' (set_backPreds (<[w:=l1 ++ [z]]> (backPreds st)) st)
                  (l1 ++ [z]) l2) as (st' & -> & Hb' & Hn' & ?);
        [done|cbn; apply lookup_insert_eq|done|].
      exists st'. split; [done|].
      rewrite filter_cons_True by done. rewrite filter_cons_False by (rewrite Ha; naive_solver).
      cbn in *. rewrite Hb', Hn', insert_insert_eq, <- app_assoc. done.
    + unfold push_at. rewrite Hn. cbn [deref mbind outcome_bind].
      destruct (IH vs' (set_nonBackPreds (<[w:=l2 ++ [v]]> (nonBackPreds st)) st)
                  l1 (l2 ++ [v])) as (st' & -> & Hb' & Hn' & ?);
        [done|done|cbn; apply lookup_insert_eq|].
      exists st'. split; [done|].
      rewrite filter_cons_False by (rewrite Ha; naive_solver).
      rewrite filter_cons_True by done.
      cbn in *. rewrite Hb', Hn', insert_insert_eq, <- app_assoc. done.
Qed.

End classify_spec.



(** ** Graphs without cycles *)

Section acyclic.
Import HavlakLoopFinder.

(** The numbering writes to [nodes], [numbers] and [last] only. *)
Lemma DFS_other_arrays fuel bs r st c lastid st' :
  DFS fuel bs r st c = Ok (lastid, st') ->
  backPreds st' = backPreds st /\ nonBackPreds st' = nonBackPreds st /\
  types st' = types st /\ header st' = header st.
Proof.
  revert r st c lastid st'.
  induction fuel as [|fuel IH]; intros r st c lastid st' H; [done|].
  cbn in H. ok_inv.
  assert (Htargets : forall es l0 st0 l1 st1,
    DFS_targets (DFS fuel bs) bs es l0 st0 = Ok (l1, st1) ->
    backPreds st1 = backPreds st0 /\ nonBackPreds st1 = nonBackPreds st0 /\
    types st1 = types st0 /\ header st1 = header st0).
  { induction es as [|e es IHes]; intros l0 st0 l1 st1 Ht; cbn in Ht.
    - by simplify_eq.
    - ok_inv. case_decide; [|by eauto]. ok_inv.
      lazymatch goal with
      | Hv : DFS _ _ _ _ _ = Ok _, Hr : DFS_targets _ _ _ _ _ = Ok _ |- _ =>
          apply IH in Hv as (? & ? & ? & ?);
          apply IHes in Hr as (? & ? & ? & ?)
      end.
      split_and!; congruence. }
  lazymatch goal with
  | Ht : DFS_targets _ _ _ _ _ = Ok (?l1, ?st1) |- _ =>
      apply Htargets in Ht as (Hb & Hn & Ht' & Hh)
  end.
  simplify_eq. cbn in *.
  destruct (numbers _ !! _); cbn; split_and!; congruence.
Qed.

Lemma classify_preds_no_back bs w es st st' :
  (forall e vb z, e ∈ es -> bs !! e = Some vb ->
     numbers st !! BasicBlock.name vb = Some z -> z ≠ UNVISITED ->
     isAncestor w (Some z) (last st) = false) ->
  classify_preds bs w es st = Ok st' ->
  backPreds st' = backPreds st /\ numbers st' = numbers st /\
  last st' = last st /\ types st' = types st /\ nodes st' = nodes st.
Proof.
  revert st. induction es as [|e es IH]; intros st Hno H; cbn in H.
  - by simplify_eq.
  - ok_inv.
    lazymatch goal with Hb : bs !! e = Some ?b |- _ => rename b into vb; rename Hb into He end.
    case_decide as Hu.
    { apply IH in H; [done|].
      intros e0 vb0 z0 ? ? ? ?. apply (Hno e0 vb0 z0); [set_solver|done..]. }
    destruct (numbers st !! BasicBlock.name vb) as [z|] eqn:Hz.
    + rewrite (Hno e vb z) in H; [|set_solver|done|done|congruence].
      ok_inv. apply IH in H; [done|].
      cbn. intros e0 vb0 z0 ? ? ? ?. apply (Hno e0 vb0 z0); [set_solver|done..].
    + cbn in H. ok_inv. apply IH in H; [done|].
      cbn. intros e0 vb0 z0 ? ? ? ?. apply (Hno e0 vb0 z0); [set_solver|done..].
Qed.

Lemma find_all_no_back size n st g r g' :
  (forall w, 0 <= w < Z.of_nat n -> backPreds st !! w = Some []) ->
  (forall w, types st !! w ≠ Some BB_SELF) ->
  find_all size n st g = Ok (r, g') ->
  r = Next st /\ g' = g.
Proof.
  revert r g'. induction n as [|n IH]; intros r g' Hb Ht H; cbn in H.
  - by simplify_eq.
  - assert (Hfl : find_loop size (Z.of_nat n) st g = Ok (Next st, g) \/
                  exists e, find_loop size (Z.of_nat n) st g = e /\
                            forall x, e ≠ Ok x).
    { unfold find_loop. destruct (nodes st !! Z.of_nat n) as [nd|]; cbn.
      2:{ right. eexists. split; [done|]. done. }
      destruct (UnionFindNode.bb nd); [|by left].
      rewrite Hb by lia. cbn. rewrite decide_False by (intros ?; done).
      destruct size; cbn; rewrite decide_False; try by left.
      all: intros [?|?]; [done|by eapply Ht]. }
    destruct Hfl as [Hfl|(e & Hfl & He)].
    + rewrite Hfl in H. cbn in H. apply IH in H; [done| |done].
      intros w Hw. apply Hb. lia.
    + rewrite Hfl in H. destruct e as [x| |]; [by destruct (He x)|done..].
Qed.

Lemma dense_block bs r b :
  dense bs = true -> bs !! r = Some b ->
  BasicBlock.name b = Z.of_nat r /\
  forall e, e ∈ BasicBlock.outEdges b -> (e < length bs)%nat.
Proof.
  intros Hd Hb. unfold dense in Hd. rewrite forallb_forall in Hd.
  specialize (Hd (r, b)). cbn in Hd.
  rewrite andb_true_iff, Z.eqb_eq, forallb_forall in Hd.
  destruct Hd as [Hn He].
  { apply list_elem_of_In, list_elem_of_lookup. exists r.
    by rewrite list_lookup_imap, Hb. }
  split; [done|]. intros e Hin%list_elem_of_In.
  specialize (He e Hin). by apply Nat.ltb_lt in He.
Qed.

Lemma init_lookup {A} (x : A) size k :
  (list_to_map ((fun i => (i, x)) <$> seqZ 0 size) : gmap Z A) !! k
  = if decide (0 <= k < size) then Some x else None.
Proof.
  case_decide as Hk.
  - apply elem_of_list_to_map_1.
    + rewrite <- list_fmap_compose. cbn. rewrite list_fmap_id. apply NoDup_seqZ.
    + apply list_elem_of_fmap. exists k. split; [done|]. apply elem_of_seqZ. lia.
  - apply not_elem_of_list_to_map_1. rewrite <- list_fmap_compose. cbn.
    rewrite list_fmap_id. rewrite elem_of_seqZ. lia.
Qed.

Lemma reachable_rank rank bs x y :
  ranked rank bs -> reachable bs x y -> (rank x <= rank y)%nat.
Proof.
  intros Hr. induction 1 as [|y b e _ IH Hb He]; [done|].
  specialize (Hr _ _ _ Hb He). lia.
Qed.

(** After the numbering of a graph whose blocks are named by their
    index: the state and the log of the traversal. *)
Lemma dense_numbering bs s :
  dense bs = true -> (s < length bs)%nat ->
  exists log st0,
    DFS (S (length bs)) bs s (init_state (Z.of_nat (length bs))) 0
      = Ok (Z.of_nat (length log) - 1, st0) /\
    dfs_visit bs [] s log /\
    numbered bs (Z.of_nat (length bs)) s log.*1 st0 /\
    spans_ok 0 log st0.
Proof.
  intros Hd Hs.
  pose proof (dense_keys_ok bs s Hd Hs) as Hkeys.
  destruct (DFS_refines bs _ s Hkeys (S (length bs)) s []
              (init_state (Z.of_nat (length bs))))
    as (log & Hlog & st0 & Hres & Hst & Hsp & _).
  { apply init_state_numbered. lia. }
  { constructor. }
  { set_solver. }
  { cbn. lia. }
  cbn in Hres, Hst, Hsp. by exists log, st0.
Qed.

(** In a numbered graph that has a topological order, no incoming edge
    of a block comes from one of its descendants in the traversal. *)
Lemma ranked_no_back bs s rank log st0 w nd r b e vb z :
  dense bs = true -> in_edges_mirrored bs -> ranked rank bs ->
  dfs_visit bs [] s log ->
  numbered bs (Z.of_nat (length bs)) s log.*1 st0 ->
  spans_ok 0 log st0 ->
  0 <= w ->
  nodes st0 !! w = Some nd -> UnionFindNode.bb nd = Some r -> bs !! r = Some b ->
  e ∈ BasicBlock.inEdges b -> bs !! e = Some vb ->
  numbers st0 !! BasicBlock.name vb = Some z -> z ≠ UNVISITED ->
  isAncestor w (Some z) (last st0) = false.
Proof.
  intros Hd Hmir Hrank Hlog (_ & _ & Hnum & Hinv & _ & _) Hsp Hw Hnd Hbb Hb He Hvb Hz Hu.
  destruct (isAncestor w (Some z) (last st0)) eqn:Ha; [exfalso|done].
  unfold isAncestor in Ha. apply andb_true_iff in Ha as [Hwz Hl]. apply Z.leb_le in Hwz.
  destruct (Hinv _ _ Hz) as [?|(i & x & bx & -> & Hi & Hbx & Hname)]; [done|].
  destruct (dense_block _ _ _ Hd Hbx) as [Hnx _].
  destruct (dense_block _ _ _ Hd Hvb) as [Hne _].
  assert (x = e) as -> by lia. clear Hnx Hname.
  assert (Hwlt : (Z.to_nat w < length log.*1)%nat).
  { apply lookup_lt_Some in Hi. lia. }
  destruct (lookup_lt_is_Some_2 _ _ Hwlt) as [xw Hxw].
  destruct (Hnum _ _ Hxw) as (bw & Hbw & _ & Hnode).
  rewrite Z2Nat.id in Hnode by done. rewrite Hnode in Hnd. simplify_eq/=.
  rewrite list_lookup_fmap in Hxw.
  destruct (log !! Z.to_nat w) as [[xw' m]|] eqn:Hlw; simplify_eq/=.
  specialize (Hsp _ _ _ Hlw). cbn in Hsp. rewrite Z2Nat.id in Hsp by done.
  rewrite Hsp in Hl. apply Z.leb_le in Hl.
  destruct (proj1 (dfs_segment bs) _ _ _ Hlog _ _ _ Hlw) as [Hle Hseg].
  destruct (proj1 (dfs_sound bs) _ _ _ Hseg) as (Hreach & _).
  assert (Hin : e ∈ (take m (drop (Z.to_nat w) log)).*1).
  { apply list_elem_of_lookup. exists (i - Z.to_nat w)%nat.
    rewrite list_lookup_fmap, lookup_take_lt by lia. rewrite lookup_drop.
    replace (Z.to_nat w + (i - Z.to_nat w))%nat with i by lia.
    by rewrite <- list_lookup_fmap. }
  apply Hreach in Hin.
  destruct (Hmir _ _ _ Hb He) as (be & Hbe & Hout).
  rewrite Hvb in Hbe. injection Hbe as <-.
  pose proof (Hrank _ _ _ Hvb Hout).
  pose proof (reachable_rank _ _ _ _ Hrank Hin). lia.
Qed.

Lemma classify_no_back bs s rank log st0 ws st st' :
  dense bs = true -> in_edges_mirrored bs -> ranked rank bs ->
  dfs_visit bs [] s log ->
  numbered bs (Z.of_nat (length bs)) s log.*1 st0 ->
  spans_ok 0 log st0 ->
  Forall (fun w => 0 <= w) ws ->
  backPreds st = backPreds st0 /\ numbers st = numbers st0 /\
  last st = last st0 /\ nodes st = nodes st0 /\
  (forall w, types st !! w ≠ Some BB_SELF) ->
  classify bs ws st = Ok st' ->
  backPreds st' = backPreds st0 /\ numbers st' = numbers st0 /\
  last st' = last st0 /\ nodes st' = nodes st0 /\
  (forall w, types st' !! w ≠ Some BB_SELF).
Proof.
  intros Hd Hmir Hrank Hlog Hst0 Hsp Hws. revert st.
  induction Hws as [|w ws Hw _ IH]; intros st Hst H; cbn in H.
  - by simplify_eq.
  - ok_inv. apply IH in H; [done|]. clear IH H.
    destruct Hst as (Hb & Hn & Hl & Hnd & Ht).
    lazymatch goal with Hc : classify_node _ _ _ = Ok _ |- _ =>
      unfold classify_node in Hc; ok_inv end.
    destruct (UnionFindNode.bb _) as [r|] eqn:Hbb.
    2:{ simplify_eq. cbn. split_and!; try done.
        intros w'. destruct (decide (w' = w)) as [->|].
        - by rewrite lookup_insert_eq.
        - by rewrite lookup_insert_ne. }
    ok_inv. case_decide; [|by simplify_eq].
    lazymatch goal with Hc : classify_preds _ _ _ _ = Ok _ |- _ =>
      apply classify_preds_no_back in Hc as (? & ? & ? & ? & ?) end.
    + split_and!; congruence.
    + intros e vb z He Hvb Hz Hu. rewrite Hl.
      eapply (ranked_no_back bs s rank log st0 w); try done; congruence.
Qed.

(** On a graph that has a topological order no loop is created. *)
Lemma findLoops_ranked (bs : list BasicBlock.t) (cfg : CFG.t) (s : nat)
    (rank : nat -> nat) (n : Z) (g : LSG.t) :
  dense bs = true ->
  CFG.startNode cfg = Some s ->
  (s < length bs)%nat ->
  CFG.getNumNodes cfg = Z.of_nat (length bs) ->
  in_edges_mirrored bs ->
  ranked rank bs ->
  findLoops bs cfg LSG.new = Ok (n, g) ->
  n = 1 /\ g = LSG.new.
Proof.
  intros Hd Hstart Hs Hsize Hmir Hrank H.
  unfold findLoops in H. rewrite Hstart, Hsize in H. cbn zeta in H.
  rewrite Nat2Z.id in H.
  destruct (dense_numbering bs s Hd Hs) as (log & st0 & Hdfs & Hlog & Hnum & Hsp).
  rewrite Hdfs in H. cbn [mbind outcome_bind] in H.
  apply DFS_other_arrays in Hdfs as (Hb0 & _ & Ht0 & _).
  ok_inv.
  lazymatch goal with
  | Hc : classify _ _ _ = Ok ?st1 |- _ =>
      eapply (classify_no_back bs s rank log st0) in Hc as (Hb1 & _ & _ & _ & Ht1);
        try done
  end.
  2:{ apply Forall_forall. intros w Hw%elem_of_seqZ. lia. }
  2:{ split_and!; try done. intros w. rewrite Ht0. cbn. rewrite init_lookup.
      by case_decide. }
  lazymatch goal with
  | Hf : find_all _ _ _ _ = Ok _ |- _ =>
      apply find_all_no_back in Hf as [-> ->]; [| |done]
  end.
  - by simplify_eq.
  - intros w Hw. rewrite Hb1, Hb0. cbn. rewrite init_lookup.
    by rewrite decide_True by lia.
Qed.

End acyclic.

Lemma diamond_mirrored : in_edges_mirrored diamond_blocks.
Proof.
  intros [|[|[|[|r]]]] b e Hb He; simplify_eq/=.
  - by apply elem_of_nil in He.
  - apply list_elem_of_singleton in He as ->. eexists. split; [done|]. set_solver.
  - apply list_elem_of_singleton in He as ->. eexists. split; [done|]. set_solver.
  - apply elem_of_cons in He as [->|He];
      [|apply list_elem_of_singleton in He as ->];
      (eexists; split; [done|]; set_solver).
Qed.

Lemma diamond_ranked : ranked id diamond_blocks.
Proof.
  intros [|[|[|[|r]]]] b e Hb He; simplify_eq/=;
    repeat (apply elem_of_cons in He as [->|He]); cbn; try lia;
    by apply elem_of_nil in He.
Qed.

(** ** The run of the loop finder *)

Section total.
Import HavlakLoopFinder.
Context (B : Z -> option nat) (L : gmap Z Z) (R : Z -> Z -> Prop).
Context (R_trans : forall a b c, R a b -> R b c -> R a c).
Context (anc_R : forall p x, 0 <= p -> is_Some (B p) ->
                   isAncestor p (Some x) L = true -> R p x).
Context (anc_trans : forall r p x, 0 <= r -> is_Some (B r) ->
                       isAncestor r (Some p) L = true ->
                       isAncestor p (Some x) L = true ->
                       isAncestor r (Some x) L = true).

Lemma isAncestor_between w r v :
  isAncestor w (Some v) L = true -> w <= r -> r <= v ->
  isAncestor w (Some r) L = true.
Proof.
  unfold isAncestor. intros [Hw Hl]%andb_true_iff Hr Hv.
  apply andb_true_iff. split; [by apply Z.leb_le|].
  destruct (L !! w) as [l|]; [|done].
  apply Z.leb_le in Hl. apply Z.leb_le. lia.
Qed.

Lemma linked_down_path hds N m i :
  linked_down B L hds N m -> 0 <= i < N ->
  exists r k, uf_path m i r k /\ (k <= Z.to_nat i)%nat /\ 0 <= r <= i.
Proof.
  intros Hm. remember (Z.to_nat i) as n eqn:Hn. revert i Hn.
  induction (lt_wf n) as [n _ IH]. intros i -> Hi.
  destruct (Hm i Hi) as (nd & p & Hnd & _ & Hp & Hpi & _).
  destruct (decide (p = i)) as [->|Hne].
  - exists i, 0%nat. split_and!; try lia. by apply (uf_path_root _ _ nd).
  - destruct (IH (Z.to_nat p) ltac:(lia) p eq_refl ltac:(lia)) as (r & k & Hpath & Hk & Hr).
    exists r, (S k). split_and!; try lia. by apply (uf_path_link _ _ nd p).
Qed.

Lemma linked_down_root hds N m i r k :
  linked_down B L hds N m -> 0 <= i < N -> uf_path m i r k -> 0 <= r <= i.
Proof.
  intros Hm Hi Hp. destruct (linked_down_path hds N m i Hm Hi) as (r' & k' & Hp' & _ & Hr).
  by destruct (uf_path_unique _ _ _ _ _ _ Hp Hp') as [-> _].
Qed.

Lemma linked_down_anc hds N m i r k :
  linked_down B L hds N m -> 0 <= i < N -> uf_path m i r k ->
  isAncestor r (Some i) L = true.
Proof.
  intros Hm Hi Hp.
  induction Hp as [r n Hn Hr|x n p r k Hn Hx Hne Hp IH].
  - destruct (Hm r Hi) as (nd & p & Hnd & _ & Hp & _ & _ & _ & Hanc & _). by simplify_eq.
  - destruct (Hm x Hi) as (nd & p' & Hnd & _ & Hp' & Hpr & _ & _ & Hanc & _). simplify_eq.
    pose proof (linked_down_root hds N m p r k Hm ltac:(lia) Hp) as Hr.
    destruct (Hm r ltac:(lia)) as (_ & _ & _ & _ & _ & _ & _ & HB & _).
    apply (anc_trans r p x); [lia|done| |done]. apply IH. lia.
Qed.

Lemma findSet_total hds N m i fuel :
  linked_down B L hds N m -> 0 <= i < N -> (Z.to_nat N <= fuel)%nat ->
  exists r m',
    UnionFindNode.findSet fuel m i = Ok (r, m') /\ 0 <= r <= i /\
    linked_down B L hds N m' /\ isAncestor r (Some i) L = true.
Proof.
  intros Hm Hi Hfuel.
  destruct (linked_down_path hds N m i Hm Hi) as (r & k & Hp & Hk & Hr).
  destruct (findSet_walk_path m i r k fuel [] Hp ltac:(lia)) as (nl & Hw & Hon & _ & _).
  destruct (uf_path_end _ _ _ _ Hp) as (nr & Hnr & Hroot).
  exists r, (UnionFindNode.findSet_compress nl (Some r) m). split_and!; try lia.
  { unfold UnionFindNode.findSet. rewrite Hw. cbn. rewrite Hnr. cbn. by rewrite Hroot. }
  2:{ by eapply linked_down_anc. }
  intros j Hj.
  destruct (Hm j Hj) as (nd & p & Hnd & Hd & Hpj & Hpr & Hbb & HB & Hanc & Hlp).
  rewrite findSet_compress_lookup, Hnd. case_decide as Hin; [|by exists nd, p].
  destruct (Hon j Hin) as [Hnil|[j' Hj']]; [by apply elem_of_nil in Hnil|].
  pose proof (linked_down_root hds N m j r j' Hm Hj Hj').
  pose proof (linked_down_anc hds N m j r j' Hm Hj Hj').
  eexists _, r. cbn. split_and!; try done; lia.
Qed.

Lemma findSet_run hds N size b m i fuel :
  nodes_ok B L hds N size m -> links_above b m -> 0 <= i < N -> (Z.to_nat N <= fuel)%nat ->
  exists r m',
    UnionFindNode.findSet fuel m i = Ok (r, m') /\ 0 <= r <= i /\
    (r = i \/ b <= r) /\ nodes_ok B L hds N size m' /\ links_above b m' /\
    R r i.
Proof.
  intros [Hm Hdom] Ha Hi Hfuel.
  destruct (findSet_total hds N m i fuel Hm Hi Hfuel) as (r & m' & Hf & Hr & Hm' & Hanc).
  assert (HR : R r i).
  { destruct (Hm r ltac:(lia)) as (_ & _ & _ & _ & _ & _ & _ & HB & _).
    apply anc_R; [lia|done..]. }
  destruct (findSet_reparented _ _ _ _ _ Hf) as [Hrep _].
  destruct (findSet_above b _ _ _ _ _ Ha Hf) as [Ha' Hb].
  exists r, m'. split_and!; try done; try lia.
  split; [done|].
  intros j Hj. destruct (Hdom j Hj) as [nd Hnd].
  destruct (nodes_reparented_lookup_l _ _ _ _ Hrep Hnd) as (nd' & -> & _). eauto.
Qed.

Lemma collect_backPreds_total hds N size ffuel w vs pool st :
  0 <= w ->
  nodes_ok B L hds N size (nodes st) -> links_above (w + 1) (nodes st) ->
  (Z.to_nat N <= ffuel)%nat ->
  Forall (fun v => w <= v < N /\ joins L R w v) vs -> in_pool L R w N pool ->
  exists pool' st',
    collect_backPreds ffuel w vs pool st = Ok (pool', st') /\
    nodes_ok B L hds N size (nodes st') /\ links_above (w + 1) (nodes st') /\
    in_pool L R w N pool' /\
    backPreds st' = backPreds st /\ nonBackPreds st' = nonBackPreds st /\
    last st' = last st /\
    (vs ≠ [] \/ pool ≠ [] \/ types st !! w = Some BB_SELF ->
     pool' ≠ [] \/ types st' !! w = Some BB_SELF) /\
    (vs = [] -> pool' = pool /\ st' = st) /\
    (forall w', w' ≠ w -> types st' !! w' = types st !! w').
Proof.
  intros Hw Hm Ha Hfuel Hvs. revert pool st Hm Ha.
  induction Hvs as [|v vs [Hv [Hanc HRv]] _ IH]; intros pool st Hm Ha Hpool; cbn.
  - exists pool, st. split_and!; try done. intros [?|?]; [done|tauto].
  - case_decide as Hvw.
    + destruct (findSet_run hds N size (w + 1) (nodes st) v ffuel Hm Ha)
        as (r & m' & -> & Hr & Hb & Hm' & Ha' & HR); [lia|done|].
      cbn. destruct (IH (pool ++ [r]) (set_nodes m' st))
        as (pool' & st' & -> & ? & ? & ? & ? & ? & ? & Hne & _ & Hty); [done|done| |].
      { apply Forall_app. split; [done|]. apply Forall_singleton.
        split; [lia|]. split; [|by eapply R_trans].
        apply (isAncestor_between w r v); [done|lia..]. }
      exists pool', st'. split_and!; try done.
      intros _. apply Hne. right. left. by destruct pool.
    + destruct (IH pool (set_types (<[w:=BB_SELF]> (types st)) st))
        as (pool' & st' & -> & ? & ? & ? & ? & ? & ? & Hne & _ & Hty); [done..|].
      exists pool', st'. split_and!; try done.
      * intros _. apply Hne. right. right. cbn. apply lookup_insert_eq.
      * intros w' Hw'. rewrite Hty by done. cbn. by rewrite lookup_insert_ne.
Qed.

Lemma filter_length_lt {A} (P Q : A -> Prop) `{!forall x, Decision (P x)}
    `{!forall x, Decision (Q x)} (l : list A) z :
  (forall x, P x -> Q x) -> z ∈ l -> Q z -> ~ P z ->
  (length (filter P l) < length (filter Q l))%nat.
Proof.
  intros HPQ Hz HQ HP.
  assert (Hle : forall l', (length (filter P l') <= length (filter Q l'))%nat).
  { induction l' as [|x l' IH]; [done|].
    rewrite !filter_cons. repeat case_decide; cbn; try lia. naive_solver. }
  induction l as [|x l IH]; [by apply elem_of_nil in Hz|].
  rewrite !filter_cons. apply elem_of_cons in Hz as [<-|Hz].
  - rewrite decide_False, decide_True by done. cbn. specialize (Hle l). lia.
  - specialize (IH Hz). repeat case_decide; cbn; try lia. naive_solver.
Qed.

Lemma room_push size pool z :
  0 <= z < size -> z ∉ pool -> (room size (pool ++ [z]) < room size pool)%nat.
Proof.
  intros Hz Hn. unfold room. apply (filter_length_lt _ _ _ z).
  - set_solver.
  - apply elem_of_seqZ. lia.
  - done.
  - set_solver.
Qed.

Lemma preds_ok_push N size st w l yd :
  preds_ok N size st -> nonBackPreds st !! w = Some l -> 0 <= yd < N ->
  preds_ok N size
    (set_nonBackPreds (<[w := l ++ [Some yd]]> (nonBackPreds st))
       (set_types (<[w := BB_IRREDUCIBLE]> (types st)) st)).
Proof.
  intros [Hb Hn] Hl Hyd. split; [done|]. cbn. intros w' Hw'.
  destruct (decide (w' = w)) as [->|Hne].
  - rewrite lookup_insert_eq. eexists. split; [done|].
    destruct (Hn w Hw') as (l' & Hl' & Hall). simplify_eq.
    apply Forall_app. split; [done|]. apply Forall_singleton. eauto.
  - rewrite lookup_insert_ne by done. by apply Hn.
Qed.

Lemma preds_sound_push st w l yd :
  preds_sound L R st -> nonBackPreds st !! w = Some l -> R yd w ->
  preds_sound L R
    (set_nonBackPreds (<[w := l ++ [Some yd]]> (nonBackPreds st))
       (set_types (<[w := BB_IRREDUCIBLE]> (types st)) st)).
Proof.
  intros (Hl & Hb & Hn) Hw HR. split_and!; [done..|]. cbn. intros x l' Hl'.
  destruct (decide (x = w)) as [->|Hne].
  - rewrite lookup_insert_eq in Hl'. simplify_eq.
    apply Forall_app. split; [by eapply Hn|]. apply Forall_singleton.
    by intros y [= <-].
  - rewrite lookup_insert_ne in Hl' by done. by eapply Hn.
Qed.

Lemma preds_sound_nodes st m :
  preds_sound L R st -> preds_sound L R (set_nodes m st).
Proof. done. Qed.

Lemma scan_nonBackPreds_total hds N size b fuel ffuel w xd iter wl pool st l :
  N <= size -> 0 <= w < size -> xd ≠ w -> 0 <= xd < size ->
  nodes_ok B L hds N size (nodes st) -> links_above b (nodes st) ->
  (Z.to_nat N <= ffuel)%nat ->
  preds_ok N size st -> preds_sound L R st -> R xd w ->
  nonBackPreds st !! xd = Some l ->
  in_pool L R w N wl -> in_pool L R w N pool ->
  (iter <= length l < fuel + iter)%nat ->
  exists wl' pool' st',
    scan_nonBackPreds fuel ffuel w xd iter wl pool st = Ok (wl', pool', st') /\
    nodes_ok B L hds N size (nodes st') /\ links_above b (nodes st') /\
    preds_ok N size st' /\ preds_sound L R st' /\
    in_pool L R w N wl' /\ in_pool L R w N pool' /\
    (length wl' + room size pool' <= length wl + room size pool)%nat /\
    backPreds st' = backPreds st /\ (pool ≠ [] -> pool' ≠ []) /\
    (forall w', w' ≠ w -> types st' !! w' = types st !! w').
Proof.
  intros HN Hw Hxd Hxr. revert iter wl pool st.
  induction fuel as [|fuel IH];
    intros iter wl pool st Hm Ha Hff Hp Hs HRx Hl Hwl Hpool Hfuel.
  { lia. }
  cbn [scan_nonBackPreds]. rewrite Hl. cbn [deref mbind outcome_bind].
  destruct (l !! iter) as [yi|] eqn:Hyi.
  2:{ exists wl, pool, st. split_and!; try done. }
  assert (Hall : Forall (fun v => exists z, v = Some z /\ 0 <= z < N) l).
  { pose proof Hp as [_ Hpn].
    destruct (Hpn xd Hxr) as (l' & Hl' & Hall). by simplify_eq. }
  destruct (Forall_lookup_1 _ _ _ _ Hall Hyi) as (z & -> & Hz).
  assert (HRz : R z xd).
  { destruct Hs as (_ & _ & Hsn).
    by apply (Forall_lookup_1 _ _ _ _ (Hsn _ _ Hl) Hyi). }
  cbn [deref mbind outcome_bind].
  destruct (findSet_run hds N size b (nodes st) z ffuel Hm Ha Hz Hff)
    as (ydash & m' & -> & Hyr & _ & Hm' & Ha' & HRy).
  cbn [mbind outcome_bind nodes set_nodes].
  destruct (proj1 Hm' ydash) as (yn & py & Hyn & Hyd & _); [lia|].
  rewrite Hyn. cbn [deref mbind outcome_bind]. rewrite Hyd.
  assert (Hiter : (S iter <= length l < fuel + S iter)%nat).
  { apply lookup_lt_Some in Hyi. lia. }
  assert (HRw : R ydash w).
  { eapply R_trans; [done|]. by eapply R_trans. }
  pose proof (preds_sound_nodes st m' Hs) as Hs'.
  destruct (isAncestor w (Some ydash) (last (set_nodes m' st))) eqn:Hanc; cbn [negb].
  - destruct (decide (ydash ≠ w)) as [Hne|Heq].
    + destruct (decide (ydash ∈ pool)) as [Hin|Hnin].
      * destruct (IH (S iter) wl pool (set_nodes m' st))
          as (wl' & pool' & st' & -> & ?); try done.
        by exists wl', pool', st'.
      * assert (Hrange : w < ydash < N /\ joins L R w ydash).
        { pose proof Hanc as Hanc'. unfold isAncestor in Hanc'.
          apply andb_true_iff in Hanc' as [Hle _].
          apply Z.leb_le in Hle. split; [lia|]. split; [|done].
          destruct Hs as (<- & _). done. }
        destruct (IH (S iter) (wl ++ [ydash]) (pool ++ [ydash]) (set_nodes m' st))
          as (wl' & pool' & st' & -> & ? & ? & ? & ? & ? & ? & Hroom & ? & Hgrow & ?);
          try done.
        { apply Forall_app. split; [done|]. by apply Forall_singleton. }
        { apply Forall_app. split; [done|]. by apply Forall_singleton. }
        exists wl', pool', st'. split_and!; try done.
        { rewrite length_app in Hroom. cbn in Hroom.
          pose proof (room_push size pool ydash ltac:(lia) Hnin). lia. }
        intros _. apply Hgrow. by destruct pool.
    + destruct (IH (S iter) wl pool (set_nodes m' st))
        as (wl' & pool' & st' & -> & ?); try done.
      by exists wl', pool', st'.
  - destruct (proj2 Hp w Hw) as (lw & Hlw & _).
    unfold push_at. cbn [nonBackPreds set_types set_nodes]. rewrite Hlw.
    cbn [deref mbind outcome_bind].
    destruct (IH (S iter) wl pool
                (set_nonBackPreds (<[w:=lw ++ [Some ydash]]> (nonBackPreds st))
                   (set_types (<[w:=BB_IRREDUCIBLE]> (types (set_nodes m' st)))
                      (set_nodes m' st))))
      as (wl' & pool' & st' & -> & ? & ? & ? & ? & ? & ? & ? & ? & ? & Hty); try done.
    + apply (preds_ok_push N size (set_nodes m' st)); [done|done|lia].
    + by apply (preds_sound_push (set_nodes m' st)).
    + cbn. by rewrite lookup_insert_ne.
    + exists wl', pool', st'. split_and!; try done.
      intros w' Hw'. rewrite Hty by done. cbn. by rewrite lookup_insert_ne.
Qed.

Local Opaque scan_nonBackPreds.

Lemma work_total hds N size b fuel ffuel w wl pool st :
  N <= size -> 0 <= w < size ->
  nodes_ok B L hds N size (nodes st) -> links_above b (nodes st) ->
  (Z.to_nat N <= ffuel)%nat ->
  preds_ok N size st -> preds_sound L R st ->
  in_pool L R w N wl -> in_pool L R w N pool ->
  (length wl + room size pool <= fuel)%nat ->
  exists r,
    work fuel ffuel w wl pool st = Ok r /\
    match r with
    | Return v => v = 0
    | Next (pool', st') =>
        nodes_ok B L hds N size (nodes st') /\ links_above b (nodes st') /\
        preds_ok N size st' /\ preds_sound L R st' /\ in_pool L R w N pool' /\
        backPreds st' = backPreds st /\ (pool ≠ [] -> pool' ≠ []) /\
        (wl = [] -> pool' = pool /\ st' = st) /\
        (forall w', w' ≠ w -> types st' !! w' = types st !! w')
    end.
Proof.
  intros HN Hw. revert wl pool st.
  induction fuel as [|fuel IH];
    intros [|x wl] pool st Hm Ha Hff Hp Hs Hwl Hpool Hfuel; cbn [work].
  - by exists (Next (pool, st)).
  - cbn in Hfuel. lia.
  - by exists (Next (pool, st)).
  - apply Forall_cons in Hwl as [[Hx [_ HRx]] Hwl].
    destruct (proj1 Hm x) as (xn & px & Hxn & Hxd & _); [lia|].
    rewrite Hxn. cbn [deref mbind outcome_bind]. rewrite Hxd.
    destruct (proj2 Hp x) as (l & Hl & _); [lia|].
    rewrite Hl. cbn [deref mbind outcome_bind].
    case_decide; [by exists (Return 0)|].
    destruct (scan_nonBackPreds_total hds N size b (S (length l)) ffuel w x 0 wl pool st l)
      as (wl' & pool' & st' & -> & Hm' & Ha' & Hp' & Hs' & Hwl' & Hpool' & Hroom & Hbp
          & Hne & Hty);
      try done; try lia.
    cbn [mbind outcome_bind].
    destruct (IH wl' pool' st') as (r & -> & Hr); try done.
    { cbn in Hfuel. lia. }
    exists r. split; [done|]. destruct r as [[pool2 st2]|v]; [|done].
    destruct Hr as (? & ? & ? & ? & ? & Hbp2 & Hne2 & _ & Hty2).
    split_and!; try done; [congruence|tauto|].
    intros w' Hw'. by rewrite Hty2, Hty.
Qed.

Local Transparent scan_nonBackPreds.

Lemma nodes_ok_alter hds N size (m : gmap Z UnionFindNode.t) i f :
  (forall nd, UnionFindNode.dfsNumber (f nd) = UnionFindNode.dfsNumber nd) ->
  (forall nd, UnionFindNode.bb (f nd) = UnionFindNode.bb nd) ->
  (forall nd l, UnionFindNode.loop (f nd) = Some l ->
     UnionFindNode.loop nd = Some l \/ hds !! l = Some (B i)) ->
  (forall nd p, UnionFindNode.parent nd = Some p -> 0 <= p <= i ->
     isAncestor p (Some i) L = true ->
     exists p', UnionFindNode.parent (f nd) = Some p' /\ 0 <= p' <= i /\
       isAncestor p' (Some i) L = true) ->
  nodes_ok B L hds N size m -> nodes_ok B L hds N size (alter f i m).
Proof.
  intros Hd Hbb Hloop Hpar [Hm Hdom]. split.
  - intros j Hj.
    destruct (Hm j Hj) as (nd & p & Hnd & Hdj & Hp & Hr & Hb & HB & Hanc & Hlp).
    destruct (decide (j = i)) as [->|Hne].
    + rewrite lookup_alter_eq, Hnd. cbn.
      destruct (Hpar nd p Hp Hr Hanc) as (p' & Hp' & Hr' & Hanc').
      exists (f nd), p'. rewrite Hd, Hbb. split_and!; try done; try lia.
      intros l Hl. destruct (Hloop nd l Hl) as [?|?]; [by apply Hlp|done].
    + rewrite lookup_alter_ne by done. by exists nd, p.
  - intros j Hj. destruct (Hdom j Hj) as [nd Hnd].
    destruct (decide (j = i)) as [->|Hne].
    + rewrite lookup_alter_eq, Hnd. by eexists.
    + rewrite lookup_alter_ne by done. by eexists.
Qed.

Lemma alter_last {A} (f : A -> A) (l : list A) x :
  alter f (length l) (l ++ [x]) = l ++ [f x].
Proof. induction l as [|y l IH]; [done|]. cbn. by f_equal. Qed.

Lemma header_alter (f : SimpleLoop.t -> SimpleLoop.t) i (ls : list SimpleLoop.t) :
  (forall l, SimpleLoop.header (f l) = SimpleLoop.header l) ->
  SimpleLoop.header <$> alter f i ls = SimpleLoop.header <$> ls.
Proof.
  intros Hf. apply list_eq. intros j.
  rewrite !list_lookup_fmap, list_lookup_alter.
  case_decide; [subst j|done]. destruct (ls !! i); cbn; by rewrite ?Hf.
Qed.

Lemma grown_refl P loop ls : grown P loop ls ls.
Proof.
  split; [done|]. intros i l Hl. exists l, []. rewrite app_nil_r.
  split_and!; try done. by left.
Qed.

Lemma grown_trans P loop ls1 ls2 ls3 :
  grown P loop ls1 ls2 -> grown P loop ls2 ls3 -> grown P loop ls1 ls3.
Proof.
  intros [Hlen1 H1] [Hlen2 H2]. split; [congruence|]. intros i l Hl.
  destruct (H1 i l Hl) as (l2 & e1 & Hl2 & Hh1 & Hb1 & Hn1 & HP1 & Hp1).
  destruct (H2 i l2 Hl2) as (l3 & e2 & Hl3 & Hh2 & Hb2 & Hn2 & HP2 & Hp2).
  exists l3, (e1 ++ e2). split_and!; [done|congruence| | |by apply Forall_app|].
  - by rewrite Hb2, Hb1, <- app_assoc.
  - intros Hi. by rewrite Hn1, Hn2.
  - destruct Hp2 as [Hp2|[Hp2 HP]].
    + rewrite Hp2. done.
    + right. by rewrite <- Hh1.
Qed.

Lemma grown_alter P loop (f : SimpleLoop.t -> SimpleLoop.t) i ls :
  (forall l, SimpleLoop.header (f l) = SimpleLoop.header l /\
             SimpleLoop.basicBlocks (f l) = SimpleLoop.basicBlocks l /\
             SimpleLoop.parent (f l) = SimpleLoop.parent l) ->
  grown P loop ls (alter f i ls).
Proof.
  intros Hf. split; [by rewrite length_alter|]. intros j l Hl.
  rewrite list_lookup_alter. destruct (Hf l) as (Hh & Hb & Hp).
  case_decide; simplify_eq; rewrite Hl; cbn; eexists _, []; rewrite app_nil_r;
    split_and!; try done; by left.
Qed.

Lemma grown_set_parent (P : option nat -> Prop) loop i ls :
  (forall l, ls !! i = Some l -> P (SimpleLoop.header l)) ->
  grown P loop ls (alter (SimpleLoop.set_parent loop) i ls).
Proof.
  intros HP. split; [by rewrite length_alter|]. intros j l Hl.
  rewrite list_lookup_alter.
  case_decide; simplify_eq; rewrite Hl; cbn; eexists _, []; rewrite app_nil_r;
    split_and!; try done; [right|by left].
  split; [done|]. by apply HP.
Qed.

Lemma grown_addNode (P : option nat -> Prop) loop e ls :
  P e -> grown P loop ls (alter (SimpleLoop.addNode e) loop ls).
Proof.
  intros He. split; [by rewrite length_alter|]. intros j l Hl.
  rewrite list_lookup_alter. case_decide; simplify_eq; rewrite Hl; cbn.
  - eexists _, [e]. split_and!; try done; [by constructor|by left].
  - eexists _, []. rewrite app_nil_r. split_and!; try done. by left.
Qed.

Lemma grown_last P ls0 l0 ls' :
  grown P (length ls0) (ls0 ++ [l0]) ls' ->
  exists extra,
    loop_blocks <$> ls'
    = (loop_blocks <$> ls0)
        ++ [(SimpleLoop.header l0, SimpleLoop.basicBlocks l0 ++ extra)] /\
    Forall P extra.
Proof.
  intros [Hlen Hall]. rewrite length_app in Hlen. cbn in Hlen.
  destruct (Hall (length ls0) l0) as (l' & extra & Hl' & Hh & Hb & _ & HP & _).
  { by rewrite list_lookup_middle. }
  exists extra. split; [|done]. apply list_eq. intros j.
  rewrite list_lookup_fmap.
  destruct (decide (j < length ls0)%nat) as [Hlt|Hge].
  - destruct (lookup_lt_is_Some_2 ls0 j Hlt) as [l Hl].
    destruct (Hall j l) as (l2 & e2 & Hl2 & Hh2 & Hb2 & Hn2 & _).
    { by rewrite lookup_app_l. }
    rewrite Hl2, lookup_app_l by (by rewrite length_fmap).
    rewrite list_lookup_fmap, Hl. cbn. unfold loop_blocks.
    rewrite Hh2, Hb2, Hn2 by lia. by rewrite app_nil_r.
  - destruct (decide (j = length ls0)) as [->|Hne].
    + rewrite Hl'. cbn. unfold loop_blocks. rewrite Hh, Hb.
      symmetry. apply list_lookup_middle. by rewrite length_fmap.
    + rewrite !lookup_ge_None_2; [done|..].
      * rewrite length_app, length_fmap. cbn. lia.
      * lia.
Qed.

Lemma nodes_ok_hds hds more N size m :
  nodes_ok B L hds N size m -> nodes_ok B L (hds ++ more) N size m.
Proof.
  intros [Hm Hdom]. split; [|done]. intros i Hi.
  destruct (Hm i Hi) as (nd & p & ? & ? & ? & ? & ? & ? & ? & Hlp).
  exists nd, p. split_and!; try done; try lia.
  intros l Hl. by apply lookup_app_l_Some, Hlp.
Qed.

Lemma link_pool_total hds N size w loop pool st g :
  0 <= w ->
  nodes_ok B L hds N size (nodes st) -> in_pool L R w N pool ->
  SimpleLoop.header <$> LSG.objs g = hds ->
  exists st' g',
    link_pool w loop pool st g = Ok (st', g') /\
    nodes_ok B L hds N size (nodes st') /\
    backPreds st' = backPreds st /\ nonBackPreds st' = nonBackPreds st /\
    last st' = last st /\ types st' = types st /\
    grown (fun e => exists x, e = B x /\ joins L R w x) loop
      (LSG.objs g) (LSG.objs g').
Proof.
  intros Hw Hm Hpool. revert st g Hm.
  induction Hpool as [|x pool [Hx Hj] _ IH]; intros st g Hm Hhds; cbn [link_pool].
  - exists st, g. split_and!; try done. apply grown_refl.
  - destruct (proj1 Hm x) as (xn & px & Hxn & _ & _ & _ & Hbx & _ & _ & Hlp); [lia|].
    rewrite Hxn. cbn [deref mbind outcome_bind nodes set_nodes set_header].
    unfold UnionFindNode.union. rewrite lookup_alter_eq, Hxn.
    cbn [fmap option_fmap option_map deref mbind outcome_bind].
    cbn [UnionFindNode.loop UnionFindNode.bb UnionFindNode.set_parent].
    match goal with
    | |- exists st' g', link_pool _ _ _ ?s ?h = _ /\ _ =>
        destruct (IH s h) as (st' & g' & -> & ? & Hb & Hn & Hl & Hty & Hgr)
    end.
    + cbn. apply nodes_ok_alter; [done|done|by left| |done].
      intros nd p _ _ _. exists w. cbn. split_and!; [done|lia..|apply Hj].
    + rewrite <- Hhds. destruct (UnionFindNode.loop xn); cbn.
      * unfold SimpleLoop.setParent. by rewrite !header_alter.
      * by rewrite header_alter.
    + exists st', g'. split_and!; try done.
      eapply grown_trans; [|done].
      destruct (UnionFindNode.loop xn) as [l|] eqn:Hloop; cbn.
      * unfold SimpleLoop.setParent.
        eapply grown_trans; [|by apply grown_alter].
        apply grown_set_parent. intros rec Hrec. exists x. split; [|done].
        specialize (Hlp l eq_refl). rewrite <- Hhds, list_lookup_fmap, Hrec in Hlp.
        by simplify_eq/=.
      * apply grown_addNode. by exists x.
Qed.

Lemma preds_ok_ext N size st st' :
  backPreds st' = backPreds st -> nonBackPreds st' = nonBackPreds st ->
  preds_ok N size st -> preds_ok N size st'.
Proof. unfold preds_ok. by intros -> ->. Qed.

Lemma preds_sound_ext st st' :
  backPreds st' = backPreds st -> nonBackPreds st' = nonBackPreds st ->
  last st' = last st ->
  preds_sound L R st -> preds_sound L R st'.
Proof. unfold preds_sound. by intros -> -> ->. Qed.

Lemma room_le size pool : 0 <= size -> (room size pool <= Z.to_nat size)%nat.
Proof.
  intros Hs. unfold room. etrans; [apply length_filter|]. by rewrite length_seqZ.
Qed.

Local Opaque collect_backPreds work link_pool.

Lemma adopted_refl N ls : adopted B L R N ls ls.
Proof. intros c rec p Hc Hp. left. by exists rec. Qed.

Lemma adopted_trans N ls ls1 ls' new :
  adopted B L R N ls ls1 -> adopted B L R N ls1 ls' ->
  loop_blocks <$> ls' = (loop_blocks <$> ls1) ++ new ->
  adopted B L R N ls ls'.
Proof.
  intros H1 H2 Heq c rec' p Hc Hp.
  destruct (H2 c rec' p Hc Hp) as [(rec1 & Hc1 & Hp1)|?]; [|by right].
  destruct (H1 c rec1 p Hc1 Hp1) as [?|(w & x & hb & Hw & Hhb & Hof & Hh & Hj)];
    [by left|right].
  exists w, x, hb. split_and!; try done; try lia.
  - rewrite Heq. by apply lookup_app_l_Some.
  - assert (Hlb : loop_blocks rec' = loop_blocks rec1).
    { apply (f_equal (fun l => l !! c)) in Heq.
      rewrite list_lookup_fmap, Hc in Heq. cbn in Heq.
      rewrite lookup_app_l in Heq
        by (rewrite length_fmap; by eapply lookup_lt_Some).
      rewrite list_lookup_fmap, Hc1 in Heq. cbn in Heq. congruence. }
    unfold loop_blocks in Hlb. congruence.
Qed.

Lemma find_loop_total N (size : nat) w st g :
  N <= Z.of_nat size -> 0 <= w < Z.of_nat size ->
  nodes_ok B L (SimpleLoop.header <$> LSG.objs g) N (Z.of_nat size) (nodes st) ->
  links_above (w + 1) (nodes st) ->
  preds_ok N (Z.of_nat size) st -> preds_sound L R st ->
  types st !! w ≠ Some BB_SELF ->
  exists r g',
    find_loop size w st g = Ok (r, g') /\
    match r with
    | Return _ => True
    | Next st' =>
        nodes_ok B L (SimpleLoop.header <$> LSG.objs g') N (Z.of_nat size)
          (nodes st') /\
        preds_ok N (Z.of_nat size) st' /\ preds_sound L R st' /\
        backPreds st' = backPreds st /\
        (forall w', w' ≠ w -> types st' !! w' = types st !! w') /\
        (w < N -> backPreds st !! w ≠ Some [] ->
         length (LSG.objs g') = S (length (LSG.objs g))) /\
        adopted B L R N (LSG.objs g) (LSG.objs g') /\
        (loop_blocks <$> LSG.objs g' = loop_blocks <$> LSG.objs g \/
         w < N /\ backPreds st !! w ≠ Some [] /\
         exists hb,
           loop_blocks <$> LSG.objs g' = (loop_blocks <$> LSG.objs g) ++ [hb] /\
           loop_of B L R w hb)
    end.
Proof.
  intros HN Hw Hm Ha Hp Hs Hself. unfold find_loop.
  set (hds := SimpleLoop.header <$> LSG.objs g) in *.
  destruct (proj2 Hm w Hw) as [nd Hnd]. rewrite Hnd. cbn [deref mbind outcome_bind].
  destruct (UnionFindNode.bb nd) as [nodeW|] eqn:Hbb.
  2:{ exists (Next st), g. split_and!; try done; [|apply adopted_refl|by left].
      intros HwN _.
      destruct (proj1 Hm w) as (nd' & p & Hnd' & _ & _ & _ & HB & [r Hr] & _); [lia|].
      simplify_eq. congruence. }
  destruct (proj1 Hp w Hw) as (vs & Hvs & Hall). rewrite Hvs.
  cbn [deref mbind outcome_bind].
  assert (Hall' : Forall (fun v => w <= v < N /\ joins L R w v) vs).
  { apply Forall_and. split; [done|]. destruct Hs as (_ & Hsb & _). by eapply Hsb. }
  destruct (collect_backPreds_total hds N (Z.of_nat size) (S size) w vs [] st)
    as (pool & st1 & -> & Hm1 & Ha1 & Hpool & Hb1 & Hn1 & Hl1 & Hne1 & Hnil1 & Hty1);
    try done; try lia.
  { constructor. }
  cbn [mbind outcome_bind].
  set (st2 := if decide (pool ≠ []) then _ else st1).
  assert (Hst2 : nodes st2 = nodes st1 /\ backPreds st2 = backPreds st1 /\
                 nonBackPreds st2 = nonBackPreds st1 /\ last st2 = last st1 /\
                 (pool = [] -> st2 = st1) /\
                 (forall w', w' ≠ w -> types st2 !! w' = types st1 !! w')).
  { subst st2. case_decide; split_and!; try done.
    intros w' Hw'. cbn. by rewrite lookup_insert_ne. }
  destruct Hst2 as (Hn2 & Hb2 & Hnb2 & Hl2 & Hnil2 & Hty2).
  destruct (work_total hds N (Z.of_nat size) (w + 1) (length pool + size + 1) (S size)
              w pool pool st2) as (r & -> & Hr); try done; try lia.
  { by rewrite Hn2. }
  { by rewrite Hn2. }
  { eapply preds_ok_ext; [| |exact Hp]; congruence. }
  { eapply preds_sound_ext; [| | |exact Hs]; congruence. }
  { pose proof (room_le (Z.of_nat size) pool). lia. }
  cbn [mbind outcome_bind].
  destruct r as [[pool' st3]|v]; [|by exists (Return v), g].
  destruct Hr as (Hm3 & Ha3 & Hp3 & Hs3 & Hpool3 & Hb3 & Hne3 & Hnil3 & Hty3).
  assert (Hty : forall w', w' ≠ w -> types st3 !! w' = types st !! w').
  { intros w' Hw'. by rewrite Hty3, Hty2, Hty1. }
  case_decide as Hnew.
  2:{ exists (Next st3), g.
      split_and!; try done; [congruence| |apply adopted_refl|by left].
      intros _ Hbp. exfalso. apply Hnew.
      destruct Hne1 as [Hne1|Hne1]; [left; congruence|by left; apply Hne3|].
      destruct (decide (pool = [])) as [Hnil|]; [|by left; apply Hne3].
      destruct (Hnil3 Hnil) as [_ ->]. rewrite (Hnil2 Hnil). by right. }
  assert (Hvs' : vs ≠ []).
  { intros ->. destruct (Hnil1 eq_refl) as [-> ->].
    destruct (Hnil3 eq_refl) as [-> ->]. rewrite (Hnil2 eq_refl) in Hnew.
    by destruct Hnew. }
  assert (HwN : w < N).
  { destruct vs as [|v vs']; [done|]. apply Forall_cons in Hall as [? _]. lia. }
  assert (HB : B w = Some nodeW).
  { destruct (proj1 Hm w) as (nd' & p & Hnd' & _ & _ & _ & HB & _); [lia|].
    simplify_eq. congruence. }
  destruct (LSG.createNewLoop g) as [loop g1] eqn:Hc.
  unfold LSG.createNewLoop in Hc. injection Hc as <- <-.
  set (P := fun e => exists x, e = B x /\ joins L R w x).
  match goal with
  | |- exists r g', (link_pool _ _ _ ?s ?h ≫= _) = _ /\ _ =>
      assert (exists l0, SimpleLoop.header l0 = Some nodeW /\
                SimpleLoop.basicBlocks l0 = [Some nodeW] /\
                SimpleLoop.parent l0 = None /\
                LSG.objs h = LSG.objs g ++ [l0]) as (l0 & Hh0 & Hb0 & Hp0 & Hobjs);
      [|destruct (link_pool_total (hds ++ [B w]) N (Z.of_nat size) w
                    (length (LSG.objs g)) pool' s h)
          as (st4 & g4 & -> & Hm4 & Hb4 & Hn4 & Hl4 & Hty4 & Hgr4)]
  end; try done; try lia.
  { case_decide; cbn; rewrite !alter_last;
      eexists (SimpleLoop.set_isReducible _
                 (SimpleLoop.setHeader nodeW (SimpleLoop.new _)));
      by split_and!. }
  { cbn. unfold UnionFindNode.setLoop. apply nodes_ok_alter; [done|done| | |].
    - intros nd' l. cbn. intros [= <-]. right.
      subst hds. rewrite <- (length_fmap SimpleLoop.header).
      by rewrite list_lookup_middle.
    - intros nd' p Hp' Hr' Hanc'. by exists p.
    - by apply nodes_ok_hds. }
  { rewrite Hobjs, fmap_app. cbn. by rewrite Hh0, HB. }
  cbn [mbind outcome_bind]. eexists (Next st4), _. split; [done|].
  rewrite Hobjs in Hgr4.
  destruct (grown_last _ _ _ _ Hgr4) as (extra & Heq & HP).
  rewrite Hh0, Hb0 in Heq. cbn in Heq.
  assert (Hof : loop_of B L R w (Some nodeW, Some nodeW :: extra)).
  { exists extra. by rewrite HB. }
  assert (Hhds4 : SimpleLoop.header <$> LSG.objs g4 = hds ++ [B w]).
  { apply (f_equal (fmap fst)) in Heq.
    rewrite <- list_fmap_compose, fmap_app, <- list_fmap_compose in Heq.
    cbn in Heq. by rewrite HB. }
  split_and!; try done.
  - cbn. by rewrite Hhds4.
  - eapply preds_ok_ext; [| |exact Hp3]; done.
  - eapply preds_sound_ext; [| | |exact Hs3]; done.
  - cbn in Hb4. congruence.
  - intros w' Hw'. rewrite Hty4. cbn. by apply Hty.
  - intros _ _. cbn. apply (f_equal length) in Heq.
    rewrite length_app, !length_fmap in Heq. cbn in Heq. lia.
  - cbn. intros c rec' p Hc Hpar.
    destruct Hgr4 as [Hlen4 Hall4].
    destruct (lookup_lt_is_Some_2 (LSG.objs g ++ [l0]) c) as [l Hl];
      [rewrite <- Hlen4; by eapply lookup_lt_Some|].
    destruct (Hall4 c l Hl) as (l' & ex & Hl' & Hh' & _ & _ & _ & Hpl).
    simplify_eq.
    assert (Hright : SimpleLoop.parent rec' = Some (length (LSG.objs g)) ->
              P (SimpleLoop.header l) ->
              exists w0 x hb, 0 <= w0 < N /\
                (loop_blocks <$> LSG.objs g4) !! p = Some hb /\
                loop_of B L R w0 hb /\ SimpleLoop.header rec' = B x /\
                joins L R w0 x).
    { intros Hpar' (x & Hx & Hjx). exists w, x, (Some nodeW, Some nodeW :: extra).
      split_and!; try done; [lia| |congruence].
      rewrite Heq. simplify_eq.
      rewrite <- (length_fmap loop_blocks). by apply list_lookup_middle. }
    destruct Hpl as [Hpl|[Hpl HPl]]; [|right; by apply Hright].
    destruct (decide (c < length (LSG.objs g))%nat) as [Hlt|Hge].
    + left. rewrite lookup_app_l in Hl by done. exists l. split; [done|congruence].
    + apply lookup_lt_Some in Hl as Hlt. rewrite length_app in Hlt. cbn in Hlt.
      rewrite lookup_app_r in Hl by lia.
      destruct (c - length (LSG.objs g))%nat eqn:Hc0; simplify_eq/=.
      congruence.
  - right. split_and!; try done; [by intros [= ->]|]. by eexists.
Qed.

Local Transparent collect_backPreds work link_pool.
Local Opaque find_loop.

Lemma find_all_total bs N (size n : nat) st g :
  N <= Z.of_nat size -> (n <= size)%nat ->
  stepc_inv bs (Z.of_nat n) st g ->
  nodes_ok B L (SimpleLoop.header <$> LSG.objs g) N (Z.of_nat size) (nodes st) ->
  preds_ok N (Z.of_nat size) st -> preds_sound L R st ->
  (forall w, 0 <= w < Z.of_nat n -> types st !! w ≠ Some BB_SELF) ->
  exists r g',
    find_all size n st g = Ok (r, g') /\
    (exists new,
       loop_blocks <$> LSG.objs g' = (loop_blocks <$> LSG.objs g) ++ new /\
       Forall (fun hb => exists w, 0 <= w < N /\ backPreds st !! w ≠ Some [] /\
                           loop_of B L R w hb) new) /\
    adopted B L R N (LSG.objs g) (LSG.objs g') /\
    match r with
    | Return v => v = 0
    | Next _ =>
        forall w, 0 <= w < Z.of_nat n -> w < N -> backPreds st !! w ≠ Some [] ->
          (length (LSG.objs g) < length (LSG.objs g'))%nat
    end.
Proof.
  intros HN. revert st g.
  induction n as [|n IH]; intros st g Hn Hinv Hm Hp Hs Hself; cbn [find_all].
  - eexists _, _. split_and!; [done| |apply adopted_refl|intros w Hw; lia].
    exists []. by rewrite app_nil_r.
  - assert (Ha : links_above (Z.of_nat n + 1) (nodes st)).
    { destruct Hinv as (_ & _ & Ha & _).
      by replace (Z.of_nat n + 1) with (Z.of_nat (S n)) by lia. }
    destruct (find_loop_total N size (Z.of_nat n) st g) as (r & g1 & Hf & Hr);
      try done; try lia.
    { apply Hself. lia. }
    rewrite Hf. cbn [mbind outcome_bind].
    destruct r as [st'|v].
    2:{ apply find_loop_Return in Hf as [-> ->]. eexists _, _.
        split_and!; [done| |apply adopted_refl|done].
        exists []. by rewrite app_nil_r. }
    destruct Hr as (Hm' & Hp' & Hs' & Hb' & Hty' & Hnew & Had & Hhd).
    apply (find_loop_inv bs) in Hf as (Hinv' & _ & Hgrow);
      [|by replace (Z.of_nat n + 1) with (Z.of_nat (S n)) by lia].
    destruct (IH st' g1) as (r & g' & Hfa & (hs & Hhs & Hall) & Had' & Hpost);
      try done; [lia|..].
    { intros w Hw. rewrite Hty' by lia. apply Hself. lia. }
    exists r, g'. split_and!; [done|..].
    + rewrite Hb' in Hall.
      destruct Hhd as [Hhd|(HwN & Hbp & hb & Hhd & Hhb)]; rewrite Hhd in Hhs.
      * by exists hs.
      * exists (hb :: hs). rewrite <- app_assoc in Hhs.
        split; [done|]. constructor; [|done].
        exists (Z.of_nat n). split_and!; try done. lia.
    + by eapply adopted_trans.
    + destruct r as [st2|v]; [|done].
      intros w Hw HwN Hbp.
      pose proof (find_all_count bs _ _ _ _ _ _ Hinv' Hfa) as Hcount.
      destruct (decide (w = Z.of_nat n)) as [->|Hne].
      * specialize (Hnew HwN Hbp). lia.
      * assert (length (LSG.objs g1) < length (LSG.objs g'))%nat.
        { apply (Hpost w); [lia|done|]. by rewrite Hb'. }
        destruct Hgrow as [->|(l & _ & Hlen & _)]; lia.
Qed.

Local Transparent find_loop.

End total.

Section total_run.
Import HavlakLoopFinder.

Lemma pred_numbers_exist bs (st : state) es :
  (forall e, e ∈ es -> (e < length bs)%nat) ->
  exists vs, Forall2 (fun e v => exists vb, bs !! e = Some vb /\
                        v = numbers st !! BasicBlock.name vb) es vs.
Proof.
  induction es as [|e es IH]; intros Hes; [by exists []|].
  destruct IH as [vs Hvs]; [intros; apply Hes; set_solver|].
  destruct (lookup_lt_is_Some_2 bs e) as [vb Hvb]; [apply Hes; set_solver|].
  exists (numbers st !! BasicBlock.name vb :: vs). constructor; [|done]. eauto.
Qed.

Lemma classify_total bs s (log : list (nat * nat)) st0 ws st :
  dense bs = true -> in_edges_valid bs ->
  numbered bs (Z.of_nat (length bs)) s log.*1 st0 ->
  fresh_ok bs (nodes st0) ->
  Forall (fun w => 0 <= w < Z.of_nat (length bs)) ws ->
  numbers st = numbers st0 /\ last st = last st0 /\ nodes st = nodes st0 /\
  (forall w, types st !! w ≠ Some BB_SELF) /\
  (forall w l, backPreds st !! w = Some l ->
     Forall (fun v => isAncestor w (Some v) (last st0) = true) l) /\
  preds_ok (Z.of_nat (length log)) (Z.of_nat (length bs)) st ->
  exists st',
    classify bs ws st = Ok st' /\
    numbers st' = numbers st0 /\ last st' = last st0 /\ nodes st' = nodes st0 /\
    (forall w, types st' !! w ≠ Some BB_SELF) /\
    (forall w l, backPreds st' !! w = Some l ->
       Forall (fun v => isAncestor w (Some v) (last st0) = true) l) /\
    preds_ok (Z.of_nat (length log)) (Z.of_nat (length bs)) st'.
Proof.
  intros Hd Hvalid Hnum Hfresh Hws. revert st.
  induction Hws as [|w ws Hw _ IH]; intros st (Hn & Hl & Hnd & Hty & Hanc & Hp);
    cbn [classify].
  - by exists st.
  - pose proof Hnum as (_ & _ & _ & Hinv & Hdom & Hnodes).
    destruct (Hnodes w Hw) as (nd & Hw0 & _).
    unfold classify_node. rewrite Hnd, Hw0. cbn [deref mbind outcome_bind].
    destruct (UnionFindNode.bb nd) as [r|] eqn:Hbb.
    2:{ cbn [mbind outcome_bind]. apply IH. split_and!; try done.
        intros w'. cbn. destruct (decide (w' = w)) as [->|].
        - by rewrite lookup_insert_eq.
        - by rewrite lookup_insert_ne. }
    destruct (Hfresh _ _ Hw0) as (Hr & _).
    destruct (lookup_lt_is_Some_2 bs r (Hr r Hbb)) as [b Hb].
    rewrite Hb. cbn [deref mbind outcome_bind].
    case_decide; [|cbn [mbind outcome_bind]; by apply IH].
    destruct (pred_numbers_exist bs st (BasicBlock.inEdges b)) as [vs Hvs].
    { intros e He. by eapply Hvalid. }
    destruct (proj1 Hp w Hw) as (l1 & Hl1 & Hall1).
    destruct (proj2 Hp w Hw) as (l2 & Hl2 & Hall2).
    destruct (classify_preds_files bs w _ vs st l1 l2 Hvs Hl1 Hl2)
      as (st' & -> & Hb' & Hn' & Hnum' & _ & Hty' & Hlast' & Hnodes').
    cbn [mbind outcome_bind]. apply IH. split_and!; try congruence.
    { intros w' l'. rewrite Hb'. destruct (decide (w' = w)) as [->|Hne].
      - rewrite lookup_insert_eq. intros [= <-].
        apply Forall_app. split; [by eapply Hanc|]. apply Forall_forall.
        intros z (v & (Hv1 & Hv2)%list_elem_of_filter & Hv)%list_elem_of_omap.
        cbn in Hv. subst v. destruct Hv1 as [_ Ha]. by rewrite <- Hl.
      - rewrite lookup_insert_ne by done. apply Hanc. }
    assert (Hvs' : forall v, v ∈ vs -> v ≠ Some UNVISITED ->
              exists z, v = Some z /\ 0 <= z < Z.of_nat (length log)).
    { intros v [i Hi]%list_elem_of_lookup Hu.
      destruct (Forall2_lookup_r _ _ _ _ _ Hvs Hi) as (e & He & vb & Hvb & ->).
      destruct (dense_block _ _ _ Hd Hvb) as [Hname _].
      apply lookup_lt_Some in Hvb as Hlt.
      rewrite Hn in *.
      destruct (Hdom (BasicBlock.name vb)) as [z Hz]; [lia|].
      rewrite Hz in *. exists z. split; [done|].
      destruct (Hinv _ _ Hz) as [->|(j & x & bx & -> & Hj & _)]; [done|].
      apply lookup_lt_Some in Hj. rewrite length_fmap in Hj. lia. }
    split.
    + intros w' Hw'. rewrite Hb'. destruct (decide (w' = w)) as [->|Hne].
      * rewrite lookup_insert_eq. eexists. split; [done|].
        apply Forall_app. split; [done|]. apply Forall_forall.
        intros z (v & (Hv1 & Hv2)%list_elem_of_filter & Hv)%list_elem_of_omap.
        cbn in Hv. subst v. destruct Hv1 as [Hu Ha].
        destruct (Hvs' _ Hv2 Hu) as (z' & [= <-] & Hz).
        unfold isAncestor in Ha. apply andb_true_iff in Ha as [Ha _].
        apply Z.leb_le in Ha. lia.
      * rewrite lookup_insert_ne by done. by apply Hp.
    + intros w' Hw'. rewrite Hn'. destruct (decide (w' = w)) as [->|Hne].
      * rewrite lookup_insert_eq. eexists. split; [done|].
        apply Forall_app. split; [done|]. apply Forall_forall.
        intros v [[Hu _] Hv]%list_elem_of_filter. by apply Hvs'.
      * rewrite lookup_insert_ne by done. by apply Hp.
Qed.

Lemma numbered_length bs size s V st :
  numbered bs size s V st -> (length V <= length bs)%nat.
Proof.
  intros (_ & Hnd & Hnum & _).
  transitivity (length (seq 0 (length bs))); [|by rewrite length_seq].
  apply submseteq_length, NoDup_submseteq; [done|].
  intros x [i Hi]%list_elem_of_lookup.
  destruct (Hnum _ _ Hi) as (b & Hb & _). apply lookup_lt_Some in Hb.
  apply elem_of_seq. lia.
Qed.

(** The numbering writes to the nodes it numbers only: those from
    [c] to the number it returns. *)
Lemma DFS_nodes_frame fuel bs r st c lastid st' :
  DFS fuel bs r st c = Ok (lastid, st') ->
  c <= lastid /\
  forall j, j < c \/ lastid < j -> nodes st' !! j = nodes st !! j.
Proof.
  revert r st c lastid st'.
  induction fuel as [|fuel IH]; intros r st c lastid st' H; [done|].
  cbn in H. ok_inv.
  assert (Htargets : forall es l0 st0 l1 st1,
    DFS_targets (DFS fuel bs) bs es l0 st0 = Ok (l1, st1) ->
    l0 <= l1 /\
    forall j, j <= l0 \/ l1 < j -> nodes st1 !! j = nodes st0 !! j).
  { induction es as [|e es IHes]; intros l0 st0 l1 st1 Ht; cbn in Ht.
    - simplify_eq. split; [lia|done].
    - ok_inv. case_decide; [|by eauto]. ok_inv.
      lazymatch goal with
      | Hv : DFS _ _ _ _ _ = Ok _, Hr : DFS_targets _ _ _ _ _ = Ok _ |- _ =>
          apply IH in Hv as [Hle1 Hf1];
          apply IHes in Hr as [Hle2 Hf2]
      end.
      split; [lia|]. intros j Hj. rewrite Hf2, Hf1; [done|lia..]. }
  lazymatch goal with
  | Ht : DFS_targets _ _ _ _ _ = Ok (?l1, ?st1) |- _ =>
      apply Htargets in Ht as [Hle Hf]
  end.
  simplify_eq. split; [done|]. intros j Hj.
  destruct (numbers _ !! _); cbn; rewrite Hf by lia; cbn;
    by rewrite lookup_insert_ne by lia.
Qed.

(** The spans of a traversal are nested: a node in the span of [p],
    which is in the span of [r], is in the span of [r]. *)
Lemma spans_laminar bs s log st0 r p x :
  dfs_visit bs [] s log -> spans_ok 0 log st0 ->
  0 <= r -> (Z.to_nat r < length log)%nat ->
  isAncestor r (Some p) (last st0) = true ->
  isAncestor p (Some x) (last st0) = true ->
  isAncestor r (Some x) (last st0) = true.
Proof.
  intros Hlog Hsp Hr Hrlt. unfold isAncestor.
  intros [Hrp Hlr]%andb_true_iff [Hpx Hlp]%andb_true_iff.
  apply Z.leb_le in Hrp, Hpx.
  destruct (lookup_lt_is_Some_2 log (Z.to_nat r) Hrlt) as [[xr mr] Hlogr].
  pose proof (Hsp _ _ _ Hlogr) as Hlastr. cbn in Hlastr.
  rewrite Z2Nat.id in Hlastr by done. rewrite Hlastr in Hlr |- *.
  apply Z.leb_le in Hlr.
  destruct (proj1 (dfs_segment bs) _ _ _ Hlog _ _ _ Hlogr) as [Hle Hseg].
  destruct (lookup_lt_is_Some_2 log (Z.to_nat p)) as [[xp mp] Hlogp]; [lia|].
  pose proof (Hsp _ _ _ Hlogp) as Hlastp. cbn in Hlastp.
  rewrite Z2Nat.id in Hlastp by lia. rewrite Hlastp in Hlp.
  apply Z.leb_le in Hlp.
  destruct (proj1 (dfs_segment bs) _ _ _ Hseg (Z.to_nat p - Z.to_nat r)%nat xp mp)
    as [Hle' _].
  { rewrite lookup_take_lt by lia. rewrite lookup_drop.
    by replace (Z.to_nat r + (Z.to_nat p - Z.to_nat r))%nat with (Z.to_nat p) by lia. }
  rewrite length_take, length_drop in Hle'.
  apply andb_true_iff. split; apply Z.leb_le; lia.
Qed.

(** On a graph whose blocks are named by their index and whose in-edges
    name existing blocks, the three passes of [findLoops] run through:
    the numbering logs a traversal [log], step b files the edges, and
    step c gives up with 0 or makes a loop for every block that has a
    back predecessor.  Either way the loops made have such blocks as
    their headers, and their members are blocks of nodes in the span of
    the header that are related to it by [R]; [R] is any transitive
    relation that holds between a node and the nodes of its span, and
    between the nodes that step b files and the node it files them
    under. *)
Lemma findLoops_run bs cfg s (R : list (nat * nat) -> Z -> Z -> Prop) :
  dense bs = true ->
  CFG.startNode cfg = Some s ->
  (s < length bs)%nat ->
  CFG.getNumNodes cfg = Z.of_nat (length bs) ->
  in_edges_valid bs ->
  (forall log st0 st1,
     dfs_visit bs [] s log ->
     numbered bs (Z.of_nat (length bs)) s log.*1 st0 ->
     spans_ok 0 log st0 ->
     (forall w z, ~ filed st0 w z) ->
     (forall w l, nonBackPreds st0 !! w = Some l -> l = []) ->
     (forall w nd, nodes st0 !! w = Some nd -> is_Some (UnionFindNode.bb nd) ->
        0 <= w < Z.of_nat (length log)) ->
     classify bs (seqZ 0 (Z.of_nat (length bs))) st0 = Ok st1 ->
     (forall a b c, R log a b -> R log b c -> R log a c) /\
     (forall p x, 0 <= p -> is_Some (log.*1 !! Z.to_nat p) ->
        isAncestor p (Some x) (last st0) = true -> R log p x) /\
     (forall w l, backPreds st1 !! w = Some l -> Forall (fun v => R log v w) l) /\
     (forall x l, nonBackPreds st1 !! x = Some l ->
        Forall (fun v => forall y, v = Some y -> R log y x) l)) ->
  exists log st0 st1 n g,
    dfs_visit bs [] s log /\
    numbered bs (Z.of_nat (length bs)) s log.*1 st0 /\
    spans_ok 0 log st0 /\
    classify bs (seqZ 0 (Z.of_nat (length bs))) st0 = Ok st1 /\
    findLoops bs cfg LSG.new = Ok (n, g) /\
    (n = 0 \/
     forall w, 0 <= w < Z.of_nat (length log) -> backPreds st1 !! w ≠ Some [] ->
       2 <= n) /\
    (forall w z, ~ filed st0 w z) /\
    adopted (fun i => log.*1 !! Z.to_nat i) (last st0) (R log)
      (Z.of_nat (length log)) [] (LSG.objs g) /\
    exists new,
      loop_blocks <$> LSG.objs g = (None, []) :: new /\
      Forall (fun hb => exists w z, (w < length log)%nat /\
                          filed st1 (Z.of_nat w) z /\
                          loop_of (fun i => log.*1 !! Z.to_nat i) (last st0) (R log)
                            (Z.of_nat w) hb) new.
Proof.
  intros Hd Hstart Hs Hsize Hvalid HR.
  destruct (dense_numbering bs s Hd Hs) as (log & st0 & Hdfs & Hlog & Hnum & Hsp).
  pose proof (DFS_fresh bs _ _ _ _ _ _ (init_state_fresh bs _) Hdfs) as Hfresh.
  pose proof (DFS_other_arrays _ _ _ _ _ _ _ Hdfs) as (Hb0 & Hn0 & Ht0 & _).
  pose proof (numbered_length _ _ _ _ _ Hnum) as Hlen. rewrite length_fmap in Hlen.
  assert (Hnone : forall w z, ~ filed st0 w z).
  { intros w z (l & Hl & Hin). rewrite Hb0 in Hl. cbn in Hl.
    rewrite init_lookup in Hl. case_decide; simplify_eq. by apply elem_of_nil in Hin. }
  assert (Hnone' : forall w l, nonBackPreds st0 !! w = Some l -> l = []).
  { intros w l Hl. rewrite Hn0 in Hl. cbn in Hl.
    rewrite init_lookup in Hl. by case_decide; simplify_eq. }
  destruct (classify_total bs s log st0 (seqZ 0 (Z.of_nat (length bs))) st0)
    as (st1 & Hcl & _ & Hlast1 & Hnodes1 & Hty1 & Hanc1 & Hp1); try done.
  { apply Forall_forall. intros w Hw%elem_of_seqZ. lia. }
  { split_and!; try done.
    - intros w. rewrite Ht0. cbn. rewrite init_lookup. by case_decide.
    - intros w l Hl.
      destruct l as [|z l]; [done|]. exfalso. apply (Hnone w z).
      exists (z :: l). split; [done|]. by left.
    - split.
      + intros w Hw. rewrite Hb0. cbn. rewrite init_lookup, decide_True by done.
        by exists [].
      + intros w Hw. rewrite Hn0. cbn. rewrite init_lookup, decide_True by done.
        by exists []. }
  assert (Hbbs : forall w nd, nodes st0 !! w = Some nd ->
            is_Some (UnionFindNode.bb nd) -> 0 <= w < Z.of_nat (length log)).
  { intros w nd Hw [r Hr].
    destruct (DFS_nodes_frame _ _ _ _ _ _ _ Hdfs) as [_ Hframe].
    destruct (decide (0 <= w < Z.of_nat (length log))) as [|Hout]; [done|].
    rewrite Hframe in Hw by lia. cbn in Hw. rewrite init_lookup in Hw.
    case_decide; by simplify_eq. }
  destruct (HR log st0 st1 Hlog Hnum Hsp Hnone Hnone' Hbbs Hcl)
    as (HRt & HRa & HRb & HRn).
  assert (Hlog1 : Forall (fun '(_, m) => (1 <= m)%nat) log).
  { by destruct (proj1 (dfs_sound bs) _ _ _ Hlog) as (_ & _ & _ & _ & ?). }
  destruct (find_all_total (fun i => log.*1 !! Z.to_nat i) (last st0) (R log) HRt HRa
              (fun r p x Hr HB => spans_laminar bs s log st0 r p x Hlog Hsp Hr
                 ltac:(apply lookup_lt_is_Some in HB; by rewrite length_fmap in HB))
              bs (Z.of_nat (length log)) (length bs) (length bs) st1 LSG.new)
    as (r & g & Hfa & (hs & Hhs & Hall) & Had & Hpost); try done; try lia.
  { apply fresh_stepc. by rewrite Hnodes1. }
  { rewrite Hnodes1. destruct Hnum as (_ & _ & Hnum & _ & _ & Hnodes). split.
    + intros i Hi.
      destruct (lookup_lt_is_Some_2 log.*1 (Z.to_nat i)) as [x Hx];
        [rewrite length_fmap; lia|].
      destruct (Hnum _ _ Hx) as (b & _ & _ & Hnode).
      rewrite Z2Nat.id in Hnode by lia.
      eexists _, i. split_and!; [done..|lia|lia|done|by eexists| |done].
      rewrite list_lookup_fmap in Hx.
      destruct (log !! Z.to_nat i) as [[x' m]|] eqn:Hli; simplify_eq/=.
      pose proof (Hsp _ _ _ Hli) as Hlast. cbn in Hlast.
      rewrite Z2Nat.id in Hlast by lia.
      eapply Forall_lookup_1 in Hlog1; [|done]. cbn in Hlog1.
      unfold isAncestor. rewrite Hlast.
      apply andb_true_iff. split; apply Z.leb_le; lia.
    + intros i Hi. destruct (Hnodes i Hi) as (nd & -> & _). by eexists. }
  { split_and!; [done| |done]. intros w l Hl.
    apply Forall_and. split; [by eapply Hanc1|by eapply HRb]. }
  assert (Hfl : findLoops bs cfg LSG.new
                = Ok (match r with Return v => v | Next _ => LSG.getNumLoops g end, g)).
  { unfold findLoops. rewrite Hstart, Hsize. cbn zeta. rewrite Nat2Z.id.
    rewrite Hdfs. cbn [mbind outcome_bind]. rewrite Hcl. cbn [mbind outcome_bind].
    rewrite Hfa. cbn [mbind outcome_bind]. by destruct r. }
  eexists log, st0, st1, _, g. split_and!; try done.
  - destruct r as [st2|v]; [right|by left].
    intros w Hw Hbp. specialize (Hpost w ltac:(lia) ltac:(lia) Hbp).
    apply findLoops_forest in Hfl as (_ & Hloops & _).
    unfold LSG.getNumLoops. rewrite Hloops, length_seq. cbn in Hpost. lia.
  - intros c rec p Hc Hpar.
    destruct (Had c rec p Hc Hpar) as [(rec0 & Hc0 & Hp0)|?]; [|by right].
    destruct c; by simplify_eq/=.
  - exists hs. split; [done|]. eapply Forall_impl; [done|]. cbn.
    intros hb (w & Hw & Hbp & Hhb).
    destruct (proj1 Hp1 w) as ([|z l] & Hl & _); [lia|done|].
    exists (Z.to_nat w), z. rewrite Z2Nat.id by lia. split_and!; [lia| |done].
    exists (z :: l). split; [done|]. by left.
Qed.

(** The same with no more said of the members of a loop than that they
    lie in the span of its header. *)
Lemma findLoops_returns bs cfg s :
  dense bs = true ->
  CFG.startNode cfg = Some s ->
  (s < length bs)%nat ->
  CFG.getNumNodes cfg = Z.of_nat (length bs) ->
  in_edges_valid bs ->
  exists log st0 st1 n g,
    dfs_visit bs [] s log /\
    numbered bs (Z.of_nat (length bs)) s log.*1 st0 /\
    spans_ok 0 log st0 /\
    classify bs (seqZ 0 (Z.of_nat (length bs))) st0 = Ok st1 /\
    findLoops bs cfg LSG.new = Ok (n, g) /\
    (n = 0 \/
     forall w, 0 <= w < Z.of_nat (length log) -> backPreds st1 !! w ≠ Some [] ->
       2 <= n).
Proof.
  intros Hd Hstart Hs Hsize Hvalid.
  destruct (findLoops_run bs cfg s (fun _ _ _ => True) Hd Hstart Hs Hsize Hvalid)
    as (log & st0 & st1 & n & g & ? & ? & ? & ? & ? & ? & _).
  { intros. split_and!; try done.
    - intros w l _. by apply Forall_forall.
    - intros w l _. by apply Forall_forall. }
  by exists log, st0, st1, n, g.
Qed.

End total_run.

(** [findLoops] neither throws nor runs forever on a graph as a client
    builds it with consecutive keys, and the checksum of what it found
    can be taken: when the blocks are named by their index, the graph
    has as many nodes as there are blocks, and the in-edges name
    existing blocks, the call returns a number and a loop structure
    graph whose checksum is defined with the number of loop records as
    fuel. *)
Theorem findLoops_total (bs : list BasicBlock.t) (cfg : CFG.t) (s : nat) :
  dense bs = true ->
  CFG.startNode cfg = Some s ->
  (s < length bs)%nat ->
  CFG.getNumNodes cfg = Z.of_nat (length bs) ->
  in_edges_valid bs ->
  exists n g c,
    HavlakLoopFinder.findLoops bs cfg LSG.new = Ok (n, g) /\
    LSG.checksum (length (LSG.objs g)) bs g = Ok c.
Proof.
  intros Hd Hstart Hs Hsize Hvalid.
  destruct (findLoops_returns bs cfg s Hd Hstart Hs Hsize Hvalid)
    as (_ & _ & _ & n & g & _ & _ & _ & _ & H & _).
  exists n, g.
  pose proof (findLoops_forest _ _ _ _ H) as (Hobjs & Hloops & Hroot & _).
  assert (Hlen : (1 <= length (LSG.objs g))%nat).
  { destruct Hobjs as (_ & _ & Hr0). apply lookup_lt_Some in Hr0. lia. }
  assert (Hsum : forall i, (i < length (LSG.objs g))%nat ->
            exists c, SimpleLoop.checksum (length (LSG.objs g)) bs (LSG.objs g) i = Ok c).
  { intros i Hi. by apply checksum_total. }
  assert (exists cs,
    Forall2 (fun i c => SimpleLoop.checksum (length (LSG.objs g)) bs (LSG.objs g) i = Ok c)
      (LSG.loops g) cs) as [cs Hcs].
  { rewrite Hloops.
    assert (Hall : Forall (fun i => (i < length (LSG.objs g))%nat)
                     (seq 0 (length (LSG.objs g)))).
    { apply Forall_forall. intros i Hi%elem_of_seq. lia. }
    revert Hall. generalize (seq 0 (length (LSG.objs g))). intros idx Hall.
    induction Hall as [|i rest Hi _ [cs IH]]; [by exists []|].
    destruct (Hsum i Hi) as [c Hc]. exists (c :: cs). by constructor. }
  destruct (Hsum (LSG.root g)) as [r Hr]; [rewrite Hroot; lia|].
  eexists. split; [done|].
  unfold LSG.checksum. erewrite mix_children_spec by done.
  cbn. by rewrite Hr.
Qed.

(** ** Loops and cycles *)

Lemma mirrored_valid bs : in_edges_mirrored bs -> in_edges_valid bs.
Proof.
  intros H r b e Hb He. destruct (H r b e Hb He) as (be & Hbe & _).
  by eapply lookup_lt_Some.
Qed.

(** On a graph that has a topological order, and so no cycle,
    [findLoops] reports no loop: it returns 1, for the root alone, and
    leaves the loop structure graph as it found it.  The blocks are
    named by their index and the in-edge lists mirror the out-edge
    lists. *)
Theorem findLoops_acyclic (bs : list BasicBlock.t) (cfg : CFG.t) (s : nat)
    (rank : nat -> nat) :
  dense bs = true ->
  CFG.startNode cfg = Some s ->
  (s < length bs)%nat ->
  CFG.getNumNodes cfg = Z.of_nat (length bs) ->
  in_edges_mirrored bs ->
  ranked rank bs ->
  HavlakLoopFinder.findLoops bs cfg LSG.new = Ok (1, LSG.new).
Proof.
  intros Hd Hstart Hs Hsize Hmir Hrank.
  destruct (findLoops_returns bs cfg s Hd Hstart Hs Hsize (mirrored_valid _ Hmir))
    as (_ & _ & _ & n & g & _ & _ & _ & _ & H & _).
  by destruct (findLoops_ranked bs cfg s rank n g Hd Hstart Hs Hsize Hmir Hrank H)
    as [-> ->].
Qed.

Lemma findLoops_acyclic_witness :
  HavlakLoopFinder.findLoops diamond_blocks diamond_cfg LSG.new = Ok (1, LSG.new).
Proof.
  apply (findLoops_acyclic diamond_blocks diamond_cfg 0 id).
  - reflexivity.
  - reflexivity.
  - cbn. lia.
  - reflexivity.
  - exact diamond_mirrored.
  - exact diamond_ranked.
Defined.

Lemma nested_in_edges_valid : in_edges_valid nested_blocks.
Proof.
  intros [|[|[|[|r]]]] b e Hb He; simplify_eq/=;
    repeat (apply elem_of_cons in He as [->|He]); cbn; try lia;
    by apply elem_of_nil in He.
Qed.

Lemma findLoops_total_witness :
  exists n g c,
    HavlakLoopFinder.findLoops nested_blocks nested_cfg LSG.new = Ok (n, g) /\
    LSG.checksum (length (LSG.objs g)) nested_blocks g = Ok c.
Proof.
  apply (findLoops_total nested_blocks nested_cfg 0).
  - reflexivity.
  - reflexivity.
  - cbn. lia.
  - reflexivity.
  - exact nested_in_edges_valid.
Defined.

(** ** Cycles are found *)

Section cyclic.
Import HavlakLoopFinder.

Lemma reachable_step bs x b e y :
  bs !! x = Some b -> e ∈ BasicBlock.outEdges b -> reachable bs e y ->
  reachable bs x y.
Proof.
  intros Hb He Hy. eapply reachable_trans; [|done].
  eapply reachable_edge; [constructor|done..].
Qed.

(** Every block of a cycle has a predecessor on the cycle. *)
Lemma cycle_pred bs x t :
  on_cycle bs x -> reachable bs x t -> reachable bs t x ->
  exists v bv, reachable bs t v /\ reachable bs v x /\
    bs !! v = Some bv /\ t ∈ BasicBlock.outEdges bv.
Proof.
  intros (b & e & Hb & He & Hex) Hxt Htx.
  pose proof (reachable_trans _ _ _ _ Hex Hxt) as Het.
  inversion Het as [|v bv t' Hev Hbv Ht]; subst.
  - exists x, b. split_and!; try done. constructor.
  - exists v, bv. split_and!; try done.
    + eapply reachable_trans; [done|]. by eapply reachable_step.
    + eapply reachable_step; [done..|]. done.
Qed.

(** A traversal that logs a block of a cycle logs a back edge: an edge
    from a block of the subtree of some block [tw] to [tw] itself. *)
Lemma cycle_back_edge bs s log x :
  dfs_visit bs [] s log -> on_cycle bs x ->
  forall k t m, log !! k = Some (t, m) -> reachable bs x t -> reachable bs t x ->
  exists w tw mw j v mv bv,
    log !! w = Some (tw, mw) /\ log !! j = Some (v, mv) /\
    (w <= j < w + mw)%nat /\
    bs !! v = Some bv /\ tw ∈ BasicBlock.outEdges bv.
Proof.
  intros Hlog Hcyc k. induction (lt_wf k) as [k _ IH]. intros t m Hk Hxt Htx.
  destruct (proj1 (dfs_segment bs) _ _ _ Hlog _ _ _ Hk) as [Hle Hseg].
  cbn in Hseg.
  destruct (proj1 (dfs_sound bs) _ _ _ Hseg) as (_ & Hclosed & Hin & _).
  assert (Hwalk : forall u, reachable bs t u -> reachable bs u x ->
            u ∈ (take m (drop k log)).*1 \/
            exists k' t' m', (k' < k)%nat /\ log !! k' = Some (t', m') /\
              reachable bs x t' /\ reachable bs t' x).
  { induction 1 as [|u' b u Hu' IHu Hb Hu]; intros Hux; [by left|].
    destruct IHu as [Hs|?]; [by eapply reachable_step| |by right].
    specialize (Hclosed u' b u Hs Hb Hu).
    apply elem_of_app in Hclosed as [Hold|?]; [|by left].
    right. apply list_elem_of_lookup in Hold as [k' Hk'].
    apply lookup_take_Some in Hk' as [Hk' Hlt].
    rewrite list_lookup_fmap in Hk'.
    destruct (log !! k') as [[u0 m']|] eqn:Hl; simplify_eq/=.
    eexists k', _, m'. split_and!; try done.
    eapply reachable_trans; [done|]. by eapply reachable_edge. }
  destruct (cycle_pred bs x t Hcyc Hxt Htx) as (v & bv & Htv & Hvx & Hbv & Hout).
  destruct (Hwalk v Htv Hvx) as [Hs|(k' & t' & m' & Hlt & Hk' & ? & ?)];
    [|by eapply (IH k')].
  apply list_elem_of_lookup in Hs as [i Hi].
  rewrite list_lookup_fmap in Hi.
  destruct (take m (drop k log) !! i) as [[v0 mv]|] eqn:Hl; simplify_eq/=.
  apply lookup_take_Some in Hl as [Hl Hlt]. rewrite lookup_drop in Hl.
  eexists k, t, m, (k + i)%nat, _, mv, bv. split_and!; try done; lia.
Qed.

Lemma filed_push st w l z w' z' :
  backPreds st !! w = Some l -> filed st w' z' ->
  filed (set_backPreds (<[w := l ++ [z]]> (backPreds st)) st) w' z'.
Proof.
  intros Hl (l' & Hl' & Hz). unfold filed. cbn.
  destruct (decide (w' = w)) as [->|Hne].
  - rewrite lookup_insert_eq. eexists. split; [done|]. simplify_eq. set_solver.
  - rewrite lookup_insert_ne by done. by exists l'.
Qed.

(** Step b leaves the numbering alone and only adds to [backPreds]. *)
Lemma classify_preds_keeps bs w es st st' :
  classify_preds bs w es st = Ok st' ->
  numbers st' = numbers st /\ last st' = last st /\ nodes st' = nodes st /\
  (forall w' z, filed st w' z -> filed st' w' z).
Proof.
  revert st. induction es as [|e es IH]; intros st H; cbn in H.
  - by simplify_eq.
  - ok_inv. case_decide as Hu; [by apply IH in H|].
    destruct (isAncestor w _ (last st)) eqn:Ha.
    + destruct (numbers st !! BasicBlock.name _) as [z|] eqn:Hz; [|done].
      unfold push_at in H. ok_inv.
      apply IH in H as (-> & -> & -> & Hf). split_and!; try done.
      intros w' z' Hfiled. apply Hf. simplify_eq. by apply filed_push.
    + unfold push_at in H. ok_inv.
      apply IH in H as (-> & -> & -> & Hf). split_and!; try done.
Qed.

Lemma classify_node_keeps bs w st st' :
  classify_node bs w st = Ok st' ->
  numbers st' = numbers st /\ last st' = last st /\ nodes st' = nodes st /\
  (forall w' z, filed st w' z -> filed st' w' z).
Proof.
  unfold classify_node. intros H. ok_inv.
  destruct (UnionFindNode.bb _); [|by simplify_eq].
  ok_inv. case_decide; [by apply classify_preds_keeps in H|by simplify_eq].
Qed.

Lemma classify_keeps bs ws st st' :
  classify bs ws st = Ok st' ->
  numbers st' = numbers st /\ last st' = last st /\ nodes st' = nodes st /\
  (forall w' z, filed st w' z -> filed st' w' z).
Proof.
  revert st. induction ws as [|w ws IH]; intros st H; cbn in H.
  - by simplify_eq.
  - ok_inv. apply IH in H as (-> & -> & -> & Hf).
    lazymatch goal with Hc : classify_node _ _ _ = Ok _ |- _ =>
      apply classify_node_keeps in Hc as (-> & -> & -> & Hf') end.
    split_and!; try done. intros w' z ?. by apply Hf, Hf'.
Qed.

(** An incoming edge from a block numbered within the subtree of [w] is
    filed among the back predecessors of [w]. *)
Lemma classify_preds_back bs w es st st' e vb z :
  classify_preds bs w es st = Ok st' -> e ∈ es -> bs !! e = Some vb ->
  numbers st !! BasicBlock.name vb = Some z -> z ≠ UNVISITED ->
  isAncestor w (Some z) (last st) = true ->
  filed st' w z.
Proof.
  revert st. induction es as [|e0 es IH]; intros st H He Hvb Hz Hu Ha; cbn in H.
  - by apply elem_of_nil in He.
  - ok_inv. apply elem_of_cons in He as [<-|He].
    + simplify_eq. rewrite Hz in H. rewrite decide_False in H by congruence.
      rewrite Ha in H. unfold push_at in H. ok_inv.
      apply classify_preds_keeps in H as (_ & _ & _ & Hf). apply Hf.
      simplify_eq. unfold filed. cbn. rewrite lookup_insert_eq.
      eexists. split; [done|]. set_solver.
    + case_decide; [by apply IH in H|].
      destruct (isAncestor w _ (last st)).
      * destruct (numbers st !! BasicBlock.name _); [|by apply IH in H].
        unfold push_at in H. ok_inv. by apply IH in H.
      * unfold push_at in H. ok_inv. by apply IH in H.
Qed.

Lemma classify_back bs ws st st' w nd r b e vb z :
  classify bs ws st = Ok st' -> w ∈ ws ->
  nodes st !! w = Some nd -> UnionFindNode.bb nd = Some r -> bs !! r = Some b ->
  e ∈ BasicBlock.inEdges b -> bs !! e = Some vb ->
  numbers st !! BasicBlock.name vb = Some z -> z ≠ UNVISITED ->
  isAncestor w (Some z) (last st) = true ->
  filed st' w z.
Proof.
  revert st. induction ws as [|w0 ws IH]; intros st H Hw Hnd Hbb Hb He Hvb Hz Hu Ha;
    cbn in H.
  - by apply elem_of_nil in Hw.
  - ok_inv.
    lazymatch goal with Hc : classify_node _ _ _ = Ok _ |- _ => rename Hc into Hc0 end.
    destruct (decide (w = w0)) as [<-|Hne].
    + apply classify_keeps in H as (_ & _ & _ & Hf). apply Hf.
      unfold classify_node in Hc0. rewrite Hnd in Hc0. cbn in Hc0.
      rewrite Hbb, Hb in Hc0. cbn in Hc0.
      rewrite decide_True in Hc0.
      * by eapply classify_preds_back.
      * unfold BasicBlock.getNumPred. destruct (BasicBlock.inEdges b); [|cbn; lia].
        by apply elem_of_nil in He.
    + apply elem_of_cons in Hw as [?|Hw]; [done|].
      apply classify_node_keeps in Hc0 as (Hn & Hl & Hnds & _).
      apply IH in H; try done; congruence.
Qed.

End cyclic.

(** A cycle within reach of the start node is found: on a graph with a
    block [x] that can be reached from the start node and from itself,
    [findLoops] returns 0, having given up, or a number from 2 up, the
    root and at least one loop.  The blocks are named by their index,
    the in-edges name existing blocks and mirror the out-edges. *)
Theorem findLoops_cyclic (bs : list BasicBlock.t) (cfg : CFG.t) (s x : nat) :
  dense bs = true ->
  CFG.startNode cfg = Some s ->
  (s < length bs)%nat ->
  CFG.getNumNodes cfg = Z.of_nat (length bs) ->
  in_edges_valid bs ->
  out_edges_mirrored bs ->
  reachable bs s x ->
  on_cycle bs x ->
  exists n g,
    HavlakLoopFinder.findLoops bs cfg LSG.new = Ok (n, g) /\ (n = 0 \/ 2 <= n).
Proof.
  intros Hd Hstart Hs Hsize Hvalid Hmir Hx Hcyc.
  destruct (findLoops_returns bs cfg s Hd Hstart Hs Hsize Hvalid)
    as (log & st0 & st1 & n & g & Hlog & Hnum & Hsp & Hcl & Hfl & Hpost).
  exists n, g. split; [done|].
  destruct Hpost as [?|Hpost]; [by left|right].
  pose proof (dense_keys_ok bs s Hd Hs) as Hkeys.
  destruct (dfs_visit_complete bs s log) as [Hreach _]; [|done|].
  { intros y Hy. destruct (Hkeys y Hy) as (b & -> & _). by eexists. }
  apply Hreach, list_elem_of_lookup in Hx as [k Hk].
  rewrite list_lookup_fmap in Hk.
  destruct (log !! k) as [[x0 m]|] eqn:Hlk; simplify_eq/=.
  destruct (cycle_back_edge bs s log x Hlog Hcyc k x m Hlk)
    as (w & tw & mw & j & v & mv & bv & Hw & Hj & Hwj & Hbv & Hout);
    [constructor..|].
  pose proof (numbered_length _ _ _ _ _ Hnum) as Hlen. rewrite length_fmap in Hlen.
  pose proof Hnum as (_ & _ & Hpos & _).
  destruct (Hpos w tw) as (b & Hb & _ & Hnode).
  { by rewrite list_lookup_fmap, Hw. }
  destruct (Hpos j v) as (bv' & Hbv' & Hnumj & _).
  { by rewrite list_lookup_fmap, Hj. }
  simplify_eq.
  apply lookup_lt_Some in Hw as Hwlt.
  assert (Hfiled : filed st1 (Z.of_nat w) (Z.of_nat j)).
  { eapply (classify_back bs _ st0 st1 (Z.of_nat w) _ tw b v bv); try done.
    - apply elem_of_seqZ. lia.
    - by eapply Hmir.
    - unfold HavlakLoopFinder.UNVISITED. lia.
    - unfold HavlakLoopFinder.isAncestor.
      pose proof (Hsp _ _ _ Hw) as Hlast. cbn in Hlast. rewrite Hlast.
      apply andb_true_iff. split; apply Z.leb_le; lia. }
  apply (Hpost (Z.of_nat w)); [lia|].
  destruct Hfiled as (l & -> & Hin). intros [= ->]. by apply elem_of_nil in Hin.
Qed.

Lemma nested_out_edges_mirrored : out_edges_mirrored nested_blocks.
Proof.
  intros [|[|[|[|x]]]] b e be Hb He Hbe; simplify_eq/=;
    repeat (apply elem_of_cons in He as [->|He]); simplify_eq/=;
    try (by apply elem_of_nil in He); set_solver.
Qed.

Lemma findLoops_cyclic_witness :
  exists n g,
    HavlakLoopFinder.findLoops nested_blocks nested_cfg LSG.new = Ok (n, g) /\
    (n = 0 \/ 2 <= n).
Proof.
  apply (findLoops_cyclic nested_blocks nested_cfg 0 1).
  - reflexivity.
  - reflexivity.
  - cbn. lia.
  - reflexivity.
  - exact nested_in_edges_valid.
  - exact nested_out_edges_mirrored.
  - apply (reachable_edge _ _ 0%nat (BasicBlock.mk 0 0 [3%nat] [1%nat]));
      [constructor|reflexivity|set_solver].
  - exists (BasicBlock.mk 1 1 [0%nat; 2%nat] [2%nat]), 2%nat.
    split_and!; [reflexivity|set_solver|].
    apply (reachable_edge _ _ 2%nat (BasicBlock.mk 2 2 [1%nat] [3%nat; 1%nat]));
      [constructor|reflexivity|set_solver].
Defined.

(** ** A whole client run *)

Lemma dense_intro bs :
  (forall r b, bs !! r = Some b ->
     BasicBlock.name b = Z.of_nat r /\
     forall e, e ∈ BasicBlock.outEdges b -> (e < length bs)%nat) ->
  dense bs = true.
Proof.
  intros H. unfold dense. apply forallb_forall.
  intros [r b] Hin%list_elem_of_In. apply list_elem_of_lookup in Hin as [i Hi].
  rewrite list_lookup_imap in Hi.
  destruct (bs !! i) as [b'|] eqn:Hb; simplify_eq/=.
  destruct (H _ _ Hb) as [Hn He].
  apply andb_true_iff. split; [by apply Z.eqb_eq|].
  apply forallb_forall. intros e Hin%list_elem_of_In. by apply Nat.ltb_lt, He.
Qed.

Lemma tidy_createNode j vars wd cfg :
  tidy j vars wd cfg ->
  exists wd' cfg',
    CFG.createNode wd cfg (Z.of_nat j) (Z.of_nat j) = (j, wd', cfg') /\
    tidy (S j) (vars ++ [j]) wd' cfg'.
Proof.
  intros (-> & Hmap & Hlen & Hstart & Hblocks).
  assert (Hget : CFG.map_get (CFG.basicBlockMap cfg) (Z.of_nat j) = None).
  { apply map_get_None. rewrite Hmap, <- list_fmap_compose.
    intros (i & Hi & Hin%elem_of_seq)%list_elem_of_fmap. cbn in Hi. lia. }
  assert (Hset : CFG.map_set (CFG.basicBlockMap cfg) (Z.of_nat j) j
                 = (fun i => (Z.of_nat i, i)) <$> seq 0 (S j)).
  { rewrite map_set_new by (by apply map_get_None).
    by rewrite seq_S, fmap_app, Hmap. }
  unfold CFG.createNode, BasicBlock_new. rewrite Hget, Hlen. cbn.
  rewrite Hset. unfold CFG.getNumNodes. cbn [CFG.basicBlockMap].
  rewrite length_fmap, length_seq.
  eexists _, _. split; [done|].
  split_and!.
  - by rewrite seq_S.
  - by case_decide.
  - cbn. rewrite length_app. cbn. lia.
  - case_decide as H1; cbn; [f_equal; lia|]. rewrite Hstart. destruct j; [lia|done].
  - cbn. intros r b Hb.
    destruct (decide (r < j)%nat) as [Hlt|Hge].
    + rewrite lookup_app_l in Hb by lia.
      destruct (Hblocks _ _ Hb) as (Hn & Ho & Hi). split_and!; [done|..].
      * eapply Forall_impl; [done|]. cbn. lia.
      * eapply Forall_impl; [done|]. cbn. lia.
    + rewrite lookup_app_r in Hb by lia.
      destruct (r - length (blocks wd))%nat as [|?] eqn:Hr; simplify_eq/=.
      split_and!; [f_equal; lia|constructor..].
Qed.

Lemma edge_lookup (bs bs' : list BasicBlock.t) x y r :
  bs' = alter (BasicBlock.addInEdge x) y (alter (BasicBlock.addOutEdge y) x bs) ->
  bs' !! r
  = (fun b => BasicBlock.mk (BasicBlock.name b) (BasicBlock.id b)
       (BasicBlock.inEdges b ++ if decide (y = r) then [x] else [])
       (BasicBlock.outEdges b ++ if decide (x = r) then [y] else []))
    <$> bs !! r.
Proof.
  intros ->. rewrite !list_lookup_alter.
  destruct (bs !! r) as [[n i ins outs]|] eqn:Hr;
    repeat case_decide; simplify_eq/=; rewrite ?Hr; cbn;
    rewrite ?app_nil_r; try done.
Qed.

Lemma tidy_edge j vars wd cfg x y :
  tidy j vars wd cfg -> (x < j)%nat -> (y < j)%nat ->
  exists e wd' cfg',
    vars !! x = Some x /\ vars !! y = Some y /\
    BasicBlockEdge_new wd cfg x y = Ok (e, wd', cfg') /\
    tidy j vars wd' cfg'.
Proof.
  intros (-> & Hmap & Hlen & Hstart & Hblocks) Hx Hy.
  destruct (BasicBlockEdge_new_succeeds wd cfg x y) as [wd' Hnew]; [lia..|].
  pose proof (BasicBlockEdge_new_blocks _ _ _ _ _ _ _ Hnew) as (_ & _ & _ & Hb).
  eexists _, wd', _. split_and!; [by rewrite lookup_seq_lt..|done|].
  unfold tidy. split_and!; try done.
  - by rewrite Hb, !length_alter.
  - intros r b. rewrite (edge_lookup _ _ _ _ r Hb).
    destruct (blocks wd !! r) as [b0|] eqn:Hr; [|done].
    destruct (Hblocks _ _ Hr) as (Hn & Ho & Hi).
    intros [= <-]. cbn. split_and!; [done|..].
    + apply Forall_app. split; [done|]. case_decide; by repeat constructor.
    + apply Forall_app. split; [done|]. case_decide; by repeat constructor.
Qed.

(** Such a client builds its graph, and builds it tidily. *)
Lemma build_in_order cs j vars wd cfg :
  in_order j cs = true -> tidy j vars wd cfg ->
  exists j' vars' wd' cfg',
    build cs vars wd cfg = Ok (wd', cfg') /\ tidy j' vars' wd' cfg'.
Proof.
  revert j vars wd cfg.
  induction cs as [|[name id|x y] cs IH]; intros j vars wd cfg Hcs Ht; cbn in Hcs.
  - by exists j, vars, wd, cfg.
  - apply andb_true_iff in Hcs as [[Hn Hi]%andb_true_iff Hcs].
    apply Z.eqb_eq in Hn, Hi. subst name id.
    destruct (tidy_createNode _ _ _ _ Ht) as (wd1 & cfg1 & Hc & Ht1).
    cbn [build]. rewrite Hc. by eapply IH.
  - apply andb_true_iff in Hcs as [[Hx Hy]%andb_true_iff Hcs].
    apply Nat.ltb_lt in Hx, Hy.
    destruct (tidy_edge _ _ _ _ x y Ht Hx Hy)
      as (e & wd1 & cfg1 & Hvx & Hvy & Hnew & Ht1).
    cbn [build]. rewrite Hvx, Hvy. cbn. rewrite Hnew. cbn. by eapply IH.
Qed.

(** The checksum of what [findLoops] leaves is defined. *)
Lemma checksum_returns bs cfg n g :
  HavlakLoopFinder.findLoops bs cfg LSG.new = Ok (n, g) ->
  exists c, LSG.checksum (length (LSG.objs g)) bs g = Ok c.
Proof.
  intros H.
  pose proof (findLoops_forest _ _ _ _ H) as (Hobjs & Hloops & Hroot & _).
  assert (Hlen : (1 <= length (LSG.objs g))%nat).
  { destruct Hobjs as (_ & _ & Hr0). apply lookup_lt_Some in Hr0. lia. }
  assert (exists cs,
    Forall2 (fun i c => SimpleLoop.checksum (length (LSG.objs g)) bs (LSG.objs g) i = Ok c)
      (LSG.loops g) cs) as [cs Hcs].
  { assert (Hall : Forall (fun i => (i < length (LSG.objs g))%nat) (LSG.loops g)).
    { rewrite Hloops. apply Forall_forall. intros i Hi%elem_of_seq. lia. }
    revert Hall. generalize (LSG.loops g). intros idx Hall.
    induction Hall as [|i rest Hi _ [cs IH]]; [by exists []|].
    destruct (checksum_total bs (LSG.objs g) (length (LSG.objs g)) i Hobjs)
      as [c Hc]; [lia..|].
    exists (c :: cs). by constructor. }
  destruct (checksum_total bs (LSG.objs g) (length (LSG.objs g)) (LSG.root g) Hobjs)
    as [r Hr]; [rewrite Hroot; lia..|].
  eexists. unfold LSG.checksum. erewrite mix_children_spec by done.
  cbn. by rewrite Hr.
Qed.

(** A whole run of a client that numbers its blocks as it makes them -
    building the graph, [findLoops] on a fresh loop structure graph,
    and the checksum - goes through in whatever world it starts: no
    step throws, and the recursions and loops come to an end. *)
Theorem analyse_total (wd : World) (cs : list call) :
  in_order 0 cs = true ->
  exists n c, analyse wd cs = Ok (n, c).
Proof.
  intros Hcs. rewrite analyse_world0. unfold analyse.
  destruct (build_in_order cs 0 [] world0 CFG.new Hcs)
    as (j & vars & wd' & cfg & -> & _ & Hmap & Hlen & Hstart & Hblocks).
  { split_and!; try done. }
  cbn [mbind outcome_bind].
  assert (exists n g, HavlakLoopFinder.findLoops (blocks wd') cfg LSG.new = Ok (n, g))
    as (n & g & Hfl).
  { destruct j as [|j].
    - exists 0, LSG.new. unfold HavlakLoopFinder.findLoops. by rewrite Hstart.
    - destruct (findLoops_returns (blocks wd') cfg 0)
        as (_ & _ & _ & n & g & _ & _ & _ & _ & H & _); [..|by exists n, g].
      + apply dense_intro. intros r b Hb.
        destruct (Hblocks _ _ Hb) as (Hn & Ho & _). split; [done|].
        intros e He. rewrite Hlen. by eapply Forall_forall in Ho.
      + done.
      + lia.
      + unfold CFG.getNumNodes. by rewrite Hmap, length_fmap, length_seq, Hlen.
      + intros r b e Hb He. destruct (Hblocks _ _ Hb) as (_ & _ & Hi).
        rewrite Hlen. by eapply Forall_forall in Hi. }
  rewrite Hfl. cbn [mbind outcome_bind].
  destruct (checksum_returns _ _ _ _ Hfl) as [c ->]. by exists n, c.
Qed.

Lemma analyse_total_witness :
  exists n c, analyse world0 self_loop_calls = Ok (n, c).
Proof. apply (analyse_total world0 self_loop_calls). reflexivity. Defined.

(** ** Loops lie on cycles *)

Section sound.
Import HavlakLoopFinder.

Lemma reachable_first bs r e :
  reachable bs r e ->
  r = e \/ exists b e', bs !! r = Some b /\ e' ∈ BasicBlock.outEdges b /\
             reachable bs e' e.
Proof.
  induction 1 as [|x b e Hx IH Hb He]; [by left|]. right.
  destruct IH as [->|(b' & e' & Hb' & He' & Hr)].
  - exists b, e. split_and!; try done. constructor.
  - exists b', e'. split_and!; try done. by eapply reachable_edge.
Qed.

(** What step b files under [w] came from a back edge. *)
Lemma classify_preds_filed_inv bs w es st st' w' z :
  classify_preds bs w es st = Ok st' -> filed st' w' z ->
  filed st w' z \/
  (w' = w /\ exists e vb, e ∈ es /\ bs !! e = Some vb /\
     numbers st !! BasicBlock.name vb = Some z /\ z ≠ UNVISITED /\
     isAncestor w (Some z) (last st) = true).
Proof.
  revert st. induction es as [|e es IH]; intros st H Hf; cbn in H.
  - simplify_eq. by left.
  - ok_inv.
    lazymatch goal with Hb : bs !! e = Some ?b |- _ => rename b into vb; rename Hb into He end.
    assert (Hlater : forall st2,
      numbers st2 = numbers st -> last st2 = last st ->
      (filed st2 w' z -> filed st w' z \/
         (w' = w /\ numbers st !! BasicBlock.name vb = Some z /\ z ≠ UNVISITED /\
          isAncestor w (Some z) (last st) = true)) ->
      classify_preds bs w es st2 = Ok st' ->
      filed st w' z \/
      (w' = w /\ exists e0 vb0, e0 ∈ e :: es /\ bs !! e0 = Some vb0 /\
         numbers st !! BasicBlock.name vb0 = Some z /\ z ≠ UNVISITED /\
         isAncestor w (Some z) (last st) = true)).
    { intros st2 Hn Hl Hst2 H2.
      destruct (IH st2 H2 Hf) as [Hf2|(-> & e0 & vb0 & He0 & Hvb0 & Hz & Hu & Ha)].
      - destruct (Hst2 Hf2) as [?|(-> & ? & ? & ?)]; [by left|right].
        split; [done|]. exists e, vb. split_and!; try done. set_solver.
      - right. split; [done|]. exists e0, vb0. rewrite <- Hn, <- Hl.
        split_and!; try done. set_solver. }
    case_decide as Hu; [by eapply (Hlater st); [..|exact H]; try done; by left|].
    destruct (isAncestor w _ (last st)) eqn:Ha.
    + destruct (numbers st !! BasicBlock.name vb) as [z0|] eqn:Hz; [|done].
      unfold push_at in H. ok_inv.
      eapply Hlater; [| |clear H|exact H]; simplify_eq; [done..|].
      intros (l & Hl & Hin). cbn in Hl.
      destruct (decide (w' = w)) as [->|Hne].
      * rewrite lookup_insert_eq in Hl. simplify_eq.
        apply elem_of_app in Hin as [Hin|Hin%list_elem_of_singleton].
        -- left. by eexists.
        -- subst. right. split_and!; try done. congruence.
      * rewrite lookup_insert_ne in Hl by done. left. by exists l.
    + unfold push_at in H. ok_inv.
      eapply Hlater; [| |clear H|exact H]; simplify_eq; [done..|].
      intros ?. by left.
Qed.

Lemma classify_filed_inv bs ws st st' w z :
  classify bs ws st = Ok st' -> filed st' w z ->
  filed st w z \/ back_edge bs st w z.
Proof.
  revert st. induction ws as [|w0 ws IH]; intros st H Hf; cbn in H.
  - simplify_eq. by left.
  - ok_inv.
    lazymatch goal with Hc : classify_node _ _ _ = Ok ?a |- _ =>
      rename Hc into Hc0; rename a into st2 end.
    pose proof (classify_node_keeps _ _ _ _ Hc0) as (Hn & Hl & Hnd & _).
    destruct (IH st2 H Hf) as [Hf2|Hbe].
    + unfold classify_node in Hc0. ok_inv.
      lazymatch goal with Hx : nodes st !! w0 = Some ?a |- _ =>
        rename a into nd; rename Hx into Hnd0 end.
      destruct (UnionFindNode.bb nd) as [r|] eqn:Hbb; [|simplify_eq; by left].
      ok_inv.
      lazymatch goal with Hx : bs !! r = Some ?a |- _ =>
        rename a into b; rename Hx into Hb end.
      case_decide; [|simplify_eq; by left].
      destruct (classify_preds_filed_inv _ _ _ _ _ _ _ Hc0 Hf2)
        as [?|(-> & e & vb & He & Hvb & Hz & Hu & Ha)]; [by left|right].
      by exists nd, r, b, e, vb.
    + right. destruct Hbe as (nd & r & b & e & vb & ? & ? & ? & ? & ? & ? & ? & ?).
      exists nd, r, b, e, vb. split_and!; try done; congruence.
Qed.

(** A back edge closes a cycle through the block it enters. *)
Lemma back_edge_cycle bs s log st0 w z tw :
  dense bs = true -> in_edges_mirrored bs ->
  dfs_visit bs [] s log ->
  numbered bs (Z.of_nat (length bs)) s log.*1 st0 ->
  spans_ok 0 log st0 ->
  log.*1 !! w = Some tw ->
  back_edge bs st0 (Z.of_nat w) z ->
  on_cycle bs tw.
Proof.
  intros Hd Hmir Hlog (_ & _ & Hnum & Hinv & _ & _) Hsp Htw
    (nd & r & b & e & vb & Hnd & Hbb & Hb & He & Hvb & Hz & Hu & Ha).
  unfold isAncestor in Ha. apply andb_true_iff in Ha as [Hwz Hl]. apply Z.leb_le in Hwz.
  destruct (Hinv _ _ Hz) as [?|(i & x & bx & -> & Hi & Hbx & Hname)]; [done|].
  destruct (dense_block _ _ _ Hd Hbx) as [Hnx _].
  destruct (dense_block _ _ _ Hd Hvb) as [Hne _].
  assert (x = e) as -> by lia. clear Hnx Hname.
  destruct (Hnum _ _ Htw) as (bw & Hbw & _ & Hnode).
  rewrite Hnode in Hnd. simplify_eq/=.
  rewrite list_lookup_fmap in Htw.
  destruct (log !! w) as [[xw m]|] eqn:Hlw; simplify_eq/=.
  specialize (Hsp _ _ _ Hlw). cbn in Hsp.
  rewrite Hsp in Hl. apply Z.leb_le in Hl.
  destruct (proj1 (dfs_segment bs) _ _ _ Hlog _ _ _ Hlw) as [Hle Hseg].
  destruct (proj1 (dfs_sound bs) _ _ _ Hseg) as (Hreach & _).
  assert (Hin : e ∈ (take m (drop w log)).*1).
  { apply list_elem_of_lookup. exists (i - w)%nat.
    rewrite list_lookup_fmap, lookup_take_lt by lia. rewrite lookup_drop.
    replace (w + (i - w))%nat with i by lia.
    by rewrite <- list_lookup_fmap. }
  apply Hreach in Hin.
  destruct (Hmir _ _ _ Hb He) as (be & Hbe & Hout).
  rewrite Hvb in Hbe. injection Hbe as <-.
  destruct (reachable_first _ _ _ Hin) as [->|(b' & e' & Hb' & He' & Hr)].
  - exists vb, e. by split_and!.
  - exists b', e'. split_and!; try done. by eapply reachable_edge.
Qed.

Lemma back_edge_pred bs st w z : back_edge bs st w z -> pred_edge bs st w (Some z).
Proof.
  intros (nd & r & b & e & vb & ? & ? & ? & ? & ? & Hz & ? & ?).
  exists nd, r, b, e, vb. rewrite Hz. split_and!; try done. congruence.
Qed.

(** What step b files under [w] as a non-back predecessor came from an
    in-edge. *)
Lemma classify_preds_nonfiled_inv bs w es st st' w' v :
  classify_preds bs w es st = Ok st' -> filed_non st' w' v ->
  filed_non st w' v \/
  (w' = w /\ exists e vb, e ∈ es /\ bs !! e = Some vb /\
     v = numbers st !! BasicBlock.name vb /\ v ≠ Some UNVISITED).
Proof.
  revert st. induction es as [|e es IH]; intros st H Hf; cbn in H.
  - simplify_eq. by left.
  - ok_inv.
    lazymatch goal with Hb : bs !! e = Some ?b |- _ => rename b into vb; rename Hb into He end.
    assert (Hlater : forall st2,
      numbers st2 = numbers st ->
      (filed_non st2 w' v -> filed_non st w' v \/
         (w' = w /\ v = numbers st !! BasicBlock.name vb /\ v ≠ Some UNVISITED)) ->
      classify_preds bs w es st2 = Ok st' ->
      filed_non st w' v \/
      (w' = w /\ exists e0 vb0, e0 ∈ e :: es /\ bs !! e0 = Some vb0 /\
         v = numbers st !! BasicBlock.name vb0 /\ v ≠ Some UNVISITED)).
    { intros st2 Hn Hst2 H2.
      destruct (IH st2 H2 Hf) as [Hf2|(-> & e0 & vb0 & He0 & Hvb0 & Hv & Hu)].
      - destruct (Hst2 Hf2) as [?|(-> & ? & ?)]; [by left|right].
        split; [done|]. exists e, vb. split_and!; try done. set_solver.
      - right. split; [done|]. exists e0, vb0. rewrite <- Hn.
        split_and!; try done. set_solver. }
    case_decide as Hu; [by eapply (Hlater st); [..|exact H]; try done; by left|].
    destruct (isAncestor w _ (last st)) eqn:Ha.
    + destruct (numbers st !! BasicBlock.name vb) as [z0|] eqn:Hz; [|done].
      unfold push_at in H. ok_inv.
      eapply Hlater; [|clear H|exact H]; simplify_eq; [done|].
      intros ?. by left.
    + unfold push_at in H. ok_inv.
      eapply Hlater; [|clear H|exact H]; simplify_eq; [done|].
      intros (l & Hl & Hin). cbn in Hl.
      destruct (decide (w' = w)) as [->|Hne].
      * rewrite lookup_insert_eq in Hl. simplify_eq.
        apply elem_of_app in Hin as [Hin|Hin%list_elem_of_singleton].
        -- left. by eexists.
        -- subst. right. by split_and!.
      * rewrite lookup_insert_ne in Hl by done. left. by exists l.
Qed.

Lemma classify_nonfiled_inv bs ws st st' w v :
  classify bs ws st = Ok st' -> filed_non st' w v ->
  filed_non st w v \/ pred_edge bs st w v.
Proof.
  revert st. induction ws as [|w0 ws IH]; intros st H Hf; cbn in H.
  - simplify_eq. by left.
  - ok_inv.
    lazymatch goal with Hc : classify_node _ _ _ = Ok ?a |- _ =>
      rename Hc into Hc0; rename a into st2 end.
    pose proof (classify_node_keeps _ _ _ _ Hc0) as (Hn & Hl & Hnd & _).
    destruct (IH st2 H Hf) as [Hf2|Hbe].
    + unfold classify_node in Hc0. ok_inv.
      lazymatch goal with Hx : nodes st !! w0 = Some ?a |- _ =>
        rename a into nd; rename Hx into Hnd0 end.
      destruct (UnionFindNode.bb nd) as [r|] eqn:Hbb; [|simplify_eq; by left].
      ok_inv.
      lazymatch goal with Hx : bs !! r = Some ?a |- _ =>
        rename a into b; rename Hx into Hb end.
      case_decide; [|simplify_eq; by left].
      destruct (classify_preds_nonfiled_inv _ _ _ _ _ _ _ Hc0 Hf2)
        as [?|(-> & e & vb & He & Hvb & Hv & Hu)]; [by left|right].
      by exists nd, r, b, e, vb.
    + right. destruct Hbe as (nd & r & b & e & vb & ? & ? & ? & ? & ? & ? & ?).
      exists nd, r, b, e, vb. split_and!; try done; congruence.
Qed.

Lemma reaches_trans bs V a b c :
  reaches bs V a b -> reaches bs V b c -> reaches bs V a c.
Proof.
  intros (ta & tb & Ha & Hb & Hab) (tb' & tc & Hb' & Hc & Hbc). simplify_eq.
  exists ta, tc. split_and!; try done. by eapply reachable_trans.
Qed.

(** A node reaches the nodes of its span. *)
Lemma span_reaches bs s log st0 p x :
  dfs_visit bs [] s log -> spans_ok 0 log st0 ->
  0 <= p -> is_Some (log.*1 !! Z.to_nat p) ->
  isAncestor p (Some x) (last st0) = true ->
  reaches bs log.*1 p x.
Proof.
  intros Hlog Hsp Hp [tp Htp] Ha.
  unfold isAncestor in Ha. apply andb_true_iff in Ha as [Hpx Hl]. apply Z.leb_le in Hpx.
  rewrite list_lookup_fmap in Htp.
  destruct (log !! Z.to_nat p) as [[xp m]|] eqn:Hlp; simplify_eq/=.
  pose proof (Hsp _ _ _ Hlp) as Hlast. cbn in Hlast.
  rewrite Z2Nat.id in Hlast by done. rewrite Hlast in Hl. apply Z.leb_le in Hl.
  destruct (proj1 (dfs_segment bs) _ _ _ Hlog _ _ _ Hlp) as [Hle Hseg].
  destruct (proj1 (dfs_sound bs) _ _ _ Hseg) as (Hreach & _).
  destruct (lookup_lt_is_Some_2 log.*1 (Z.to_nat x)) as [tx Htx];
    [rewrite length_fmap; lia|].
  exists tp, tx. split_and!; [by rewrite list_lookup_fmap, Hlp|done|].
  apply Hreach. apply list_elem_of_lookup. exists (Z.to_nat x - Z.to_nat p)%nat.
  rewrite list_lookup_fmap, lookup_take_lt by lia. rewrite lookup_drop.
  replace (Z.to_nat p + (Z.to_nat x - Z.to_nat p))%nat with (Z.to_nat x) by lia.
  by rewrite <- list_lookup_fmap.
Qed.

(** The source of an in-edge reaches the block that the edge enters. *)
Lemma pred_edge_reaches bs s V st0 w z :
  dense bs = true -> in_edges_mirrored bs ->
  numbered bs (Z.of_nat (length bs)) s V st0 ->
  (forall w nd, nodes st0 !! w = Some nd -> is_Some (UnionFindNode.bb nd) ->
     0 <= w < Z.of_nat (length V)) ->
  pred_edge bs st0 w (Some z) ->
  reaches bs V z w.
Proof.
  intros Hd Hmir (_ & _ & Hnum & Hinv & _ & _) Hbbs
    (nd & r & b & e & vb & Hnd & Hbb & Hb & He & Hvb & Hz & Hu).
  destruct (Hbbs w nd Hnd) as [Hw0 HwV]; [by eexists|].
  destruct (lookup_lt_is_Some_2 V (Z.to_nat w)) as [xw Hxw]; [lia|].
  destruct (Hnum _ _ Hxw) as (bw & Hbw & _ & Hnode).
  rewrite Z2Nat.id in Hnode by done. rewrite Hnode in Hnd. simplify_eq/=.
  symmetry in Hz.
  destruct (Hinv _ _ Hz) as [->|(i & x & bx & -> & Hi & Hbx & Hname)]; [done|].
  destruct (dense_block _ _ _ Hd Hbx) as [Hnx _].
  destruct (dense_block _ _ _ Hd Hvb) as [Hne _].
  assert (x = e) as -> by lia.
  destruct (Hmir _ _ _ Hb He) as (be & Hbe & Hout). simplify_eq.
  exists e, r. rewrite Nat2Z.id. split_and!; try done.
  eapply reachable_edge; [constructor|done..].
Qed.

(** The run of [findLoops] on a graph whose in-edge lists mirror the
    out-edge lists, with "can reach" for the relation. *)
Lemma findLoops_sound_run bs cfg s :
  dense bs = true ->
  CFG.startNode cfg = Some s ->
  (s < length bs)%nat ->
  CFG.getNumNodes cfg = Z.of_nat (length bs) ->
  in_edges_mirrored bs ->
  exists log st0 n g,
    dfs_visit bs [] s log /\
    numbered bs (Z.of_nat (length bs)) s log.*1 st0 /\
    spans_ok 0 log st0 /\
    findLoops bs cfg LSG.new = Ok (n, g) /\
    adopted (fun i => log.*1 !! Z.to_nat i) (last st0) (reaches bs log.*1)
      (Z.of_nat (length log)) [] (LSG.objs g) /\
    exists new,
      loop_blocks <$> LSG.objs g = (None, []) :: new /\
      Forall (fun hb => exists w z, (w < length log)%nat /\
                          back_edge bs st0 (Z.of_nat w) z /\
                          loop_of (fun i => log.*1 !! Z.to_nat i) (last st0)
                            (reaches bs log.*1) (Z.of_nat w) hb) new.
Proof.
  intros Hd Hstart Hs Hsize Hmir.
  destruct (findLoops_run bs cfg s (fun log => reaches bs log.*1)
              Hd Hstart Hs Hsize (mirrored_valid _ Hmir))
    as (log & st0 & st1 & n & g & Hlog & Hnum & Hsp & Hcl & Hfl & _ & Hnone
        & Had & new & Hnew & Hall).
  { intros log st0 st1 Hlog Hnum Hsp Hnone Hnone' Hbbs Hcl.
    assert (Hbbs' : forall w nd, nodes st0 !! w = Some nd ->
              is_Some (UnionFindNode.bb nd) -> 0 <= w < Z.of_nat (length log.*1)).
    { intros w nd ? ?. rewrite length_fmap. by eapply Hbbs. }
    split_and!.
    - apply reaches_trans.
    - intros p x. by apply (span_reaches bs s).
    - intros w l Hl. apply Forall_forall. intros v Hv.
      destruct (classify_filed_inv _ _ _ _ w v Hcl) as [Hf0|Hbe]; [by exists l| |].
      + by destruct (Hnone _ _ Hf0).
      + eapply (pred_edge_reaches bs s); [done..|]. by apply back_edge_pred.
    - intros x l Hl. apply Forall_forall. intros v Hv y ->.
      destruct (classify_nonfiled_inv _ _ _ _ x (Some y) Hcl) as [Hf0|Hpe];
        [by exists l| |].
      + destruct Hf0 as (l0 & Hl0 & Hin). apply Hnone' in Hl0. subst.
        by apply elem_of_nil in Hin.
      + by eapply (pred_edge_reaches bs s). }
  exists log, st0, n, g. split_and!; try done.
  exists new. split; [done|]. eapply Forall_impl; [done|]. cbn.
  intros hb (w & z & Hw & Hfiled & Hhb). exists w, z. split_and!; try done.
  destruct (classify_filed_inv _ _ _ _ _ _ Hcl Hfiled) as [Hf0|Hbe]; [|done].
  by destruct (Hnone _ _ Hf0).
Qed.

End sound.

(** Every loop that [findLoops] records, the root apart, lies on a
    cycle of the graph: its header is a block within reach of the
    start node that can be reached from itself along at least one
    edge.  The blocks are named by their index and the in-edge lists
    mirror the out-edge lists. *)
Theorem loop_header_on_cycle (bs : list BasicBlock.t) (cfg : CFG.t) (s : nat)
    (n : Z) (g : LSG.t) (i : nat) (l : SimpleLoop.t) :
  dense bs = true ->
  CFG.startNode cfg = Some s ->
  (s < length bs)%nat ->
  CFG.getNumNodes cfg = Z.of_nat (length bs) ->
  in_edges_mirrored bs ->
  HavlakLoopFinder.findLoops bs cfg LSG.new = Ok (n, g) ->
  LSG.objs g !! i = Some l ->
  (1 <= i)%nat ->
  exists h, SimpleLoop.header l = Some h /\ reachable bs s h /\ on_cycle bs h.
Proof.
  intros Hd Hstart Hs Hsize Hmir H Hl Hi.
  destruct (findLoops_sound_run bs cfg s Hd Hstart Hs Hsize Hmir)
    as (log & st0 & n' & g' & Hlog & Hnum & Hsp & Hfl & _ & new & Hnew & Hall).
  rewrite Hfl in H. simplify_eq.
  assert (Hh : new !! (i - 1)%nat = Some (loop_blocks l)).
  { apply (f_equal (fun x => x !! i)) in Hnew.
    rewrite list_lookup_fmap, Hl in Hnew. cbn in Hnew.
    destruct i as [|i]; [lia|]. cbn in Hnew.
    by replace (S i - 1)%nat with i by lia. }
  destruct (Forall_lookup_1 _ _ _ _ Hall Hh) as (w & z & Hw & Hbe & ms & Hhb & _).
  destruct (lookup_lt_is_Some_2 log.*1 w) as [tw Htw]; [by rewrite length_fmap|].
  unfold loop_blocks in Hhb. rewrite Nat2Z.id in Hhb. simplify_eq.
  exists tw. split_and!; [congruence| |].
  - destruct Hnum as (Hreach & _). by eapply Hreach, list_elem_of_lookup_2.
  - by eapply back_edge_cycle.
Qed.

Lemma self_loop_mirrored : in_edges_mirrored (blocks self_loop_world).
Proof.
  intros [|r] b e Hb He; simplify_eq/=.
  apply list_elem_of_singleton in He as ->.
  eexists. split; [reflexivity|]. set_solver.
Qed.

Lemma loop_header_on_cycle_witness :
  exists h, SimpleLoop.header self_loop_record = Some h /\
    reachable (blocks self_loop_world) 0 h /\ on_cycle (blocks self_loop_world) h.
Proof.
  apply (loop_header_on_cycle (blocks self_loop_world) self_loop_cfg 0 2
           self_loop_lsg 1 self_loop_record).
  - reflexivity.
  - reflexivity.
  - cbn. lia.
  - reflexivity.
  - exact self_loop_mirrored.
  - vm_compute. reflexivity.
  - reflexivity.
  - lia.
Defined.

(** The blocks of a loop are strongly connected to its header: every
    member that [findLoops] lists in a loop record other than the root
    is a block that can be reached from the header of the loop and from
    which the header can be reached.  The blocks are named by their
    index and the in-edge lists mirror the out-edge lists. *)
Theorem loop_members_connected (bs : list BasicBlock.t) (cfg : CFG.t) (s : nat)
    (n : Z) (g : LSG.t) (i : nat) (l : SimpleLoop.t) (h : nat) (e : option nat) :
  dense bs = true ->
  CFG.startNode cfg = Some s ->
  (s < length bs)%nat ->
  CFG.getNumNodes cfg = Z.of_nat (length bs) ->
  in_edges_mirrored bs ->
  HavlakLoopFinder.findLoops bs cfg LSG.new = Ok (n, g) ->
  LSG.objs g !! i = Some l ->
  (1 <= i)%nat ->
  SimpleLoop.header l = Some h ->
  e ∈ SimpleLoop.basicBlocks l ->
  exists r, e = Some r /\ reachable bs h r /\ reachable bs r h.
Proof.
  intros Hd Hstart Hs Hsize Hmir H Hl Hi Hh He.
  destruct (findLoops_sound_run bs cfg s Hd Hstart Hs Hsize Hmir)
    as (log & st0 & n' & g' & Hlog & Hnum & Hsp & Hfl & _ & new & Hnew & Hall).
  rewrite Hfl in H. simplify_eq.
  assert (Hlk : new !! (i - 1)%nat = Some (loop_blocks l)).
  { apply (f_equal (fun x => x !! i)) in Hnew.
    rewrite list_lookup_fmap, Hl in Hnew. cbn in Hnew.
    destruct i as [|i]; [lia|]. cbn in Hnew.
    by replace (S i - 1)%nat with i by lia. }
  destruct (Forall_lookup_1 _ _ _ _ Hall Hlk) as (w & z & Hw & _ & ms & Hhb & Hms).
  unfold loop_blocks in Hhb. rewrite Nat2Z.id in Hhb.
  injection Hhb as Hhd Hbbs. rewrite Hh in Hhd. rewrite Hbbs in He.
  apply elem_of_cons in He as [->|He].
  - exists h. split_and!; [done|constructor..].
  - eapply Forall_forall in Hms as (x & -> & Hanc & (tx & tw & Htx & Htw & Hreach));
      [|done].
    rewrite Nat2Z.id in Htw. rewrite Htw in Hhd. injection Hhd as ->.
    exists tx. split_and!; try done.
    destruct (span_reaches bs s log st0 (Z.of_nat w) x Hlog Hsp)
      as (tw' & tx' & Htw' & Htx' & Hr); [lia| |done|].
    { rewrite Nat2Z.id. by eexists. }
    rewrite Nat2Z.id, Htw in Htw'. rewrite Htx in Htx'. by simplify_eq.
Qed.

Lemma nested_mirrored : in_edges_mirrored nested_blocks.
Proof.
  intros [|[|[|[|r]]]] b e Hb He; simplify_eq/=;
    repeat (apply elem_of_cons in He as [->|He]);
    try (by apply elem_of_nil in He);
    (eexists; split; [reflexivity|set_solver]).
Qed.

Lemma loop_members_connected_witness :
  exists r, Some 2%nat = Some r /\
    reachable nested_blocks 1 r /\ reachable nested_blocks r 1.
Proof.
  apply (loop_members_connected nested_blocks nested_cfg 0 3 nested_lsg 1
           nested_inner 1 (Some 2%nat)).
  - reflexivity.
  - reflexivity.
  - cbn. lia.
  - reflexivity.
  - exact nested_mirrored.
  - vm_compute. reflexivity.
  - reflexivity.
  - lia.
  - reflexivity.
  - set_solver.
Defined.

(** A loop nested in another is connected to it: when a loop record
    that [findLoops] made has a parent, the parent is a loop record
    too, and the headers of the two loops can reach each other.  The
    blocks are named by their index and the in-edge lists mirror the
    out-edge lists. *)
Theorem loop_nesting_connected (bs : list BasicBlock.t) (cfg : CFG.t) (s : nat)
    (n : Z) (g : LSG.t) (c p : nat) (lc : SimpleLoop.t) :
  dense bs = true ->
  CFG.startNode cfg = Some s ->
  (s < length bs)%nat ->
  CFG.getNumNodes cfg = Z.of_nat (length bs) ->
  in_edges_mirrored bs ->
  HavlakLoopFinder.findLoops bs cfg LSG.new = Ok (n, g) ->
  LSG.objs g !! c = Some lc ->
  SimpleLoop.parent lc = Some p ->
  exists lp hc hp,
    LSG.objs g !! p = Some lp /\
    SimpleLoop.header lc = Some hc /\ SimpleLoop.header lp = Some hp /\
    reachable bs hp hc /\ reachable bs hc hp.
Proof.
  intros Hd Hstart Hs Hsize Hmir H Hc Hp.
  destruct (findLoops_sound_run bs cfg s Hd Hstart Hs Hsize Hmir)
    as (log & st0 & n' & g' & Hlog & Hnum & Hsp & Hfl & Had & _).
  rewrite Hfl in H. simplify_eq.
  destruct (Had c lc p Hc Hp)
    as [(rec0 & Hc0 & _)|(w & x & hb & Hw & Hhb & (ms & -> & _) & Hhc & Hanc & HR)];
    [done|].
  rewrite list_lookup_fmap in Hhb.
  destruct (LSG.objs g !! p) as [lp|] eqn:Hlp; [|done].
  unfold loop_blocks in Hhb. cbn in Hhb.
  destruct HR as (tx & tw & Htx & Htw & Hreach).
  exists lp, tx, tw. split_and!; [done|congruence|congruence|..|done].
  destruct (span_reaches bs s log st0 w x Hlog Hsp)
    as (tw' & tx' & Htw' & Htx' & Hr); [lia|by eexists|done|].
  rewrite Htw in Htw'. rewrite Htx in Htx'. by simplify_eq.
Qed.

Lemma loop_nesting_connected_witness :
  exists lp hc hp,
    LSG.objs nested_lsg !! 2%nat = Some lp /\
    SimpleLoop.header nested_inner = Some hc /\ SimpleLoop.header lp = Some hp /\
    reachable nested_blocks hp hc /\ reachable nested_blocks hc hp.
Proof.
  apply (loop_nesting_connected nested_blocks nested_cfg 0 3 nested_lsg 1 2
           nested_inner).
  - reflexivity.
  - reflexivity.
  - cbn. lia.
  - reflexivity.
  - exact nested_mirrored.
  - vm_compute. reflexivity.
  - reflexivity.
  - reflexivity.
Defined.

(** ** What a built graph offers the loop finder *)

(** The edge lists of the blocks of a graph built in the empty world
    mirror each other: a block that lists [e] among its in-edges is
    listed by the block [e] among its out-edges, and the other way
    round. *)
Theorem build_mirrored (wd : World) (cs : list call) (cfg : CFG.t) :
  build cs [] world0 CFG.new = Ok (wd, cfg) ->
  in_edges_mirrored (blocks wd) /\ out_edges_mirrored (blocks wd).
Proof.
  intros H.
  destruct (built_build _ _ _ _ _ _ _ _ (built_empty world0) H) as [vars Hb].
  pose proof (built_adjacent _ _ _ _ _ Hb) as Hadj.
  pose proof (fun e => built_ends _ _ _ _ _ e Hb) as Hends.
  cbn in Hadj, Hends. split.
  - intros r b e Hr He.
    destruct (Hadj r b ltac:(lia) Hr) as [_ Hin]. rewrite Hin in He.
    apply list_elem_of_fmap in He as (ed & -> & [Hto Hed]%list_elem_of_filter).
    destruct (Hends ed Hed) as [[_ Hlt] _].
    destruct (lookup_lt_is_Some_2 _ _ Hlt) as [be Hbe].
    exists be. split; [done|].
    destruct (Hadj _ be ltac:(lia) Hbe) as [-> _].
    apply list_elem_of_fmap. exists ed. split; [done|].
    by apply list_elem_of_filter.
  - intros x b e be Hx He Hbe.
    destruct (Hadj x b ltac:(lia) Hx) as [Hout _]. rewrite Hout in He.
    apply list_elem_of_fmap in He as (ed & -> & [Hfrom Hed]%list_elem_of_filter).
    destruct (Hadj _ be ltac:(lia) Hbe) as [_ ->].
    apply list_elem_of_fmap. exists ed. split; [done|].
    by apply list_elem_of_filter.
Qed.

Lemma build_mirrored_witness :
  in_edges_mirrored (blocks sample_world) /\ out_edges_mirrored (blocks sample_world).
Proof. apply (build_mirrored sample_world sample_calls sample_cfg). reflexivity. Defined.

(** A client that numbers its blocks as it makes them builds a graph
    of the form that the loop finder expects, in the empty world: the
    block at index [i] is named [i], the out-edges lead to blocks of
    the store, the graph has as many nodes as the store has blocks, and
    the start node, if there is a block at all, is the block 0. *)
Theorem build_in_order_dense (cs : list call) :
  in_order 0 cs = true ->
  exists wd cfg,
    build cs [] world0 CFG.new = Ok (wd, cfg) /\
    dense (blocks wd) = true /\
    CFG.getNumNodes cfg = Z.of_nat (length (blocks wd)) /\
    CFG.startNode cfg = match blocks wd with [] => None | _ :: _ => Some 0%nat end.
Proof.
  intros Hcs.
  destruct (build_in_order cs 0 [] world0 CFG.new Hcs)
    as (j & vars & wd & cfg & Hb & _ & Hmap & Hlen & Hstart & Hblocks).
  { split_and!; try done. }
  exists wd, cfg. split_and!; [done|..].
  - apply dense_intro. intros r b Hr.
    destruct (Hblocks _ _ Hr) as (Hn & Ho & _). split; [done|].
    intros e He. rewrite Hlen. by eapply Forall_forall in Ho.
  - unfold CFG.getNumNodes. by rewrite Hmap, length_fmap, length_seq, Hlen.
  - rewrite Hstart. destruct (blocks wd), j; cbn in Hlen; try done.
Qed.

Lemma build_in_order_dense_witness :
  exists wd cfg,
    build self_loop_calls [] world0 CFG.new = Ok (wd, cfg) /\
    dense (blocks wd) = true /\
    CFG.getNumNodes cfg = Z.of_nat (length (blocks wd)) /\
    CFG.startNode cfg = match blocks wd with [] => None | _ :: _ => Some 0%nat end.
Proof. apply (build_in_order_dense self_loop_calls). reflexivity. Defined.
